(** * HFTNN: the harmonic-filtered Fourier transform, embedded from [hftnn.ts],
    [math.ts] and [util.ts].

    JavaScript numbers are idealised: a finite number is a real, and [NaN]
    is kept apart because the code produces it (reading an empty array slot
    in arithmetic).  Infinities, signed zeros and rounding are not
    represented.  The FFT kernel ([fft.js]) is an external library and is a
    parameter of every operation. *)

From Stdlib Require Import ZArith Lia Reals Lra List Bool.
From stdpp Require Import base option list gmap.

(** ** Numbers *)

Inductive number : Type :=
| NaN
| Fin (r : R).

Definition nlift1 (f : R -> R) (a : number) : number :=
  match a with
  | Fin x => Fin (f x)
  | NaN => NaN
  end.

Definition nlift2 (f : R -> R -> R) (a b : number) : number :=
  match a, b with
  | Fin x, Fin y => Fin (f x y)
  | _, _ => NaN
  end.

Definition nadd : number -> number -> number := nlift2 Rplus.
Definition nsub : number -> number -> number := nlift2 Rminus.
Definition nmul : number -> number -> number := nlift2 Rmult.

(** [a / b] on finite numbers.  [0 / 0] is [NaN]; a non-zero numerator over
    zero is an infinity in JavaScript, which this model does not carry and
    also maps to [NaN]. *)
Definition ndiv (a b : number) : number :=
  match a, b with
  | Fin x, Fin y => if Req_dec_T y 0 then NaN else Fin (x / y)
  | _, _ => NaN
  end.

(** JavaScript [<] on numbers: false as soon as one side is [NaN]. *)
Definition nlt (a b : number) : Prop :=
  match a, b with
  | Fin x, Fin y => (x < y)%R
  | _, _ => False
  end.

Definition Math_sin : number -> number := nlift1 sin.
Definition Math_cos : number -> number := nlift1 cos.

Definition Math_sqrt (a : number) : number :=
  match a with
  | Fin x => if Rlt_dec x 0 then NaN else Fin (sqrt x)
  | NaN => NaN
  end.

Definition Ratan2 (y x : R) : R :=
  if Rlt_dec 0 x then atan (y / x)
  else if Rlt_dec x 0 then
         (if Rle_dec 0 y then atan (y / x) + PI else atan (y / x) - PI)%R
  else if Rlt_dec 0 y then (PI / 2)%R
  else if Rlt_dec y 0 then (- PI / 2)%R
  else 0%R.

Definition Math_atan2 : number -> number -> number := nlift2 Ratan2.

(** [Math.round]: the nearest integer, a tie going up. *)
Definition Math_round (x : R) : Z := Int_part (x + / 2).

(** ** Arrays

    A JavaScript array of numbers is a list of slots; [None] is an empty
    slot (a hole) or a stored [undefined], both of which read back as
    [undefined]. *)

Abbreviation array := (list (option number)) (only parsing).

(** [undefined] used as an operand of arithmetic is [NaN]. *)
Definition toNumber (v : option number) : number := default NaN v.

(** [a[idx]] read as an arithmetic operand. *)
Definition arrayGet (a : array) (idx : Z) : number :=
  if (idx <? 0)%Z then NaN else toNumber (mjoin (a !! Z.to_nat idx)).

(** The keys that are array indices: [0 .. 2^32 - 2].  Any other key names
    an ordinary property; the slots and the length ignore it, and this model
    does not keep it (the code reads none back). *)
Definition isArrayIndex (idx : Z) : bool :=
  (0 <=? idx)%Z && (idx <? 2 ^ 32 - 1)%Z.

(** [a[idx] = v].  An index at or past the end extends the array, leaving
    holes in between. *)
Definition arraySet (a : array) (idx : Z) (v : number) : array :=
  if negb (isArrayIndex idx) then a
  else
    let n := Z.to_nat idx in
    if n <? length a then <[n := Some v]> a
    else a ++ replicate (n - length a) None ++ [Some v].

(** The lengths an array can have, [0 .. 2^32 - 1]: [new Array(n)] and
    [a.length = n] raise a [RangeError] for any other [n]. *)
Definition isArrayLength (n : Z) : bool :=
  (0 <=? n)%Z && (n <? 2 ^ 32)%Z.

(** [a] cut or grown to [n] slots, the new slots empty. *)
Definition resized (a : array) (n : nat) : array :=
  take n a ++ replicate (n - length a) None.

(** [a.slice(from, to)] for [0 <= from <= to]. *)
Definition slice (a : array) (from to : nat) : array :=
  take (to - from) (drop from a).

(** [a.fill(v, start)]. *)
Definition fill (a : array) (v : number) (start : nat) : array :=
  take start a ++ replicate (length a - start) (Some v).

(** ** Exceptions *)

Inductive invalidInput : Type :=
| NoSignal        (* "No signal has been specified." *)
| BadLength       (* "The given signals length must be a power of two and higher than 1." *)
| NoHFTNN         (* "No HFTNN has been specified." *)
| NoProperties.   (* "No properties have been given." *)

Inductive exn : Type :=
| InvalidInput (why : invalidInput)   (* an [Error] thrown by the library itself *)
| KernelError                         (* an [Error] thrown by the FFT constructor *)
| TypeError                           (* property access on [undefined] *)
| RangeError.                         (* invalid array length *)

(** The outcome of a call: a value, an exception, or [OutOfFuel] when a
    loop of the model is still running after the iterations it was given. *)
Inductive result (A : Type) : Type :=
| Ok (a : A)
| Throw (e : exn)
| OutOfFuel.

Arguments Ok {A} a.
Arguments Throw {A} e.
Arguments OutOfFuel {A}.

Definition bind {A B : Type} (r : result A) (k : A -> result B) : result B :=
  match r with
  | Ok a => k a
  | Throw e => Throw e
  | OutOfFuel => OutOfFuel
  end.

Notation "'let*' x ':=' c 'in' k" := (bind c (fun x => k))
  (at level 10, x name, c at level 100, k at level 200).

(** [a.length = n]. *)
Definition setLength (a : array) (n : nat) : result array :=
  if isArrayLength (Z.of_nat n) then Ok (resized a n) else Throw RangeError.

(** ** [math.ts] *)

Abbreviation entry := (number * number)%type (only parsing).
Abbreviation frame := (list (number * number)) (only parsing).

Definition magnitudePhaseToComplex (magnitude phase : number) : number * number :=
  (nmul (Math_cos phase) magnitude, nmul (Math_sin phase) magnitude).

(** [ToInt32], applied by the bitwise operators to their operands. *)
Definition toInt32 (v : Z) : Z := ((v + 2 ^ 31) mod 2 ^ 32 - 2 ^ 31)%Z.

Definition isPowerOfTwo (v : Z) : bool :=
  (1 <? v)%Z && (Z.land (toInt32 v) (toInt32 (v - 1)) =? 0)%Z.

Definition lerp (v0 v1 t : number) : number :=
  nadd (nmul (nsub (Fin 1) t) v0) (nmul t v1).

Definition fftBinToMagnitudePhase (re im : number) : entry :=
  let magnitude := Math_sqrt (nadd (nmul re re) (nmul im im)) in
  let phase := Math_atan2 im re in
  (magnitude, phase).

Definition freqToFftBin (freq sampleRate signalLength : R) : Z :=
  Math_round (freq * signalLength / sampleRate).

Record CosineWindow : Type := {
  multipliers : list number;
  cw_length : nat
}.

(** [new CosineWindow(length)].  The library passes it the length of an
    array ([signal.length], or a [dftSize] no longer than the signal), for
    which [new Array(length)] raises nothing.  With [length = 1] the
    divisor [N] is 0 and the only multiplier is [Math.sin(0 / 0)]. *)
Definition newCosineWindow (length : nat) : CosineWindow :=
  let N := (Z.of_nat length - 1)%Z in
  {| multipliers :=
       map (fun i : nat =>
              Math_sin (ndiv (Fin (PI * INR i)) (Fin (IZR N))))
           (seq 0 length);
     cw_length := length |}.

(** [signal[i] *= this.multipliers[i]] at one index. *)
Definition applyAt (w : CosineWindow) (signal : array) (i : nat) : array :=
  <[i := Some (nmul (toNumber (mjoin (signal !! i)))
                    (default NaN (multipliers w !! i)))]> signal.

Definition apply (w : CosineWindow) (signal : array) : array :=
  fold_left (applyAt w) (seq 0 (Nat.min (length signal) (cw_length w))) signal.

(** [size * 2] slots, all [0]. *)
Definition complexZeros (size : nat) : array :=
  replicate (size * 2) (Some (Fin 0)).

(** [createComplexArray(size)]: [new Array(size * 2)], filled with [0]. *)
Definition createComplexArray (size : nat) : result array :=
  if isArrayLength (Z.of_nat (size * 2)) then Ok (complexZeros size)
  else Throw RangeError.

(** ** [util.ts] *)

(** Every [s]-th slot of [a], from slot 0. *)
Fixpoint everyNth (s skip : nat) (a : array) : array :=
  match a with
  | [] => []
  | x :: a' =>
      match skip with
      | 0 => x :: everyNth s (s - 1) a'
      | S k => everyNth s k a'
      end
  end.

(** [step(array, step)].  With [step == 1] the result is a copy of the whole
    array.  Otherwise the output is allocated with [array.length / step]
    slots, which raises a [RangeError] unless that quotient is an
    integer. *)
Definition step (a : array) (s : nat) : result array :=
  if s =? 1 then Ok a
  else if s =? 0 then Throw RangeError
  else if length a mod s =? 0 then Ok (everyNth s 0 a)
  else Throw RangeError.

(** ** The FFT kernel ([fft.js]) *)

Record FFTKernel : Type := {
  (** [new FFT(size)] returns a plan ([true]) or throws ([false]). *)
  fft_construct : nat -> bool;
  (** [f.realTransform(out, data)]: the content of [out] afterwards. *)
  fft_realTransform : nat -> array -> array -> array;
  (** [f.inverseTransform(out, data)]: the content of [out] afterwards. *)
  fft_inverseTransform : nat -> array -> array -> array
}.

(** What the library relies on: a plan exists for every power of two from
    2 to [2^30], both transforms write into [out] without resizing it, and
    the inverse transform of a spectrum whose [2 * size] interleaved slots
    are all zero fills a fresh output with zeros.  Nothing is assumed of the
    constructor on any other size. *)
Record FFTContract (K : FFTKernel) : Prop := {
  construct_ok :
    forall size : nat,
      isPowerOfTwo (Z.of_nat size) = true -> (Z.of_nat size < 2 ^ 31)%Z ->
      fft_construct K size = true;
  realTransform_length :
    forall size out data,
      length (fft_realTransform K size out data) = length out;
  inverseTransform_length :
    forall size out data,
      length (fft_inverseTransform K size out data) = length out;
  inverseTransform_zero :
    forall size data,
      (forall i : nat, i < 2 * size -> data !! i = Some (Some (Fin 0))) ->
      fft_inverseTransform K size (complexZeros size) data
      = complexZeros size
}.

(** ** [hftnn.ts] *)

(** [fundamental * Math.pow(2, x / intervalsInOctave)], on finite numbers;
    [Rpower 2 y] is [2] to the real power [y]. *)
Definition intervalToFreq (x fundamental intervalsInOctave : R) : R :=
  (fundamental * Rpower 2 (x / intervalsInOctave))%R.

(** The two frequencies are finite numbers and the five counts are natural
    numbers.  The bin mapping divides by [sampleRate] and by
    [frequenciesInOctave]: what is stated about bin indices assumes both
    positive, as valid properties have them. *)
Record HFTNNProperties : Type := {
  sampleRate : R;
  fundamental : R;
  frequenciesInOctave : nat;
  octaveRange : nat;
  extraBins : nat;
  interpolatedChunks : nat;
  dftSize : nat
}.

(** The sparse [bins] array of [hftnnForward]: its [length] and the slots
    that hold a [{ magnitude, phase }] object. *)
Record binCache : Type := {
  bc_length : Z;
  bc_slots : gmap Z entry
}.

(** [new Array(n)]. *)
Definition newBins (n : Z) : binCache :=
  {| bc_length := n; bc_slots := ∅ |}.

(** [bins[idx] = bin]; a write at an index at or past the end moves
    [length]. *)
Definition binsSet (bins : binCache) (idx : Z) (bin : entry) : binCache :=
  {| bc_length :=
       if isArrayIndex idx && (bc_length bins <=? idx)%Z
       then (idx + 1)%Z else bc_length bins;
     bc_slots := <[idx := bin]> (bc_slots bins) |}.

Definition computeBinIfNecessary (transform : array) (bins : binCache) (idx : Z)
  : binCache :=
  match bc_slots bins !! idx with
  | None =>
      let fftIdx := (idx * 2)%Z in
      binsSet bins idx
        (fftBinToMagnitudePhase (arrayGet transform fftIdx)
                                (arrayGet transform (fftIdx + 1)))
  | Some _ => bins
  end.

(** The loop state of [hftnnForward]: the bin cache and the output so far. *)
Record fwdState : Type := {
  fs_bins : binCache;
  fs_hft : frame
}.

(** [hft.push([0, 0])]. *)
Definition pushZero (st : fwdState) : fwdState :=
  {| fs_bins := fs_bins st; fs_hft := fs_hft st ++ [(Fin 0, Fin 0)] |}.

(** [computeBinIfNecessary(idx); let bin = bins[idx];
    hft.push([bin.magnitude, bin.phase])]. *)
Definition pushBin (transform : array) (st : fwdState) (idx : Z)
  : result fwdState :=
  let bins := computeBinIfNecessary transform (fs_bins st) idx in
  match bc_slots bins !! idx with
  | Some bin => Ok {| fs_bins := bins; fs_hft := fs_hft st ++ [bin] |}
  | None => Throw TypeError
  end.

(** [for (extraBinIdx = -extraBins; extraBinIdx < 0; extraBinIdx++)], with
    [extraBinIdx = -k]. *)
Fixpoint lowLoop (transform : array) (binIdx : Z) (k : nat) (st : fwdState)
  : result fwdState :=
  match k with
  | 0 => Ok st
  | S k' =>
      let idx := (binIdx + - Z.of_nat k)%Z in
      let* st' := (if (idx <? 0)%Z then Ok (pushZero st)
                   else pushBin transform st idx) in
      lowLoop transform binIdx k' st'
  end.

(** [for (extraBinIdx = 1; extraBinIdx <= extraBins; extraBinIdx++)], with
    [n] iterations left. *)
Fixpoint highLoop (transform : array) (binIdx : Z) (n : nat) (extraBinIdx : Z)
    (st : fwdState) : result fwdState :=
  match n with
  | 0 => Ok st
  | S n' =>
      let idx := (binIdx + extraBinIdx)%Z in
      let* st' := (if (bc_length (fs_bins st) <=? idx)%Z then Ok (pushZero st)
                   else pushBin transform st idx) in
      highLoop transform binIdx n' (extraBinIdx + 1) st'
  end.

(** The bin of harmonic interval [j] in a spectrum of [signalLength] points. *)
Definition intervalBin (p : HFTNNProperties) (signalLength : nat) (j : nat) : Z :=
  freqToFftBin
    (intervalToFreq (INR j) (fundamental p) (INR (frequenciesInOctave p)))
    (sampleRate p) (INR signalLength).

(** The body of the inner loop, for interval [j]. *)
Definition intervalBody (transform : array) (p : HFTNNProperties)
    (signalLength : nat) (j : nat) (st : fwdState) : result fwdState :=
  let binIdx := intervalBin p signalLength j in
  let* st1 := lowLoop transform binIdx (extraBins p) st in
  let* st2 := pushBin transform st1 binIdx in
  highLoop transform binIdx (extraBins p) 1 st2.

(** [for (i = 0; i < frequenciesInOctave; i++)], [n] iterations left. *)
Fixpoint freqLoop (transform : array) (p : HFTNNProperties) (signalLength : nat)
    (n : nat) (j : nat) (st : fwdState) : result (nat * fwdState) :=
  match n with
  | 0 => Ok (j, st)
  | S n' =>
      let* st' := intervalBody transform p signalLength j st in
      freqLoop transform p signalLength n' (S j) st'
  end.

(** [for (oct = 1; oct <= octaveRange; oct++)], [n] iterations left. *)
Fixpoint octLoop (transform : array) (p : HFTNNProperties) (signalLength : nat)
    (n : nat) (j : nat) (st : fwdState) : result (nat * fwdState) :=
  match n with
  | 0 => Ok (j, st)
  | S n' =>
      let* js := freqLoop transform p signalLength (frequenciesInOctave p) j st in
      octLoop transform p signalLength n' (fst js) (snd js)
  end.

(** The window [hftnnForward] applies: the caller's when it has the length
    of the signal, a fresh one otherwise. *)
Definition chooseWindow (forwardWindow : option CosineWindow) (signalLength : nat)
  : CosineWindow :=
  match forwardWindow with
  | Some w => if cw_length w =? signalLength then w
              else newCosineWindow signalLength
  | None => newCosineWindow signalLength
  end.

(** The spectrum [hftnnForward] extracts bins from, given the windowed
    signal. *)
Definition spectrumOf (K : FFTKernel) (p : HFTNNProperties) (windowed : array)
  : array :=
  fft_realTransform K (dftSize p) (complexZeros (dftSize p)) windowed.

(** [hftnnForward(signal, properties, forwardWindow)].  The first component
    is the caller's [signal] array after the call: the window is applied to
    it in place. *)
Definition hftnnForward (K : FFTKernel) (signal : option array)
    (properties : option HFTNNProperties) (forwardWindow : option CosineWindow)
  : option array * result frame :=
  match signal with
  | None => (None, Throw (InvalidInput NoSignal))
  | Some sig =>
      if negb (isPowerOfTwo (Z.of_nat (length sig)))
      then (Some sig, Throw (InvalidInput BadLength))
      else
        match properties with
        | None => (Some sig, Throw (InvalidInput NoProperties))
        | Some p =>
            if negb (fft_construct K (dftSize p))
            then (Some sig, Throw KernelError)
            else
              match createComplexArray (dftSize p) with
              | Throw e => (Some sig, Throw e)
              | OutOfFuel => (Some sig, OutOfFuel)
              | Ok out =>
                  let windowed :=
                    apply (chooseWindow forwardWindow (length sig)) sig in
                  let transform := fft_realTransform K (dftSize p) out windowed in
                  (Some windowed,
                   (* [new Array(transform.length / 2)] *)
                   if Nat.odd (length transform) then Throw RangeError
                   else
                     let bins := newBins (Z.of_nat (length transform) / 2) in
                     let* js := octLoop transform p (length sig) (octaveRange p) 0
                                  {| fs_bins := bins; fs_hft := [] |} in
                     Ok (fs_hft (snd js)))
              end
        end
  end.

(** [const chunk = signal.slice(i, i + dftSize); let chunkLen = chunk.length;
    chunk.length = dftSize; chunk.fill(0, chunkLen)].  The loop that takes
    chunks runs with [dftSize <= signal.length], itself the length of an
    array, so the assignment to [chunk.length] raises nothing there. *)
Definition chunkAt (signal : array) (p : HFTNNProperties) (i : nat) : array :=
  let chunk := slice signal i (i + dftSize p) in
  let chunkLen := length chunk in
  fill (resized chunk (dftSize p)) (Fin 0) chunkLen.

(** The test that guards the processing of a chunk:
    [j == 0 || i >= signal.length + (dftSize / 2)]. *)
Definition processCondition (signal : array) (p : HFTNNProperties) (i j : nat)
  : bool :=
  (j =? 0) || (length signal + dftSize p / 2 <=? i).

(** [j++; if (j > interpolatedChunks) j = 0]. *)
Definition nextSkip (p : HFTNNProperties) (j : nat) : nat :=
  if interpolatedChunks p <? S j then 0 else S j.

(** The chunking loop, [for (i = 0; i < signal.length; i += dftSize / 2)].
    The hop [dftSize / 2] is exact for an even [dftSize]. *)
Fixpoint temporalLoop (K : FFTKernel) (signal : array) (p : HFTNNProperties)
    (forwardWindow : CosineWindow) (fuel : nat) (i j : nat)
    (hftnns : list frame) : result (list frame) :=
  if i <? length signal then
    match fuel with
    | 0 => OutOfFuel
    | S fuel' =>
        let* hftnns' :=
          (if processCondition signal p i j then
             let* hft := snd (hftnnForward K (Some (chunkAt signal p i)) (Some p)
                                (Some forwardWindow)) in
             Ok (hftnns ++ [hft])
           else Ok hftnns) in
        temporalLoop K signal p forwardWindow fuel'
          (i + dftSize p / 2) (nextSkip p j) hftnns'
    end
  else Ok hftnns.

(** [hftnnForwardTemporal(signal, properties)].  The first component is the
    caller's [signal] array after the call. *)
Definition hftnnForwardTemporal (K : FFTKernel) (signal : array)
    (p : HFTNNProperties) : array * result (list frame) :=
  if length signal <? dftSize p then
    match setLength signal (dftSize p) with
    | Throw e => (signal, Throw e)
    | OutOfFuel => (signal, OutOfFuel)
    | Ok signal' =>
        let r := hftnnForward K (Some signal') (Some p) None in
        (default signal' (fst r), let* hft := snd r in Ok [hft])
    end
  else
    let forwardWindow := newCosineWindow (dftSize p) in
    (signal, temporalLoop K signal p forwardWindow (length signal) 0 0 []).

(** One harmonic entry scattered into the spectrum:
    [let complex = magnitudePhaseToComplex(hft[i][0], hft[i][1]);
     bins[k] = complex[0]; bins[k + 1] = complex[1]; i++] with [k = bin * 2]. *)
Definition scatter (hft : frame) (bin : Z) (st : array * nat)
  : result (array * nat) :=
  match hft !! snd st with
  | None => Throw TypeError
  | Some e =>
      let complex := magnitudePhaseToComplex (fst e) (snd e) in
      let k := (bin * 2)%Z in
      Ok (arraySet (arraySet (fst st) k (fst complex)) (k + 1) (snd complex),
          S (snd st))
  end.

(** [for (let j = extraBins; j > 0; j--)]. *)
Fixpoint invLowLoop (hft : frame) (baseBin : Z) (j : nat) (st : array * nat)
  : result (array * nat) :=
  match j with
  | 0 => Ok st
  | S j' =>
      let* st' := scatter hft (baseBin - Z.of_nat j) st in
      invLowLoop hft baseBin j' st'
  end.

(** [for (let j = 1; j <= extraBins; j++)], [n] iterations left. *)
Fixpoint invHighLoop (hft : frame) (baseBin : Z) (n : nat) (j : Z)
    (st : array * nat) : result (array * nat) :=
  match n with
  | 0 => Ok st
  | S n' =>
      let* st' := scatter hft (baseBin + j) st in
      invHighLoop hft baseBin n' (j + 1) st'
  end.

(** The body of the [while] loop of [hftnnInverse], for one interval. *)
Definition inverseBody (hft : frame) (p : HFTNNProperties) (interval : nat)
    (st : array * nat) : result (array * nat) :=
  let baseBin := intervalBin p (dftSize p) interval in
  let* st1 := invLowLoop hft baseBin (extraBins p) st in
  let* st2 := scatter hft baseBin st1 in
  invHighLoop hft baseBin (extraBins p) 1 st2.

(** [while (i < hft.length)]. *)
Fixpoint inverseLoop (hft : frame) (p : HFTNNProperties) (fuel : nat)
    (interval : nat) (st : array * nat) : result array :=
  if snd st <? length hft then
    match fuel with
    | 0 => OutOfFuel
    | S fuel' =>
        let* st' := inverseBody hft p interval st in
        inverseLoop hft p fuel' (S interval) st'
    end
  else Ok (fst st).

(** [hftnnInverse(hft, properties)]. *)
Definition hftnnInverse (K : FFTKernel) (hft : option frame)
    (properties : option HFTNNProperties) : result array :=
  match hft with
  | None => Throw (InvalidInput NoHFTNN)
  | Some hft =>
      match properties with
      | None => Throw (InvalidInput NoProperties)
      | Some p =>
          if negb (fft_construct K (dftSize p)) then Throw KernelError
          else
            let* bins0 := createComplexArray (dftSize p) in
            let* bins := inverseLoop hft p (length hft) 0 (bins0, 0) in
            let* out := createComplexArray (dftSize p) in
            let inverse := fft_inverseTransform K (dftSize p) out bins in
            step inverse 1
      end
  end.

(** The inner loop that builds one interpolated frame,
    [for (let k = 0; k < hft.length; k++)], [n] iterations left. *)
Fixpoint interpolateLoop (hft nextHft : frame) (t : number) (n k : nat)
    (interpolated : frame) : result frame :=
  match n with
  | 0 => Ok interpolated
  | S n' =>
      match hft !! k, nextHft !! k with
      | Some a, Some b =>
          interpolateLoop hft nextHft t n' (S k)
            (interpolated ++ [(lerp (fst a) (fst b) t, lerp (snd a) (snd b) t)])
      | _, _ => Throw TypeError
      end
  end.

(** [for (let j = 0; j < interpolatedChunks * 2; j++)], [n] iterations left:
    the interpolated chunks between [hft] and [nextHft]. *)
Fixpoint interpLoop (K : FFTKernel) (p : HFTNNProperties) (hft nextHft : frame)
    (windowFunc : CosineWindow) (n j : nat) (signals : list array)
  : result (list array) :=
  match n with
  | 0 => Ok signals
  | S n' =>
      let t := Fin (INR (j + 1) / INR (interpolatedChunks p * 2 + 1)) in
      let* interpolated := interpolateLoop hft nextHft t (length hft) 0 [] in
      let* signal := hftnnInverse K (Some interpolated) (Some p) in
      interpLoop K p hft nextHft windowFunc n' (S j)
        (signals ++ [apply windowFunc signal])
  end.

(** [for (let i = 0; i < hftt.length; i++)] of [hftnnInverseTemporal]. *)
Fixpoint inverseTemporalLoop (K : FFTKernel) (p : HFTNNProperties)
    (hftt : list frame) (fuel : nat) (i : nat)
    (windowFunc : option CosineWindow) (signals : list array)
  : result (list array) :=
  if i <? length hftt then
    match fuel with
    | 0 => OutOfFuel
    | S fuel' =>
        let* signal := hftnnInverse K (hftt !! i) (Some p) in
        let w := match windowFunc with
                 | None => newCosineWindow (length signal)
                 | Some w => w
                 end in
        let signals1 := signals ++ [apply w signal] in
        if (0 <? interpolatedChunks p) && (i + 1 <? length hftt) then
          match hftt !! i, hftt !! (i + 1) with
          | Some hft, Some nextHft =>
              let* signals2 :=
                interpLoop K p hft nextHft w (interpolatedChunks p * 2) 0 signals1 in
              let* signal := hftnnInverse K (Some nextHft) (Some p) in
              inverseTemporalLoop K p hftt fuel' (i + 1 + 1) (Some w)
                (signals2 ++ [apply w signal])
          | _, _ => Throw TypeError
          end
        else inverseTemporalLoop K p hftt fuel' (i + 1) (Some w) signals1
    end
  else Ok signals.

(** The overlap-add of one windowed frame,
    [for (let j = 0; j < dftSize * 2; j++)], [n] iterations left. *)
Fixpoint overlapLoop (frame_i : array) (relativeStart : Z) (n j : nat)
    (signal : array) : array :=
  match n with
  | 0 => signal
  | S n' =>
      let signalIdx := (relativeStart + Z.of_nat j)%Z in
      let signal' :=
        if (Z.of_nat (length signal) <=? signalIdx)%Z
        then signal ++ [mjoin (frame_i !! j)]
        else arraySet signal signalIdx
               (nmul (nadd (arrayGet signal signalIdx)
                           (toNumber (mjoin (frame_i !! j))))
                     (Fin 2)) in
      overlapLoop frame_i relativeStart n' (S j) signal'
  end.

(** One step of the stitching loop: [relativeStart] is
    [Math.floor((signal.length - dftSize * 2) + (dftSize * 2) * (1 / 2))]. *)
Definition overlapAdd (p : HFTNNProperties) (signal frame_i : array) : array :=
  let relativeStart :=
    (Z.of_nat (length signal) - Z.of_nat (dftSize p * 2) + Z.of_nat (dftSize p))%Z in
  overlapLoop frame_i relativeStart (dftSize p * 2) 0 signal.

(** [hftnnInverseTemporal(hftt, properties)]. *)
Definition hftnnInverseTemporal (K : FFTKernel) (hftt : list frame)
    (p : HFTNNProperties) : result array :=
  if length hftt =? 0 then Ok []
  else
    let* signals := inverseTemporalLoop K p hftt (length hftt) 0 None [] in
    match signals with
    | [] => Throw TypeError
    | first :: rest => Ok (fold_left (overlapAdd p) rest first)
    end.

(** ** Vocabulary of the statements *)

(** A power of two greater than 1. *)
Definition powerOfTwoAbove1 (n : Z) : Prop :=
  exists k : Z, (1 <= k)%Z /\ n = (2 ^ k)%Z.

(** The part of a valid [HFTNNProperties] that the bin mapping needs. *)
Definition validFrequencies (p : HFTNNProperties) : Prop :=
  (0 < sampleRate p)%R /\ (0 < fundamental p)%R /\ 0 < frequenciesInOctave p.

(** [octaveRange * frequenciesInOctave * (2 * extraBins + 1)]. *)
Definition frameLength (p : HFTNNProperties) : nat :=
  octaveRange p * frequenciesInOctave p * (2 * extraBins p + 1).

(** The polar form of bin [idx] of an interleaved spectrum. *)
Definition polarAt (transform : array) (idx : Z) : entry :=
  fftBinToMagnitudePhase (arrayGet transform (idx * 2))
                         (arrayGet transform (idx * 2 + 1)).

(** The number of iterations of the chunking loop: the offsets
    [0, hop, 2 * hop, ...] below [signal.length], with [hop = dftSize / 2]. *)
Definition hopCount (signal : array) (p : HFTNNProperties) : nat :=
  (length signal + dftSize p / 2 - 1) / (dftSize p / 2).

(** A [dftSize] as valid properties have it: the test for a power of two
    above 1 passes, on a size whose [2 * dftSize] interleaved slots fit an
    array. *)
Definition validDftSize (p : HFTNNProperties) : Prop :=
  isPowerOfTwo (Z.of_nat (dftSize p)) = true /\
  (Z.of_nat (dftSize p) < 2 ^ 31)%Z.

(** The hops whose chunk is kept: one in [interpolatedChunks + 1]. *)
Definition keptHops (signal : array) (p : HFTNNProperties) : list nat :=
  List.filter (fun k => k mod S (interpolatedChunks p) =? 0)
              (seq 0 (hopCount signal p)).

(** A window argument as callers pass it: absent, or built by the
    [CosineWindow] constructor. *)
Definition constructed (w : option CosineWindow) : Prop :=
  match w with
  | None => True
  | Some w => exists n, w = newCosineWindow n
  end.

(** The frame [hftnnForward] returns for a chunk, [[]] if it throws. *)
Definition frameOfChunk (K : FFTKernel) (p : HFTNNProperties)
    (w : CosineWindow) (chunk : array) : frame :=
  match snd (hftnnForward K (Some chunk) (Some p) (Some w)) with
  | Ok hft => hft
  | _ => []
  end.

(** The entry [hftnnForward] emits for a low neighbour at bin [idx]. *)
Definition lowEntry (T : array) (idx : Z) : number * number :=
  if (idx <? 0)%Z then (Fin 0, Fin 0) else polarAt T idx.

(** The entry it emits for a high neighbour at bin [idx], [D] being the
    length of [bins]. *)
Definition highEntry (D : Z) (T : array) (idx : Z) : number * number :=
  if (D <=? idx)%Z then (Fin 0, Fin 0) else polarAt T idx.

(** The bins the low-neighbour loop visits, in order. *)
Fixpoint lowBins (b : Z) (k : nat) : list Z :=
  match k with
  | 0 => []
  | S k' => (b + - Z.of_nat k)%Z :: lowBins b k'
  end.

(** The bins the high-neighbour loop visits, in order. *)
Fixpoint highBins (b : Z) (n : nat) (e : Z) : list Z :=
  match n with
  | 0 => []
  | S n' => (b + e)%Z :: highBins b n' (e + 1)
  end.

(** The entries of harmonic interval [j]: low neighbours, centre, high
    neighbours. *)
Definition intervalEntries (D : Z) (T : array) (p : HFTNNProperties)
    (len : nat) (j : nat) : list (number * number) :=
  let b := intervalBin p len j in
  map (lowEntry T) (lowBins b (extraBins p))
  ++ [polarAt T b]
  ++ map (highEntry D T) (highBins b (extraBins p) 1).

(** Every cached bin is the polar form of the spectrum at its index. *)
Definition coherent (T : array) (bins : binCache) : Prop :=
  forall (k : Z) (v : number * number),
    bc_slots bins !! k = Some v -> v = polarAt T k.

(** The slot [signal[i] *= multipliers[i]] leaves at [i]. *)
Definition windowedSlot (w : CosineWindow) (s : array) (i : nat) : option number :=
  Some (nmul (toNumber (mjoin (s !! i))) (default NaN (multipliers w !! i))).

(** ** A reference kernel *)

Definition sumN (f : nat -> number) (n : nat) : number :=
  fold_left (fun acc t => nadd acc (f t)) (seq 0 n) (Fin 0).

Definition twiddle (size k t : nat) : R :=
  (2 * PI * INR k * INR t / INR size)%R.

(** Bin [k] of the discrete Fourier transform of the real input [data]. *)
Definition dftBin (size : nat) (data : array) (k : nat) : number * number :=
  (sumN (fun t => nmul (arrayGet data (Z.of_nat t))
                       (Fin (cos (twiddle size k t)))) size,
   sumN (fun t => nmul (arrayGet data (Z.of_nat t))
                       (Fin (- sin (twiddle size k t)))) size).

(** Sample [k] of the inverse transform of the interleaved spectrum [data]. *)
Definition idftBin (size : nat) (data : array) (k : nat) : number * number :=
  let re t := arrayGet data (Z.of_nat (2 * t)) in
  let im t := arrayGet data (Z.of_nat (2 * t + 1)) in
  let c t := Fin (cos (twiddle size k t)) in
  let s t := Fin (sin (twiddle size k t)) in
  (ndiv (sumN (fun t => nsub (nmul (re t) (c t)) (nmul (im t) (s t))) size)
        (Fin (INR size)),
   ndiv (sumN (fun t => nadd (nmul (re t) (s t)) (nmul (im t) (c t))) size)
        (Fin (INR size))).

(** The first [2 * size] slots of [out] overwritten with interleaved bins. *)
Definition writeInterleaved (size : nat) (bin : nat -> number * number)
    (out : array) : array :=
  imap (fun idx old =>
          if idx <? 2 * size
          then Some (if Nat.even idx then fst (bin (idx / 2))
                     else snd (bin (idx / 2)))
          else old) out.

(** Modelled from the spec: the FFT kernel is the external library [fft.js],
    absent from the sources.  This instance follows section 6 of the
    specification: a plan exists for a size that is a power of two above 1,
    and both transforms write an interleaved [re, im] sequence; the values
    are those of the discrete Fourier transform, by its definition. *)
Definition dftKernel : FFTKernel :=
  {| fft_construct := fun size => isPowerOfTwo (Z.of_nat size);
     fft_realTransform := fun size out data =>
       writeInterleaved size (dftBin size data) out;
     fft_inverseTransform := fun size out data =>
       writeInterleaved size (idftBin size data) out |}.

(** ** Sample inputs *)

Definition zero : entry := (Fin 0, Fin 0).

(** [dftSize = 8], one octave of one frequency, no extra bins. *)
Definition props8 : HFTNNProperties :=
  {| sampleRate := 44100;
     fundamental := 16.351597831287414;
     frequenciesInOctave := 1;
     octaveRange := 1;
     extraBins := 0;
     interpolatedChunks := 0;
     dftSize := 8 |}.

(** A fundamental above the sampling rate: with [dftSize = 8] the single
    harmonic interval maps to bin 9, its neighbours to bins 8 and 10. *)
Definition propsHigh : HFTNNProperties :=
  {| sampleRate := 8000;
     fundamental := 9000;
     frequenciesInOctave := 1;
     octaveRange := 1;
     extraBins := 1;
     interpolatedChunks := 0;
     dftSize := 8 |}.

(** As [props8], keeping one chunk in two. *)
Definition propsSkip : HFTNNProperties :=
  {| sampleRate := 44100;
     fundamental := 16.351597831287414;
     frequenciesInOctave := 1;
     octaveRange := 1;
     extraBins := 1;
     interpolatedChunks := 1;
     dftSize := 8 |}.

Definition silence (n : nat) : array := replicate n (Some (Fin 0)).

Definition ones (n : nat) : array := replicate n (Some (Fin 1)).

(** ** The demo's [pick] and the stitched frames *)

(** [for (let i = 0; i < array.length; i += step) o.push(array[i])]. *)
Fixpoint pickLoop (a : list (option number)) (s : nat) (fuel : nat) (i : nat)
    (o : list (option number)) : result (list (option number)) :=
  if i <? length a then
    match fuel with
    | 0 => OutOfFuel
    | S fuel' => pickLoop a s fuel' (i + s) (o ++ [mjoin (a !! i)])
    end
  else Ok o.

(** [pick(array, step)] of the demo. *)
Definition pick (a : list (option number)) (s : nat) : result (list (option number)) :=
  pickLoop a s (length a) 0 [].

(** The number of windowed frames [hftnnInverseTemporal] stitches for [n]
    stored frames: each stored frame alone when nothing is interpolated;
    otherwise the stored frames go in pairs, each pair with
    [2 * interpolatedChunks] frames in between, and a last odd frame
    alone. *)
Definition windowedFrameCount (p : HFTNNProperties) (n : nat) : nat :=
  if interpolatedChunks p =? 0 then n
  else n / 2 * (2 * interpolatedChunks p + 2) + n mod 2.

(** * Properties *)

Ltac conjs := repeat split; try assumption; try reflexivity; try lia.

(** ** Numbers *)

Lemma magnitudePhaseToComplex_zero :
  magnitudePhaseToComplex (Fin 0) (Fin 0) = (Fin 0, Fin 0).
Proof.
  unfold magnitudePhaseToComplex, Math_cos, Math_sin. simpl.
  rewrite !Rmult_0_r. reflexivity.
Qed.

Lemma fftBinToMagnitudePhase_NaN (im : number) :
  fftBinToMagnitudePhase NaN im = (NaN, NaN).
Proof. unfold fftBinToMagnitudePhase. destruct im; reflexivity. Qed.

Lemma Int_part_IZR (z : Z) (x : R) :
  (IZR z <= x)%R -> (x < IZR z + 1)%R -> Int_part x = z.
Proof.
  intros Hlo Hhi. unfold Int_part.
  assert (E : (z + 1)%Z = up x).
  { apply up_tech; [exact Hlo|]. rewrite plus_IZR. exact Hhi. }
  lia.
Qed.

Lemma Int_part_mono (x y : R) : (x <= y)%R -> (Int_part x <= Int_part y)%Z.
Proof.
  intros Hxy.
  destruct (base_Int_part x) as [Hx1 Hx2].
  destruct (base_Int_part y) as [Hy1 Hy2].
  destruct (Z_le_gt_dec (Int_part x) (Int_part y)) as [H|H]; [exact H|].
  exfalso.
  assert (Hz : (Int_part y + 1 <= Int_part x)%Z) by lia.
  apply IZR_le in Hz. rewrite plus_IZR in Hz. lra.
Qed.

Lemma Math_round_IZR (z : Z) : Math_round (IZR z) = z.
Proof. unfold Math_round. apply Int_part_IZR; lra. Qed.

Lemma Math_round_mono (x y : R) :
  (x <= y)%R -> (Math_round x <= Math_round y)%Z.
Proof. intros H. unfold Math_round. apply Int_part_mono. lra. Qed.

(** ** [isPowerOfTwo] *)

Section Bits.
Local Open Scope Z_scope.

Lemma land_even_odd (a b : Z) : Z.land (2 * a) (2 * b + 1) = 2 * Z.land a b.
Proof.
  apply Z.bits_inj'. intros n Hn.
  rewrite Z.land_spec.
  destruct (Z.eq_dec n 0) as [->|Hne].
  - rewrite !Z.testbit_even_0. reflexivity.
  - replace n with (Z.succ (n - 1)) by lia.
    rewrite Z.testbit_even_succ, Z.testbit_odd_succ, Z.testbit_even_succ by lia.
    rewrite Z.land_spec. reflexivity.
Qed.

Lemma land_odd_even (a b : Z) : Z.land (2 * a + 1) (2 * b) = 2 * Z.land a b.
Proof. rewrite Z.land_comm, land_even_odd, Z.land_comm. reflexivity. Qed.

(** [v & (v - 1)] clears the lowest set bit of [v]. *)
Lemma land_pred_pow2 (v : Z) :
  0 < v -> (Z.land v (v - 1) = 0 <-> exists k, 0 <= k /\ v = 2 ^ k).
Proof.
  intros Hv. destruct v as [|q|q]; try lia. clear Hv.
  induction q as [q IH|q IH|].
  - replace (Z.pos q~1 - 1) with (2 * Z.pos q) by lia.
    replace (Z.pos q~1) with (2 * Z.pos q + 1) by lia.
    rewrite land_odd_even, Z.land_diag. split; [lia|].
    intros (k & Hk & E).
    destruct (Z.eq_dec k 0) as [->|Hne]; [simpl in E; lia|].
    replace k with (Z.succ (k - 1)) in E by lia.
    rewrite Z.pow_succ_r in E by lia. lia.
  - replace (Z.pos q~0 - 1) with (2 * (Z.pos q - 1) + 1) by lia.
    replace (Z.pos q~0) with (2 * Z.pos q) by lia.
    rewrite land_even_odd. split.
    + intros H. assert (H' : Z.land (Z.pos q) (Z.pos q - 1) = 0) by lia.
      apply IH in H'. destruct H' as (k & Hk & E).
      exists (Z.succ k). split; [lia|]. rewrite Z.pow_succ_r by lia. lia.
    + intros (k & Hk & E).
      destruct (Z.eq_dec k 0) as [->|Hne]; [simpl in E; lia|].
      replace k with (Z.succ (k - 1)) in E by lia.
      rewrite Z.pow_succ_r in E by lia.
      assert (E' : Z.pos q = 2 ^ (k - 1)) by lia.
      assert (H' : Z.land (Z.pos q) (Z.pos q - 1) = 0).
      { apply IH. exists (k - 1). split; [lia|exact E']. }
      lia.
  - split; [|reflexivity]. intros _. exists 0. split; [lia|reflexivity].
Qed.

Lemma toInt32_small (v : Z) : - 2 ^ 31 <= v < 2 ^ 31 -> toInt32 v = v.
Proof.
  unfold toInt32.
  change (2 ^ 31) with 2147483648. change (2 ^ 32) with 4294967296.
  intros H. rewrite Z.mod_small by lia. lia.
Qed.

Lemma toInt32_large (v : Z) : 2 ^ 31 <= v < 2 ^ 32 -> toInt32 v = v - 2 ^ 32.
Proof.
  unfold toInt32.
  change (2 ^ 31) with 2147483648. change (2 ^ 32) with 4294967296.
  intros H.
  replace (v + 2147483648) with ((v - 2147483648) + 1 * 4294967296) by lia.
  rewrite Z.mod_add by lia. rewrite Z.mod_small by lia. lia.
Qed.

(** On every length an array can have, [isPowerOfTwo] is the test its
    docstring gives: a power of two higher than 1. *)
Lemma isPowerOfTwo_spec (v : Z) :
  0 <= v < 2 ^ 32 -> (isPowerOfTwo v = true <-> powerOfTwoAbove1 v).
Proof.
  intros Hv. unfold isPowerOfTwo, powerOfTwoAbove1.
  rewrite andb_true_iff, Z.ltb_lt, Z.eqb_eq.
  destruct (Z_lt_le_dec 1 v) as [H1|H1].
  2:{ split; [lia|]. intros (k & Hk & E).
      assert (2 ^ 1 <= 2 ^ k) by (apply Z.pow_le_mono_r; lia).
      change (2 ^ 1) with 2 in *. lia. }
  destruct (Z_lt_le_dec v (2 ^ 31)) as [H2|H2].
  - rewrite !toInt32_small by lia. rewrite land_pred_pow2 by lia.
    split.
    + intros (_ & k & Hk & E). exists k. split; [|exact E].
      destruct (Z.eq_dec k 0) as [->|]; [simpl in E; lia|lia].
    + intros (k & Hk & E). split; [lia|]. exists k. split; [lia|exact E].
  - destruct (Z.eq_dec v (2 ^ 31)) as [->|Hne].
    + split; [|intros _; split; [lia|reflexivity]].
      intros _. exists 31. split; [lia|reflexivity].
    + rewrite !toInt32_large by lia. split.
      * intros (_ & E).
        assert (Hneg : Z.land (v - 2 ^ 32) (v - 1 - 2 ^ 32) < 0)
          by (apply Z.land_neg; lia).
        lia.
      * intros (k & Hk & E). exfalso.
        destruct (Z_le_gt_dec k 31) as [Hk'|Hk'].
        -- assert (2 ^ k <= 2 ^ 31) by (apply Z.pow_le_mono_r; lia). lia.
        -- assert (2 ^ 32 <= 2 ^ k) by (apply Z.pow_le_mono_r; lia). lia.
Qed.

End Bits.

(** ** Arrays *)

Lemma length_resized (a : array) (n : nat) : length (resized a n) = n.
Proof.
  unfold resized. rewrite length_app, length_take, length_replicate. lia.
Qed.

Lemma length_slice (a : array) (from to : nat) :
  length (slice a from to) = Nat.min (to - from) (length a - from).
Proof. unfold slice. rewrite length_take, length_drop. reflexivity. Qed.

Lemma length_fill (a : array) (v : number) (start : nat) :
  start <= length a -> length (fill a v start) = length a.
Proof.
  intros H. unfold fill. rewrite length_app, length_take, length_replicate. lia.
Qed.

Lemma length_chunkAt (signal : array) (p : HFTNNProperties) (i : nat) :
  length (chunkAt signal p i) = dftSize p.
Proof.
  unfold chunkAt. rewrite length_fill; rewrite length_resized; [reflexivity|].
  rewrite length_slice. lia.
Qed.

Lemma length_complexZeros (size : nat) :
  length (complexZeros size) = size * 2.
Proof. unfold complexZeros. apply length_replicate. Qed.

Lemma length_fold_applyAt (w : CosineWindow) (l : list nat) (s : array) :
  length (fold_left (applyAt w) l s) = length s.
Proof.
  revert s. induction l as [|a l IH]; intros s; simpl; [reflexivity|].
  rewrite IH. unfold applyAt. apply length_insert.
Qed.

Lemma length_apply (w : CosineWindow) (s : array) : length (apply w s) = length s.
Proof. unfold apply. apply length_fold_applyAt. Qed.

Lemma lookup_fold_applyAt (w : CosineWindow) (n : nat) :
  forall (a : nat) (s : array) (i : nat),
    a + n <= length s ->
    fold_left (applyAt w) (seq a n) s !! i =
    if decide (a <= i < a + n) then Some (windowedSlot w s i) else s !! i.
Proof.
  induction n as [|n IH]; intros a s i Hlen; simpl.
  - destruct (decide (a <= i < a + 0)); [lia|reflexivity].
  - rewrite IH by (unfold applyAt; rewrite length_insert; lia).
    unfold windowedSlot, applyAt.
    destruct (decide (S a <= i < S a + n)) as [H1|H1].
    + rewrite list_lookup_insert_ne by lia.
      destruct (decide (a <= i < a + S n)); [reflexivity|lia].
    + destruct (decide (a <= i < a + S n)) as [H2|H2].
      * assert (i = a) by lia. subst i.
        rewrite list_lookup_insert_eq by lia. reflexivity.
      * rewrite list_lookup_insert_ne by lia. reflexivity.
Qed.

Lemma lookup_apply (w : CosineWindow) (s : array) (i : nat) :
  apply w s !! i =
  if decide (i < Nat.min (length s) (cw_length w))
  then Some (windowedSlot w s i) else s !! i.
Proof.
  unfold apply. rewrite lookup_fold_applyAt by lia.
  destruct (decide (0 <= i < 0 + Nat.min (length s) (cw_length w)));
    destruct (decide (i < Nat.min (length s) (cw_length w)));
    try reflexivity; lia.
Qed.

Lemma lookup_resized_pad (a : array) (n i : nat) :
  length a <= i < n -> resized a n !! i = Some None.
Proof.
  intros H. unfold resized.
  rewrite lookup_app_r by (rewrite length_take; lia).
  rewrite length_take. apply lookup_replicate_2. lia.
Qed.

Lemma lookup_resized_keep (a : array) (n i : nat) :
  i < length a -> i < n -> resized a n !! i = a !! i.
Proof.
  intros H1 H2. unfold resized.
  rewrite lookup_app_l by (rewrite length_take; lia).
  apply lookup_take_lt. exact H2.
Qed.

Lemma multipliers_newCosineWindow (n i : nat) :
  i < n ->
  multipliers (newCosineWindow n) !! i =
  Some (Math_sin (ndiv (Fin (PI * INR i)) (Fin (IZR (Z.of_nat n - 1))))).
Proof.
  intros H. unfold newCosineWindow. simpl.
  rewrite list_lookup_fmap, lookup_seq_lt by exact H. reflexivity.
Qed.

(** ** [hftnnForward]: the loops always push, and never throw *)

Lemma bind_Ok {A B : Type} (a : A) (k : A -> result B) : bind (Ok a) k = k a.
Proof. reflexivity. Qed.

Lemma pushBin_ok (T : array) (st : fwdState) (idx : Z) :
  exists st', pushBin T st idx = Ok st' /\
              length (fs_hft st') = S (length (fs_hft st)).
Proof.
  unfold pushBin, computeBinIfNecessary.
  destruct (bc_slots (fs_bins st) !! idx) as [bin|] eqn:E.
  - rewrite E. eexists. split; [reflexivity|].
    simpl. rewrite length_app. simpl. lia.
  - simpl. rewrite lookup_insert_eq. eexists. split; [reflexivity|].
    simpl. rewrite length_app. simpl. lia.
Qed.

Lemma pushZero_length (st : fwdState) :
  length (fs_hft (pushZero st)) = S (length (fs_hft st)).
Proof. unfold pushZero. simpl. rewrite length_app. simpl. lia. Qed.

Lemma lowLoop_ok (T : array) (b : Z) (k : nat) :
  forall st, exists st', lowLoop T b k st = Ok st' /\
                         length (fs_hft st') = length (fs_hft st) + k.
Proof.
  induction k as [|k IH]; intros st.
  - exists st. split; [reflexivity|lia].
  - cbn [lowLoop].
    destruct (b + - Z.of_nat (S k) <? 0)%Z.
    + rewrite bind_Ok. destruct (IH (pushZero st)) as (st' & E & L).
      exists st'. split; [exact E|]. rewrite L, pushZero_length. lia.
    + destruct (pushBin_ok T st (b + - Z.of_nat (S k))) as (st1 & E1 & L1).
      rewrite E1, bind_Ok. destruct (IH st1) as (st' & E & L).
      exists st'. split; [exact E|]. lia.
Qed.

Lemma highLoop_ok (T : array) (b : Z) (n : nat) :
  forall e st, exists st', highLoop T b n e st = Ok st' /\
                           length (fs_hft st') = length (fs_hft st) + n.
Proof.
  induction n as [|n IH]; intros e st.
  - exists st. split; [reflexivity|lia].
  - cbn [highLoop].
    destruct (bc_length (fs_bins st) <=? b + e)%Z.
    + rewrite bind_Ok. destruct (IH (e + 1)%Z (pushZero st)) as (st' & E & L).
      exists st'. split; [exact E|]. rewrite L, pushZero_length. lia.
    + destruct (pushBin_ok T st (b + e)) as (st1 & E1 & L1).
      rewrite E1, bind_Ok. destruct (IH (e + 1)%Z st1) as (st' & E & L).
      exists st'. split; [exact E|]. lia.
Qed.

Lemma intervalBody_ok (T : array) (p : HFTNNProperties) (len j : nat)
    (st : fwdState) :
  exists st', intervalBody T p len j st = Ok st' /\
              length (fs_hft st') = length (fs_hft st) + (2 * extraBins p + 1).
Proof.
  unfold intervalBody.
  destruct (lowLoop_ok T (intervalBin p len j) (extraBins p) st) as (st1 & E1 & L1).
  rewrite E1, bind_Ok.
  destruct (pushBin_ok T st1 (intervalBin p len j)) as (st2 & E2 & L2).
  rewrite E2, bind_Ok.
  destruct (highLoop_ok T (intervalBin p len j) (extraBins p) 1 st2)
    as (st3 & E3 & L3).
  exists st3. split; [exact E3|]. lia.
Qed.

Lemma freqLoop_ok (T : array) (p : HFTNNProperties) (len n : nat) :
  forall j st, exists st',
    freqLoop T p len n j st = Ok (j + n, st') /\
    length (fs_hft st') = length (fs_hft st) + n * (2 * extraBins p + 1).
Proof.
  induction n as [|n IH]; intros j st.
  - exists st. rewrite Nat.add_0_r. split; [reflexivity|lia].
  - cbn [freqLoop].
    destruct (intervalBody_ok T p len j st) as (st1 & E1 & L1).
    rewrite E1, bind_Ok. destruct (IH (S j) st1) as (st' & E & L).
    exists st'. replace (j + S n) with (S j + n) by lia.
    split; [exact E|]. lia.
Qed.

Lemma octLoop_ok (T : array) (p : HFTNNProperties) (len n : nat) :
  forall j st, exists st',
    octLoop T p len n j st = Ok (j + n * frequenciesInOctave p, st') /\
    length (fs_hft st') =
    length (fs_hft st) + n * frequenciesInOctave p * (2 * extraBins p + 1).
Proof.
  induction n as [|n IH]; intros j st.
  - exists st. rewrite Nat.add_0_r. split; [reflexivity|lia].
  - cbn [octLoop].
    destruct (freqLoop_ok T p len (frequenciesInOctave p) j st) as (st1 & E1 & L1).
    rewrite E1, bind_Ok. cbn [fst snd].
    destruct (IH (j + frequenciesInOctave p) st1) as (st' & E & L).
    exists st'.
    replace (j + S n * frequenciesInOctave p)
      with (j + frequenciesInOctave p + n * frequenciesInOctave p) by lia.
    split; [exact E|]. lia.
Qed.

Lemma spectrumOf_length (K : FFTKernel) (p : HFTNNProperties) (w : array) :
  FFTContract K -> length (spectrumOf K p w) = dftSize p * 2.
Proof.
  intros HK. unfold spectrumOf.
  rewrite (realTransform_length K HK). apply length_complexZeros.
Qed.

Lemma odd_double (n : nat) : Nat.odd (n * 2) = false.
Proof. rewrite Nat.odd_mul. simpl. apply andb_false_r. Qed.

(** With a valid [dftSize] both allocations succeed. *)
Lemma createComplexArray_ok (p : HFTNNProperties) :
  validDftSize p -> createComplexArray (dftSize p) = Ok (complexZeros (dftSize p)).
Proof.
  intros [_ Hlt]. unfold createComplexArray, isArrayLength.
  replace (0 <=? Z.of_nat (dftSize p * 2))%Z with true
    by (symmetry; apply Z.leb_le; lia).
  replace (Z.of_nat (dftSize p * 2) <? 2 ^ 32)%Z with true
    by (symmetry; apply Z.ltb_lt; lia).
  reflexivity.
Qed.

Lemma setLength_ok (a : array) (p : HFTNNProperties) :
  validDftSize p -> setLength a (dftSize p) = Ok (resized a (dftSize p)).
Proof.
  intros [_ Hlt]. unfold setLength, isArrayLength.
  replace (0 <=? Z.of_nat (dftSize p))%Z with true
    by (symmetry; apply Z.leb_le; lia).
  replace (Z.of_nat (dftSize p) <? 2 ^ 32)%Z with true
    by (symmetry; apply Z.ltb_lt; lia).
  reflexivity.
Qed.

Lemma validDftSize_props8 : validDftSize props8.
Proof. split; [reflexivity|]. cbn. lia. Qed.

Lemma validDftSize_propsSkip : validDftSize propsSkip.
Proof. split; [reflexivity|]. cbn. lia. Qed.

Lemma validDftSize_propsHigh : validDftSize propsHigh.
Proof. split; [reflexivity|]. cbn. lia. Qed.

Lemma construct_valid (K : FFTKernel) (p : HFTNNProperties) :
  FFTContract K -> validDftSize p -> fft_construct K (dftSize p) = true.
Proof. intros HK [Hpow Hlt]. exact (construct_ok K HK _ Hpow Hlt). Qed.

(** [hftnnForward] past its validation and its allocations. *)
Lemma hftnnForward_valid (K : FFTKernel) (sig : array) (p : HFTNNProperties)
    (fw : option CosineWindow) :
  FFTContract K ->
  isPowerOfTwo (Z.of_nat (length sig)) = true ->
  validDftSize p ->
  hftnnForward K (Some sig) (Some p) fw =
    (Some (apply (chooseWindow fw (length sig)) sig),
     if Nat.odd (length (spectrumOf K p (apply (chooseWindow fw (length sig)) sig)))
     then Throw RangeError
     else
       let* js := octLoop (spectrumOf K p (apply (chooseWindow fw (length sig)) sig))
                    p (length sig) (octaveRange p) 0
                    {| fs_bins :=
                         newBins
                           (Z.of_nat
                              (length (spectrumOf K p
                                         (apply (chooseWindow fw (length sig)) sig)))
                            / 2);
                       fs_hft := [] |} in
       Ok (fs_hft (snd js))).
Proof.
  intros HK Hsig Hdft. unfold hftnnForward.
  rewrite Hsig. cbn [negb].
  rewrite (construct_valid K p HK Hdft). cbn [negb].
  rewrite (createComplexArray_ok p Hdft). reflexivity.
Qed.

(** On a signal of accepted length and a [dftSize] the kernel has a plan
    for, [hftnnForward] windows the signal in place and returns a frame of
    [frameLength p] entries. *)
Lemma hftnnForward_ok (K : FFTKernel) (sig : array) (p : HFTNNProperties)
    (fw : option CosineWindow) :
  FFTContract K ->
  isPowerOfTwo (Z.of_nat (length sig)) = true ->
  validDftSize p ->
  exists hft,
    hftnnForward K (Some sig) (Some p) fw =
      (Some (apply (chooseWindow fw (length sig)) sig), Ok hft) /\
    length hft = frameLength p.
Proof.
  intros HK Hsig Hdft. rewrite (hftnnForward_valid K sig p fw HK Hsig Hdft).
  rewrite spectrumOf_length by exact HK. rewrite odd_double.
  set (T := spectrumOf K p _). set (st0 := {| fs_bins := _; fs_hft := [] |}).
  destruct (octLoop_ok T p (length sig) (octaveRange p) 0 st0) as (st' & E & L).
  rewrite E, bind_Ok. cbn [snd]. exists (fs_hft st'). split; [reflexivity|].
  rewrite L. unfold frameLength. simpl. lia.
Qed.

(** Whatever the kernel and the arguments, the only exceptions
    [hftnnForward] raises after its validation are the kernel's and the
    [RangeError] of an allocation: the transform buffer when [dftSize * 2]
    is no array length, or [bins] on an odd-length spectrum. *)
Lemma hftnnForward_after_validation (K : FFTKernel) (sig : array)
    (p : HFTNNProperties) (fw : option CosineWindow) :
  isPowerOfTwo (Z.of_nat (length sig)) = true ->
  (exists hft, snd (hftnnForward K (Some sig) (Some p) fw) = Ok hft) \/
  snd (hftnnForward K (Some sig) (Some p) fw) = Throw KernelError \/
  snd (hftnnForward K (Some sig) (Some p) fw) = Throw RangeError.
Proof.
  intros Hsig. unfold hftnnForward. rewrite Hsig. cbn [negb].
  destruct (fft_construct K (dftSize p)); cbn [negb snd]; [|right; left; reflexivity].
  unfold createComplexArray.
  destruct (isArrayLength _); cbn [snd]; [|right; right; reflexivity].
  destruct (Nat.odd _); [right; right; reflexivity|].
  left.
  match goal with
  | |- context [octLoop ?T p ?len ?n 0 ?st0] =>
      destruct (octLoop_ok T p len n 0 st0) as (st' & E & _); rewrite E
  end.
  rewrite bind_Ok. eexists. reflexivity.
Qed.

(** ** Validation of [hftnnForward] *)

(** C6. [hftnnForward] raises one of the library's own input errors exactly
    when the signal is absent, or its length is not a power of two greater
    than 1, or the properties are absent; when none of the three holds no
    such error is raised. *)
Theorem hftnnForward_InvalidInput_iff (K : FFTKernel) (signal : option array)
    (properties : option HFTNNProperties) (fw : option CosineWindow) :
  (forall s, signal = Some s -> (Z.of_nat (length s) < 2 ^ 32)%Z) ->
  (exists why,
      snd (hftnnForward K signal properties fw) = Throw (InvalidInput why)) <->
  (signal = None \/
   (exists s, signal = Some s /\ ~ powerOfTwoAbove1 (Z.of_nat (length s))) \/
   properties = None).
Proof.
  intros Hlen. destruct signal as [s|].
  2:{ split; [intros _; left; reflexivity|].
      intros _. exists NoSignal. reflexivity. }
  assert (Hspec := isPowerOfTwo_spec (Z.of_nat (length s))
                     (conj (Nat2Z.is_nonneg _) (Hlen s eq_refl))).
  destruct (isPowerOfTwo (Z.of_nat (length s))) eqn:Hpow.
  - destruct properties as [p|].
    + split.
      * intros (why & E). exfalso.
        destruct (hftnnForward_after_validation K s p fw Hpow)
          as [(hft & E')|[E'|E']]; rewrite E' in E; discriminate E.
      * intros [H|[(s' & H & Hn)|H]]; try discriminate H.
        injection H as <-. exfalso. apply Hn. apply Hspec. reflexivity.
    + split; [intros _; right; right; reflexivity|].
      intros _. exists NoProperties. unfold hftnnForward. rewrite Hpow.
      reflexivity.
  - split.
    + intros _. right; left. exists s. split; [reflexivity|].
      intros H. apply Hspec in H. discriminate H.
    + intros _. exists BadLength. unfold hftnnForward. rewrite Hpow.
      reflexivity.
Qed.

Lemma hftnnForward_InvalidInput_iff_witness :
  (exists why,
      snd (hftnnForward dftKernel (Some (ones 3)) (Some props8) None)
      = Throw (InvalidInput why)) <->
  (Some (ones 3) = None \/
   (exists s, Some (ones 3) = Some s /\
              ~ powerOfTwoAbove1 (Z.of_nat (length s))) \/
   Some props8 = None).
Proof.
  apply (hftnnForward_InvalidInput_iff dftKernel (Some (ones 3)) (Some props8) None).
  intros s E. injection E as <-. simpl. lia.
Defined.

(** ** The bin mapper *)

(** On exact numbers [intervalToFreq] never decreases with the interval. *)
Lemma intervalToFreq_mono (x1 x2 fundamental intervalsInOctave : R) :
  (0 < fundamental)%R -> (0 < intervalsInOctave)%R -> (x1 <= x2)%R ->
  (intervalToFreq x1 fundamental intervalsInOctave
   <= intervalToFreq x2 fundamental intervalsInOctave)%R.
Proof.
  intros Hf Hn Hx. unfold intervalToFreq.
  apply Rmult_le_compat_l; [lra|].
  apply Rle_Rpower; [lra|].
  unfold Rdiv. apply Rmult_le_compat_r; [|exact Hx].
  apply Rlt_le, Rinv_0_lt_compat. exact Hn.
Qed.

(** With valid properties the bin of an interval never decreases along the
    intervals. *)
Lemma intervalBin_mono (p : HFTNNProperties) (len i j : nat) :
  validFrequencies p -> i <= j -> (intervalBin p len i <= intervalBin p len j)%Z.
Proof.
  intros (Hsr & Hf & Hn) Hij. unfold intervalBin, freqToFftBin.
  apply Math_round_mono.
  assert (HN : (0 < INR (frequenciesInOctave p))%R) by (apply lt_0_INR; exact Hn).
  assert (Hm := intervalToFreq_mono (INR i) (INR j) (fundamental p)
                  (INR (frequenciesInOctave p)) Hf HN (le_INR _ _ Hij)).
  assert (Hlen : (0 <= INR len)%R) by apply pos_INR.
  unfold Rdiv. apply Rmult_le_compat_r.
  - apply Rlt_le, Rinv_0_lt_compat. exact Hsr.
  - apply Rmult_le_compat_r; [exact Hlen|exact Hm].
Qed.

(** ** [hftnnForward]: what each position of the frame holds *)


Lemma pushBin_spec (T : array) (st : fwdState) (idx : Z) :
  coherent T (fs_bins st) ->
  exists st',
    pushBin T st idx = Ok st' /\
    fs_hft st' = fs_hft st ++ [polarAt T idx] /\
    coherent T (fs_bins st') /\
    (bc_length (fs_bins st) <= bc_length (fs_bins st')
     <= Z.max (bc_length (fs_bins st)) (idx + 1))%Z /\
    ((idx < bc_length (fs_bins st))%Z ->
     bc_length (fs_bins st') = bc_length (fs_bins st)).
Proof.
  intros Hc. unfold pushBin, computeBinIfNecessary.
  destruct (bc_slots (fs_bins st) !! idx) as [bin|] eqn:E.
  - rewrite E. eexists. split; [reflexivity|]. cbn [fs_hft fs_bins].
    rewrite (Hc idx bin E). conjs.
  - unfold binsSet. cbn [bc_slots]. rewrite lookup_insert_eq.
    eexists. split; [reflexivity|]. cbn [fs_hft fs_bins bc_length bc_slots].
    split; [reflexivity|]. split.
    + intros k v. cbn [bc_slots]. rewrite lookup_insert.
      destruct (decide (idx = k)) as [->|Hne].
      * intros [= <-]. reflexivity.
      * apply Hc.
    + destruct (isArrayIndex idx); destruct (bc_length (fs_bins st) <=? idx)%Z eqn:E1;
        cbn [andb]; split; try lia.
Qed.

Lemma lowLoop_spec (T : array) (b : Z) (k : nat) :
  forall st,
    coherent T (fs_bins st) ->
    exists st',
      lowLoop T b k st = Ok st' /\
      fs_hft st' = fs_hft st ++ map (lowEntry T) (lowBins b k) /\
      coherent T (fs_bins st') /\
      (bc_length (fs_bins st) <= bc_length (fs_bins st')
       <= Z.max (bc_length (fs_bins st)) b)%Z.
Proof.
  induction k as [|k IH]; intros st Hc.
  - exists st. cbn. rewrite app_nil_r. conjs.
  - cbn [lowLoop lowBins map].
    assert (He : lowEntry T (b + - Z.of_nat (S k)) =
                 if (b + - Z.of_nat (S k) <? 0)%Z then (Fin 0, Fin 0)
                 else polarAt T (b + - Z.of_nat (S k))) by reflexivity.
    rewrite He. clear He.
    destruct (b + - Z.of_nat (S k) <? 0)%Z.
    + rewrite bind_Ok. destruct (IH (pushZero st) Hc) as (st' & E & Hh & Hc' & HL).
      exists st'. split; [exact E|]. cbn [pushZero fs_hft fs_bins] in *.
      rewrite Hh, <- app_assoc. conjs.
    + destruct (pushBin_spec T st (b + - Z.of_nat (S k)) Hc)
        as (st1 & E1 & Hh1 & Hc1 & HL1 & _).
      rewrite E1, bind_Ok. destruct (IH st1 Hc1) as (st' & E & Hh & Hc' & HL).
      exists st'. split; [exact E|].
      rewrite Hh, Hh1, <- app_assoc. conjs.
Qed.

Lemma highLoop_spec (T : array) (b : Z) (n : nat) :
  forall e st,
    coherent T (fs_bins st) ->
    exists st',
      highLoop T b n e st = Ok st' /\
      fs_hft st' =
        fs_hft st ++ map (highEntry (bc_length (fs_bins st)) T) (highBins b n e) /\
      coherent T (fs_bins st') /\
      bc_length (fs_bins st') = bc_length (fs_bins st).
Proof.
  induction n as [|n IH]; intros e st Hc.
  - exists st. cbn. rewrite app_nil_r. conjs.
  - cbn [highLoop highBins map].
    assert (He : highEntry (bc_length (fs_bins st)) T (b + e) =
                 if (bc_length (fs_bins st) <=? b + e)%Z then (Fin 0, Fin 0)
                 else polarAt T (b + e)) by reflexivity.
    rewrite He. clear He.
    destruct (bc_length (fs_bins st) <=? b + e)%Z eqn:E0.
    + rewrite bind_Ok.
      destruct (IH (e + 1)%Z (pushZero st) Hc) as (st' & E & Hh & Hc' & HL).
      exists st'. split; [exact E|]. cbn [pushZero fs_hft fs_bins] in *.
      rewrite Hh, <- app_assoc. conjs.
    + apply Z.leb_gt in E0.
      destruct (pushBin_spec T st (b + e) Hc) as (st1 & E1 & Hh1 & Hc1 & _ & HL1).
      specialize (HL1 E0).
      rewrite E1, bind_Ok.
      destruct (IH (e + 1)%Z st1 Hc1) as (st' & E & Hh & Hc' & HL).
      exists st'. split; [exact E|].
      rewrite Hh, Hh1, HL1, <- app_assoc. conjs.
Qed.

Lemma highBins_ge (b : Z) (n : nat) :
  forall e idx, In idx (highBins b n e) -> (b + e <= idx)%Z.
Proof.
  induction n as [|n IH]; intros e idx; cbn [highBins In]; [tauto|].
  intros [<-|H]; [lia|]. apply IH in H. lia.
Qed.

(** Past the centre bin the moving [length] of [bins] and its initial value
    [D] separate the same indices. *)
Lemma highEntry_length (D L : Z) (T : array) (b : Z) (n : nat) :
  (D <= L <= Z.max D (b + 1))%Z ->
  map (highEntry L T) (highBins b n 1) = map (highEntry D T) (highBins b n 1).
Proof.
  intros HL. apply map_ext_in. intros idx Hin.
  apply highBins_ge in Hin. unfold highEntry.
  destruct (L <=? idx)%Z eqn:E1; destruct (D <=? idx)%Z eqn:E2;
    try reflexivity.
  - apply Z.leb_le in E1. apply Z.leb_gt in E2. lia.
  - apply Z.leb_gt in E1. apply Z.leb_le in E2. lia.
Qed.

Lemma intervalBody_spec (D : Z) (T : array) (p : HFTNNProperties)
    (len j : nat) (st : fwdState) :
  coherent T (fs_bins st) ->
  (D <= bc_length (fs_bins st) <= Z.max D (intervalBin p len j + 1))%Z ->
  exists st',
    intervalBody T p len j st = Ok st' /\
    fs_hft st' = fs_hft st ++ intervalEntries D T p len j /\
    coherent T (fs_bins st') /\
    (D <= bc_length (fs_bins st') <= Z.max D (intervalBin p len j + 1))%Z.
Proof.
  intros Hc HL. unfold intervalBody, intervalEntries.
  set (b := intervalBin p len j) in *.
  destruct (lowLoop_spec T b (extraBins p) st Hc) as (st1 & E1 & Hh1 & Hc1 & HL1).
  rewrite E1, bind_Ok.
  destruct (pushBin_spec T st1 b Hc1) as (st2 & E2 & Hh2 & Hc2 & HL2 & _).
  rewrite E2, bind_Ok.
  destruct (highLoop_spec T b (extraBins p) 1 st2 Hc2) as (st3 & E3 & Hh3 & Hc3 & HL3).
  exists st3. split; [exact E3|].
  assert (HL2' : (D <= bc_length (fs_bins st2) <= Z.max D (b + 1))%Z) by lia.
  rewrite Hh3, Hh2, Hh1, (highEntry_length D _ T b _ HL2'), <- !app_assoc.
  conjs.
Qed.

Lemma freqLoop_spec (D : Z) (T : array) (p : HFTNNProperties) (len n : nat) :
  (forall i i', i <= i' -> (intervalBin p len i <= intervalBin p len i')%Z) ->
  forall j st,
    coherent T (fs_bins st) ->
    (D <= bc_length (fs_bins st) <= Z.max D (intervalBin p len j + 1))%Z ->
    exists st',
      freqLoop T p len n j st = Ok (j + n, st') /\
      fs_hft st' =
        fs_hft st ++ concat (map (intervalEntries D T p len) (seq j n)) /\
      coherent T (fs_bins st') /\
      (D <= bc_length (fs_bins st') <= Z.max D (intervalBin p len (j + n) + 1))%Z.
Proof.
  intros Hmono. induction n as [|n IH]; intros j st Hc HL.
  - exists st. cbn. rewrite app_nil_r, Nat.add_0_r.
    conjs.
  - cbn [freqLoop seq map concat].
    destruct (intervalBody_spec D T p len j st Hc HL) as (st1 & E1 & Hh1 & Hc1 & HL1).
    rewrite E1, bind_Ok.
    assert (Hstep := Hmono j (S j) (Nat.le_succ_diag_r j)).
    destruct (IH (S j) st1 Hc1 ltac:(lia)) as (st' & E & Hh & Hc' & HL').
    exists st'. replace (j + S n) with (S j + n) by lia.
    split; [exact E|]. rewrite Hh, Hh1, <- app_assoc.
    conjs.
Qed.

Lemma octLoop_spec (D : Z) (T : array) (p : HFTNNProperties) (len n : nat) :
  (forall i i', i <= i' -> (intervalBin p len i <= intervalBin p len i')%Z) ->
  forall j st,
    coherent T (fs_bins st) ->
    (D <= bc_length (fs_bins st) <= Z.max D (intervalBin p len j + 1))%Z ->
    exists st',
      octLoop T p len n j st = Ok (j + n * frequenciesInOctave p, st') /\
      fs_hft st' =
        fs_hft st
        ++ concat (map (intervalEntries D T p len)
                       (seq j (n * frequenciesInOctave p))) /\
      coherent T (fs_bins st') /\
      (D <= bc_length (fs_bins st')
       <= Z.max D (intervalBin p len (j + n * frequenciesInOctave p) + 1))%Z.
Proof.
  intros Hmono. induction n as [|n IH]; intros j st Hc HL.
  - exists st. cbn. rewrite app_nil_r, Nat.add_0_r.
    conjs.
  - cbn [octLoop].
    destruct (freqLoop_spec D T p len (frequenciesInOctave p) Hmono j st Hc HL)
      as (st1 & E1 & Hh1 & Hc1 & HL1).
    rewrite E1, bind_Ok. cbn [fst snd].
    destruct (IH (j + frequenciesInOctave p) st1 Hc1 HL1)
      as (st' & E & Hh & Hc' & HL').
    exists st'.
    replace (j + S n * frequenciesInOctave p)
      with (j + frequenciesInOctave p + n * frequenciesInOctave p) by lia.
    split; [exact E|].
    replace (S n * frequenciesInOctave p)
      with (frequenciesInOctave p + n * frequenciesInOctave p) by lia.
    rewrite seq_app, map_app, concat_app, Hh, Hh1, <- app_assoc.
    conjs.
Qed.

(** ** The reference kernel meets the contract *)

Lemma arrayGet_of_nat (a : array) (i : nat) (x : number) :
  a !! i = Some (Some x) -> arrayGet a (Z.of_nat i) = x.
Proof.
  intros H. unfold arrayGet.
  destruct (Z.of_nat i <? 0)%Z eqn:E; [apply Z.ltb_lt in E; lia|].
  rewrite Nat2Z.id, H. reflexivity.
Qed.

Lemma fold_nadd_zero (f : nat -> number) (n : nat) :
  forall a,
    (forall t, a <= t < a + n -> f t = Fin 0) ->
    fold_left (fun acc t => nadd acc (f t)) (seq a n) (Fin 0) = Fin 0.
Proof.
  induction n as [|n IH]; intros a Hf; [reflexivity|].
  cbn [seq fold_left]. rewrite (Hf a) by lia.
  replace (nadd (Fin 0) (Fin 0)) with (Fin 0)
    by (simpl; f_equal; symmetry; apply Rplus_0_l).
  apply IH. intros t Ht. apply Hf. lia.
Qed.

Lemma sumN_zero (f : nat -> number) (n : nat) :
  (forall t, t < n -> f t = Fin 0) -> sumN f n = Fin 0.
Proof.
  intros Hf. unfold sumN. apply fold_nadd_zero. intros t Ht. apply Hf. lia.
Qed.

Lemma ndiv_zero (n : nat) : 0 < n -> ndiv (Fin 0) (Fin (INR n)) = Fin 0.
Proof.
  intros Hn. unfold ndiv.
  destruct (Req_dec_T (INR n) 0) as [E|_].
  - apply lt_0_INR in Hn. lra.
  - f_equal. unfold Rdiv. apply Rmult_0_l.
Qed.

Lemma idftBin_zero (size : nat) (data : array) (k : nat) :
  0 < size ->
  (forall i : nat, i < 2 * size -> data !! i = Some (Some (Fin 0))) ->
  idftBin size data k = (Fin 0, Fin 0).
Proof.
  intros Hsize Hdata. unfold idftBin.
  rewrite !sumN_zero; [rewrite ndiv_zero by exact Hsize; reflexivity| |].
  - intros t Ht.
    rewrite (arrayGet_of_nat data (2 * t) (Fin 0)) by (apply Hdata; lia).
    rewrite (arrayGet_of_nat data (2 * t + 1) (Fin 0)) by (apply Hdata; lia).
    simpl. f_equal. ring.
  - intros t Ht.
    rewrite (arrayGet_of_nat data (2 * t) (Fin 0)) by (apply Hdata; lia).
    rewrite (arrayGet_of_nat data (2 * t + 1) (Fin 0)) by (apply Hdata; lia).
    simpl. f_equal. ring.
Qed.

Lemma length_writeInterleaved (size : nat) (bin : nat -> number * number)
    (out : array) :
  length (writeInterleaved size bin out) = length out.
Proof. unfold writeInterleaved. apply length_imap. Qed.

Lemma dftKernel_contract : FFTContract dftKernel.
Proof.
  constructor.
  - intros size H _. exact H.
  - intros size out data. apply length_writeInterleaved.
  - intros size out data. apply length_writeInterleaved.
  - intros size data Hdata. cbn [dftKernel fft_inverseTransform].
    apply list_eq. intros i. unfold writeInterleaved, complexZeros.
    rewrite list_lookup_imap.
    destruct (decide (i < size * 2)) as [Hi|Hi].
    + rewrite lookup_replicate_2 by exact Hi. cbn [fmap option_fmap option_map].
      destruct (i <? 2 * size) eqn:E; [|apply Nat.ltb_ge in E; lia].
      rewrite idftBin_zero by (first [lia | exact Hdata]).
      destruct (Nat.even i); reflexivity.
    + rewrite (proj1 (lookup_replicate_None (size * 2) (Some (Fin 0%R)) i)) by lia.
      reflexivity.
Qed.

(** ** The frame of [hftnnForward], position by position *)

Lemma coherent_newBins (T : array) (n : Z) : coherent T (newBins n).
Proof. intros k v H. cbn in H. rewrite lookup_empty in H. discriminate H. Qed.

(** With valid properties the returned frame is the concatenation, over the
    harmonic intervals in increasing order, of the entries of each interval;
    the cache and the moving [length] of [bins] do not show. *)
Lemma hftnnForward_spec (K : FFTKernel) (sig : array) (p : HFTNNProperties)
    (fw : option CosineWindow) :
  FFTContract K ->
  isPowerOfTwo (Z.of_nat (length sig)) = true ->
  validDftSize p ->
  validFrequencies p ->
  let windowed := apply (chooseWindow fw (length sig)) sig in
  hftnnForward K (Some sig) (Some p) fw =
    (Some windowed,
     Ok (concat (map (intervalEntries (Z.of_nat (dftSize p))
                        (spectrumOf K p windowed) p (length sig))
                     (seq 0 (octaveRange p * frequenciesInOctave p))))).
Proof.
  intros HK Hsig Hdft Hvalid windowed.
  rewrite (hftnnForward_valid K sig p fw HK Hsig Hdft).
  fold windowed.
  rewrite spectrumOf_length by exact HK. rewrite odd_double.
  replace (Z.of_nat (dftSize p * 2) / 2)%Z with (Z.of_nat (dftSize p))
    by (rewrite Nat2Z.inj_mul; symmetry; apply Z.div_mul; lia).
  set (T := spectrumOf K p windowed). set (D := Z.of_nat (dftSize p)).
  destruct (octLoop_spec D T p (length sig) (octaveRange p)
              (fun i i' => intervalBin_mono p (length sig) i i' Hvalid)
              0 {| fs_bins := newBins D; fs_hft := [] |}
              (coherent_newBins T D))
    as (st' & E & Hh & _ & _).
  { cbn. lia. }
  rewrite E, bind_Ok. cbn [snd]. rewrite Hh. reflexivity.
Qed.

Lemma length_lowBins (b : Z) (k : nat) : length (lowBins b k) = k.
Proof. induction k as [|k IH]; cbn [lowBins length]; [reflexivity|]. rewrite IH. reflexivity. Qed.

Lemma length_highBins (b : Z) (n : nat) : forall e, length (highBins b n e) = n.
Proof.
  induction n as [|n IH]; intros e; cbn [highBins length]; [reflexivity|].
  rewrite IH. reflexivity.
Qed.

Lemma lookup_lowBins (b : Z) (k : nat) :
  forall m, m < k -> lowBins b k !! m = Some (b - Z.of_nat k + Z.of_nat m)%Z.
Proof.
  induction k as [|k IH]; intros m Hm; [lia|].
  cbn [lowBins]. destruct m as [|m].
  - cbn. f_equal. lia.
  - rewrite lookup_cons_ne_0 by lia. cbn [Nat.pred].
    rewrite IH by lia. f_equal. lia.
Qed.

Lemma lookup_highBins (b : Z) (n : nat) :
  forall e m, m < n -> highBins b n e !! m = Some (b + e + Z.of_nat m)%Z.
Proof.
  induction n as [|n IH]; intros e m Hm; [lia|].
  cbn [highBins]. destruct m as [|m].
  - cbn. f_equal. lia.
  - rewrite lookup_cons_ne_0 by lia. cbn [Nat.pred].
    rewrite IH by lia. f_equal. lia.
Qed.

Lemma length_intervalEntries (D : Z) (T : array) (p : HFTNNProperties)
    (len j : nat) :
  length (intervalEntries D T p len j) = 2 * extraBins p + 1.
Proof.
  unfold intervalEntries.
  rewrite !length_app, !length_map, length_lowBins, length_highBins.
  cbn [length]. lia.
Qed.

(** Entry [k] of the block of interval [j]. *)
Lemma lookup_intervalEntries (D : Z) (T : array) (p : HFTNNProperties)
    (len j k : nat) :
  k < 2 * extraBins p + 1 ->
  let idx := (intervalBin p len j + Z.of_nat k - Z.of_nat (extraBins p))%Z in
  intervalEntries D T p len j !! k =
  Some (if k <? extraBins p then lowEntry T idx
        else if k =? extraBins p then polarAt T idx
        else highEntry D T idx).
Proof.
  intros Hk idx. unfold intervalEntries.
  set (b := intervalBin p len j) in *.
  destruct (k <? extraBins p) eqn:E1.
  - apply Nat.ltb_lt in E1.
    rewrite lookup_app_l by (rewrite length_map, length_lowBins; exact E1).
    rewrite list_lookup_fmap, lookup_lowBins by exact E1. cbn.
    do 2 f_equal. unfold idx. lia.
  - apply Nat.ltb_ge in E1.
    rewrite lookup_app_r by (rewrite length_map, length_lowBins; exact E1).
    rewrite length_map, length_lowBins.
    destruct (k =? extraBins p) eqn:E2.
    + apply Nat.eqb_eq in E2. subst k. rewrite Nat.sub_diag. cbn.
      do 2 f_equal. unfold idx. lia.
    + apply Nat.eqb_neq in E2.
      destruct (k - extraBins p) as [|m] eqn:E3; [lia|].
      cbn [app]. rewrite lookup_cons_ne_0 by lia. cbn [Nat.pred].
      rewrite list_lookup_fmap, lookup_highBins by lia. cbn.
      do 2 f_equal. unfold idx. lia.
Qed.

(** Position [j * w + k] of a concatenation of blocks of [w] entries is
    position [k] of block [j]. *)
Lemma lookup_concat_blocks {A : Type} (f : nat -> list A) (w : nat) :
  (forall x, length (f x) = w) ->
  forall n a j k,
    j < n -> k < w ->
    concat (map f (seq a n)) !! (j * w + k) = f (a + j) !! k.
Proof.
  intros Hw. induction n as [|n IH]; intros a j k Hj Hk; [lia|].
  cbn [seq map concat]. destruct j as [|j].
  - rewrite lookup_app_l by (rewrite Hw; lia).
    rewrite Nat.add_0_r. reflexivity.
  - rewrite lookup_app_r by (rewrite Hw; lia).
    rewrite Hw. replace (S j * w + k - w) with (j * w + k) by lia.
    rewrite IH by lia. f_equal. f_equal. lia.
Qed.

Lemma hftnnForward_lookup (K : FFTKernel) (sig : array) (p : HFTNNProperties)
    (fw : option CosineWindow) :
  FFTContract K ->
  isPowerOfTwo (Z.of_nat (length sig)) = true ->
  validDftSize p ->
  validFrequencies p ->
  let T := spectrumOf K p (apply (chooseWindow fw (length sig)) sig) in
  let D := Z.of_nat (dftSize p) in
  exists hft,
    snd (hftnnForward K (Some sig) (Some p) fw) = Ok hft /\
    forall j k,
      j < octaveRange p * frequenciesInOctave p ->
      k < 2 * extraBins p + 1 ->
      let idx := (intervalBin p (length sig) j
                  + Z.of_nat k - Z.of_nat (extraBins p))%Z in
      hft !! (j * (2 * extraBins p + 1) + k) =
      Some (if k <? extraBins p then lowEntry T idx
            else if k =? extraBins p then polarAt T idx
            else highEntry D T idx).
Proof.
  intros HK Hsig Hdft Hvalid T D.
  rewrite (hftnnForward_spec K sig p fw HK Hsig Hdft Hvalid). cbn [snd].
  eexists. split; [reflexivity|]. intros j k Hj Hk.
  rewrite (lookup_concat_blocks _ (2 * extraBins p + 1)
             (fun x => length_intervalEntries _ _ _ _ x)) by lia.
  cbn [Nat.add]. apply lookup_intervalEntries. exact Hk.
Qed.

(** X25. The two range checks of [hftnnForward].  On an accepted signal and
    valid properties [hftnnForward] raises nothing, and in the frame it
    returns the entry of a low neighbour whose bin index is negative, and
    the entry of a high neighbour whose bin index is at or past [dftSize]
    (the length of [bins], one slot per complex bin of the transform), is
    [(0, 0)] whatever the spectrum holds; a neighbour whose index lies in
    [[0, dftSize)] is the polar form of the spectrum at that index. *)
Theorem hftnnForward_neighbours_out_of_range (K : FFTKernel) (sig : array)
    (p : HFTNNProperties) (fw : option CosineWindow) :
  FFTContract K ->
  isPowerOfTwo (Z.of_nat (length sig)) = true ->
  validDftSize p ->
  validFrequencies p ->
  exists hft,
    snd (hftnnForward K (Some sig) (Some p) fw) = Ok hft /\
    forall j k,
      j < octaveRange p * frequenciesInOctave p ->
      k < 2 * extraBins p + 1 ->
      let idx := (intervalBin p (length sig) j
                  + Z.of_nat k - Z.of_nat (extraBins p))%Z in
      let pos := j * (2 * extraBins p + 1) + k in
      ((k < extraBins p /\ (idx < 0)%Z) \/
       (extraBins p < k /\ (Z.of_nat (dftSize p) <= idx)%Z) ->
       hft !! pos = Some (Fin 0, Fin 0)) /\
      (k <> extraBins p -> (0 <= idx < Z.of_nat (dftSize p))%Z ->
       hft !! pos =
       Some (polarAt (spectrumOf K p (apply (chooseWindow fw (length sig)) sig))
                     idx)).
Proof.
  intros HK Hsig Hdft Hvalid.
  destruct (hftnnForward_lookup K sig p fw HK Hsig Hdft Hvalid) as (hft & E & Hpos).
  exists hft. split; [exact E|]. intros j k Hj Hk idx pos.
  specialize (Hpos j k Hj Hk). cbn zeta in Hpos. fold idx pos in Hpos.
  rewrite Hpos. unfold lowEntry, highEntry. split.
  - intros [[H1 H2]|[H1 H2]].
    + apply Nat.ltb_lt in H1. rewrite H1.
      apply Z.ltb_lt in H2. rewrite H2. reflexivity.
    + destruct (k <? extraBins p) eqn:E1; [apply Nat.ltb_lt in E1; lia|].
      destruct (k =? extraBins p) eqn:E2; [apply Nat.eqb_eq in E2; lia|].
      apply Z.leb_le in H2. rewrite H2. reflexivity.
  - intros Hne [H1 H2].
    destruct (k =? extraBins p) eqn:E2; [apply Nat.eqb_eq in E2; lia|].
    destruct (idx <? 0)%Z eqn:E3; [apply Z.ltb_lt in E3; lia|].
    destruct (Z.of_nat (dftSize p) <=? idx)%Z eqn:E4; [apply Z.leb_le in E4; lia|].
    destruct (k <? extraBins p); reflexivity.
Qed.

Lemma validFrequencies_propsSkip : validFrequencies propsSkip.
Proof. unfold validFrequencies, propsSkip. cbn. repeat split; try lra; lia. Qed.

Lemma hftnnForward_neighbours_out_of_range_witness :
  exists hft,
    snd (hftnnForward dftKernel (Some (silence 8)) (Some propsSkip) None) = Ok hft /\
    forall j k,
      j < octaveRange propsSkip * frequenciesInOctave propsSkip ->
      k < 2 * extraBins propsSkip + 1 ->
      let idx := (intervalBin propsSkip (length (silence 8)) j
                  + Z.of_nat k - Z.of_nat (extraBins propsSkip))%Z in
      let pos := j * (2 * extraBins propsSkip + 1) + k in
      ((k < extraBins propsSkip /\ (idx < 0)%Z) \/
       (extraBins propsSkip < k /\ (Z.of_nat (dftSize propsSkip) <= idx)%Z) ->
       hft !! pos = Some (Fin 0, Fin 0)) /\
      (k <> extraBins propsSkip -> (0 <= idx < Z.of_nat (dftSize propsSkip))%Z ->
       hft !! pos =
       Some (polarAt (spectrumOf dftKernel propsSkip
                        (apply (chooseWindow None (length (silence 8))) (silence 8)))
                     idx)).
Proof.
  apply (hftnnForward_neighbours_out_of_range dftKernel (silence 8) propsSkip None).
  - exact dftKernel_contract.
  - reflexivity.
  - exact validDftSize_propsSkip.
  - exact validFrequencies_propsSkip.
Defined.

Lemma arrayGet_past_end (a : array) (idx : Z) :
  (Z.of_nat (length a) <= idx)%Z -> arrayGet a idx = NaN.
Proof.
  intros H. unfold arrayGet.
  destruct (idx <? 0)%Z; [reflexivity|].
  rewrite lookup_ge_None_2 by lia. reflexivity.
Qed.

Lemma polarAt_past_end (T : array) (idx : Z) :
  (Z.of_nat (length T) <= idx * 2)%Z -> polarAt T idx = (NaN, NaN).
Proof.
  intros H. unfold polarAt.
  rewrite (arrayGet_past_end T (idx * 2)) by exact H.
  apply fftBinToMagnitudePhase_NaN.
Qed.

Lemma validFrequencies_propsHigh : validFrequencies propsHigh.
Proof. unfold validFrequencies, propsHigh. cbn. repeat split; try lra; lia. Qed.

Lemma intervalBin_propsHigh : intervalBin propsHigh 8 0 = 9%Z.
Proof.
  unfold intervalBin, freqToFftBin, intervalToFreq, propsHigh.
  cbn [fundamental sampleRate frequenciesInOctave].
  replace (INR 0 / INR 1)%R with 0%R by (simpl; field).
  rewrite Rpower_O by lra.
  replace (9000 * 1 * INR 8 / 8000)%R with (IZR 9)
    by (rewrite INR_IZR_INZ; simpl; field).
  apply Math_round_IZR.
Qed.

(** C2.  An emitted bin outside the range is not always [(0, 0)]: the code
    checks a low neighbour against 0 only, a high neighbour against
    [bins.length] only, and the centre bin not at all.  With [dftSize = 8],
    a fundamental of 9000 Hz at 8000 Hz and one extra bin, the only interval
    has its centre at bin 9 and its neighbours at bins 8 and 10, all past
    the spectrum.  The low neighbour and the centre are read past its end
    and come out as [(NaN, NaN)]; only the high neighbour is [(0, 0)]. *)
Lemma hftnnForward_out_of_range_not_zero :
  intervalBin propsHigh (length (silence 8)) 0 = 9%Z /\
  snd (hftnnForward dftKernel (Some (silence 8)) (Some propsHigh) None)
  = Ok [(NaN, NaN); (NaN, NaN); (Fin 0, Fin 0)] /\
  (NaN, NaN) <> (Fin 0, Fin 0).
Proof.
  split; [exact intervalBin_propsHigh|]. split; [|discriminate].
  rewrite (hftnnForward_spec dftKernel (silence 8) propsHigh None
             dftKernel_contract eq_refl validDftSize_propsHigh
             validFrequencies_propsHigh).
  cbn [snd]. f_equal.
  change (octaveRange propsHigh * frequenciesInOctave propsHigh) with 1.
  cbn [seq map concat]. unfold intervalEntries.
  change (extraBins propsHigh) with 1. cbn [lowBins highBins map app].
  change (length (silence 8)) with 8. rewrite intervalBin_propsHigh.
  assert (HT : length (spectrumOf dftKernel propsHigh
                         (apply (chooseWindow None 8) (silence 8))) = 16)
    by (rewrite spectrumOf_length by exact dftKernel_contract; reflexivity).
  change (9 + - Z.of_nat 1)%Z with 8%Z. change (9 + 1)%Z with 10%Z.
  change (Z.of_nat (dftSize propsHigh)) with 8%Z.
  change (lowEntry ?T 8) with (polarAt T 8).
  change (highEntry 8 ?T 10) with (Fin 0, Fin 0).
  rewrite !polarAt_past_end by (rewrite HT; lia).
  reflexivity.
Qed.

(** ** The chunking loop of [hftnnForwardTemporal] *)

Lemma validDftSize_even (p : HFTNNProperties) :
  validDftSize p -> dftSize p = 2 * (dftSize p / 2) /\ 1 <= dftSize p / 2.
Proof.
  intros [Hpow Hlt].
  apply isPowerOfTwo_spec in Hpow; [|lia].
  destruct Hpow as (k & Hk & E).
  replace k with (Z.succ (k - 1)) in E by lia.
  rewrite Z.pow_succ_r in E by lia.
  assert (Hpos : (0 < 2 ^ (k - 1))%Z) by (apply Z.pow_pos_nonneg; lia).
  assert (Hd : dftSize p = 2 * Z.to_nat (2 ^ (k - 1))) by lia.
  assert (Hq : dftSize p / 2 = Z.to_nat (2 ^ (k - 1)))
    by (rewrite Hd, Nat.mul_comm; apply Nat.div_mul; lia).
  lia.
Qed.

Lemma hop_lt_iff (len hop k : nat) :
  0 < hop -> (k * hop < len <-> k < (len + hop - 1) / hop).
Proof.
  intros Hhop. split.
  - intros H. apply Nat.div_le_lower_bound; lia.
  - intros H.
    assert (H1 : hop * S k <= hop * ((len + hop - 1) / hop))
      by (apply Nat.mul_le_mono_l; lia).
    assert (H2 := Nat.Div0.mul_div_le (len + hop - 1) hop).
    lia.
Qed.

Lemma hopCount_le_length (signal : array) (p : HFTNNProperties) :
  0 < dftSize p / 2 -> hopCount signal p <= length signal.
Proof.
  intros Hhop. unfold hopCount.
  destruct (le_lt_dec ((length signal + dftSize p / 2 - 1) / (dftSize p / 2))
                      (length signal)) as [H|H]; [exact H|].
  exfalso.
  apply (hop_lt_iff (length signal) (dftSize p / 2) (length signal) Hhop) in H.
  nia.
Qed.

Lemma nextSkip_mod (p : HFTNNProperties) (k : nat) :
  nextSkip p (k mod S (interpolatedChunks p)) = S k mod S (interpolatedChunks p).
Proof.
  unfold nextSkip. set (m := S (interpolatedChunks p)).
  assert (Hj : k mod m < m) by (apply Nat.mod_upper_bound; lia).
  assert (Hk := Nat.div_mod_eq k m).
  destruct (interpolatedChunks p <? S (k mod m)) eqn:E.
  - apply Nat.ltb_lt in E.
    apply (Nat.mod_unique (S k) m (S (k / m)) 0); [lia|]. nia.
  - apply Nat.ltb_ge in E.
    apply (Nat.mod_unique (S k) m (k / m) (S (k mod m))); [lia|]. nia.
Qed.

(** The second disjunct is false on every iteration: the loop guard holds
    [i] below [signal.length]. *)
Lemma processCondition_in_loop (signal : array) (p : HFTNNProperties) (i j : nat) :
  i < length signal -> processCondition signal p i j = (j =? 0).
Proof.
  intros Hi. unfold processCondition.
  destruct (length signal + dftSize p / 2 <=? i) eqn:E.
  - apply Nat.leb_le in E. lia.
  - apply orb_false_r.
Qed.

Lemma frameOfChunk_ok (K : FFTKernel) (p : HFTNNProperties) (w : CosineWindow)
    (chunk : array) :
  FFTContract K -> validDftSize p -> length chunk = dftSize p ->
  snd (hftnnForward K (Some chunk) (Some p) (Some w)) = Ok (frameOfChunk K p w chunk) /\
  length (frameOfChunk K p w chunk) = frameLength p.
Proof.
  intros HK Hdft Hlen. unfold frameOfChunk.
  destruct (hftnnForward_ok K chunk p (Some w) HK) as (hft & E & L);
    [rewrite Hlen; exact (proj1 Hdft)|exact Hdft|].
  rewrite E. cbn [snd]. split; [reflexivity|exact L].
Qed.

Lemma temporalLoop_spec (K : FFTKernel) (signal : array) (p : HFTNNProperties)
    (w : CosineWindow) :
  FFTContract K -> validDftSize p ->
  forall n k fuel hftnns,
    k + n = hopCount signal p -> n <= fuel ->
    temporalLoop K signal p w fuel (k * (dftSize p / 2))
                 (k mod S (interpolatedChunks p)) hftnns
    = Ok (hftnns ++
          map (fun k => frameOfChunk K p w (chunkAt signal p (k * (dftSize p / 2))))
              (List.filter (fun k => k mod S (interpolatedChunks p) =? 0)
                           (seq k n))).
Proof.
  intros HK Hdft.
  destruct (validDftSize_even p Hdft) as [_ Hhop].
  induction n as [|n IH]; intros k fuel hftnns Hk Hfuel.
  - assert (Hge : ~ k * (dftSize p / 2) < length signal).
    { rewrite (hop_lt_iff _ _ _ Hhop). fold (hopCount signal p). lia. }
    destruct fuel; cbn [temporalLoop];
      (destruct (k * (dftSize p / 2) <? length signal) eqn:E;
       [apply Nat.ltb_lt in E; lia|]);
      cbn [seq List.filter map]; rewrite app_nil_r; reflexivity.
  - assert (Hlt : k * (dftSize p / 2) < length signal).
    { rewrite (hop_lt_iff _ _ _ Hhop). fold (hopCount signal p). lia. }
    destruct fuel as [|fuel]; [lia|]. cbn [temporalLoop].
    destruct (k * (dftSize p / 2) <? length signal) eqn:E;
      [|apply Nat.ltb_ge in E; lia].
    rewrite processCondition_in_loop by exact Hlt.
    rewrite nextSkip_mod.
    replace (k * (dftSize p / 2) + dftSize p / 2) with (S k * (dftSize p / 2)) by lia.
    cbn [seq List.filter].
    destruct (k mod S (interpolatedChunks p) =? 0) eqn:Ekeep.
    + destruct (frameOfChunk_ok K p w (chunkAt signal p (k * (dftSize p / 2)))
                  HK Hdft (length_chunkAt _ _ _)) as [Eok _].
      rewrite Eok, !bind_Ok. rewrite IH by lia.
      cbn [map]. rewrite <- app_assoc. reflexivity.
    + rewrite bind_Ok. apply IH; lia.
Qed.

(** On a signal of at least [dftSize] samples, [hftnnForwardTemporal]
    leaves the signal as it is and returns the frames of the kept hops. *)
Lemma hftnnForwardTemporal_long (K : FFTKernel) (signal : array)
    (p : HFTNNProperties) :
  FFTContract K -> validDftSize p -> dftSize p <= length signal ->
  hftnnForwardTemporal K signal p =
    (signal,
     Ok (map (fun k => frameOfChunk K p (newCosineWindow (dftSize p))
                         (chunkAt signal p (k * (dftSize p / 2))))
             (keptHops signal p))).
Proof.
  intros HK Hdft Hlen. unfold hftnnForwardTemporal.
  destruct (length signal <? dftSize p) eqn:E; [apply Nat.ltb_lt in E; lia|].
  f_equal.
  destruct (validDftSize_even p Hdft) as [_ Hhop].
  assert (Hfuel := hopCount_le_length signal p Hhop).
  assert (H := temporalLoop_spec K signal p (newCosineWindow (dftSize p)) HK Hdft
                 (hopCount signal p) 0 (length signal) [] eq_refl Hfuel).
  rewrite Nat.mul_0_l, Nat.Div0.mod_0_l in H. exact H.
Qed.

(** On a shorter signal, the signal is grown to [dftSize] slots and
    windowed in place, and the single frame is that of the grown signal. *)
Lemma hftnnForwardTemporal_short (K : FFTKernel) (signal : array)
    (p : HFTNNProperties) :
  FFTContract K -> validDftSize p -> length signal < dftSize p ->
  let grown := resized signal (dftSize p) in
  exists hft,
    snd (hftnnForward K (Some grown) (Some p) None) = Ok hft /\
    length hft = frameLength p /\
    hftnnForwardTemporal K signal p =
      (apply (newCosineWindow (dftSize p)) grown, Ok [hft]).
Proof.
  intros HK Hdft Hlen grown. unfold hftnnForwardTemporal.
  destruct (length signal <? dftSize p) eqn:E; [|apply Nat.ltb_ge in E; lia].
  rewrite (setLength_ok signal p Hdft). fold grown.
  destruct (hftnnForward_ok K grown p None HK) as (hft & Eok & L);
    [unfold grown; rewrite length_resized; exact (proj1 Hdft)|exact Hdft|].
  exists hft. rewrite Eok. cbn [fst snd default]. rewrite bind_Ok.
  split; [reflexivity|]. split; [exact L|].
  unfold Datatypes.id. cbn [chooseWindow]. unfold grown.
  rewrite length_resized. reflexivity.
Qed.

Lemma temporalLoop_no_InvalidInput (K : FFTKernel) (signal : array)
    (p : HFTNNProperties) (w : CosineWindow) (why : invalidInput) :
  isPowerOfTwo (Z.of_nat (dftSize p)) = true ->
  forall fuel i j hftnns,
    temporalLoop K signal p w fuel i j hftnns <> Throw (InvalidInput why).
Proof.
  intros Hpow. induction fuel as [|fuel IH]; intros i j hftnns;
    cbn [temporalLoop]; destruct (i <? length signal); try discriminate.
  destruct (processCondition signal p i j).
  - destruct (hftnnForward_after_validation K (chunkAt signal p i) p (Some w))
      as [(hft & E)|[E|E]];
      [rewrite length_chunkAt; exact Hpow| | |]; rewrite E.
    + rewrite !bind_Ok. apply IH.
    + discriminate.
    + discriminate.
  - rewrite bind_Ok. apply IH.
Qed.

(** ** The temporal chunker: statements *)

(** C10. Whatever the signal, every chunk [hftnnForwardTemporal] hands to
    [hftnnForward] has exactly [dftSize] slots, the grown signal of the
    short branch as well as each padded slice of the loop; so with a valid
    [dftSize] the power-of-two error of [hftnnForward] is never raised from
    [hftnnForwardTemporal]. *)
Theorem hftnnForwardTemporal_chunk_lengths (K : FFTKernel) (signal : array)
    (p : HFTNNProperties) :
  validDftSize p ->
  length (resized signal (dftSize p)) = dftSize p /\
  (forall i, length (chunkAt signal p i) = dftSize p) /\
  (forall i w,
      snd (hftnnForward K (Some (chunkAt signal p i)) (Some p) w)
      <> Throw (InvalidInput BadLength)) /\
  snd (hftnnForwardTemporal K signal p) <> Throw (InvalidInput BadLength).
Proof.
  intros [Hpow Hlt]. split; [apply length_resized|].
  split; [intros i; apply length_chunkAt|]. split.
  - intros i w.
    destruct (hftnnForward_after_validation K (chunkAt signal p i) p w)
      as [(hft & E)|[E|E]];
      [rewrite length_chunkAt; exact Hpow| | |]; rewrite E; discriminate.
  - unfold hftnnForwardTemporal. destruct (length signal <? dftSize p).
    + rewrite (setLength_ok signal p (conj Hpow Hlt)). cbn [snd].
      destruct (hftnnForward_after_validation K (resized signal (dftSize p)) p None)
        as [(hft & E)|[E|E]];
        [rewrite length_resized; exact Hpow| | |]; rewrite E; discriminate.
    + cbn [snd]. apply temporalLoop_no_InvalidInput. exact Hpow.
Qed.

Lemma hftnnForwardTemporal_chunk_lengths_witness :
  length (resized (ones 11) (dftSize props8)) = dftSize props8 /\
  (forall i, length (chunkAt (ones 11) props8 i) = dftSize props8) /\
  (forall i w,
      snd (hftnnForward dftKernel (Some (chunkAt (ones 11) props8 i)) (Some props8) w)
      <> Throw (InvalidInput BadLength)) /\
  snd (hftnnForwardTemporal dftKernel (ones 11) props8)
  <> Throw (InvalidInput BadLength).
Proof.
  apply (hftnnForwardTemporal_chunk_lengths dftKernel (ones 11) props8).
  exact validDftSize_props8.
Defined.

(** C4. With valid properties the frame [hftnnForward] returns on any
    accepted signal has [octaveRange * frequenciesInOctave *
    (2 * extraBins + 1)] entries, whatever the samples are, and so has every
    frame [hftnnForwardTemporal] returns, on any signal. *)
Theorem frame_length_invariant (K : FFTKernel) (p : HFTNNProperties) :
  FFTContract K -> validDftSize p ->
  (forall (sig : array) (fw : option CosineWindow),
      isPowerOfTwo (Z.of_nat (length sig)) = true ->
      exists hft,
        snd (hftnnForward K (Some sig) (Some p) fw) = Ok hft /\
        length hft =
        octaveRange p * frequenciesInOctave p * (2 * extraBins p + 1)) /\
  (forall signal : array,
      exists hftnns,
        snd (hftnnForwardTemporal K signal p) = Ok hftnns /\
        Forall (fun hft : list (number * number) =>
                  length hft =
                  octaveRange p * frequenciesInOctave p * (2 * extraBins p + 1))
               hftnns).
Proof.
  intros HK Hdft. split.
  - intros sig fw Hsig.
    destruct (hftnnForward_ok K sig p fw HK Hsig Hdft) as (hft & E & L).
    exists hft. rewrite E. split; [reflexivity|exact L].
  - intros signal.
    destruct (le_lt_dec (dftSize p) (length signal)) as [Hlong|Hshort].
    + rewrite (hftnnForwardTemporal_long K signal p HK Hdft Hlong). cbn [snd].
      eexists. split; [reflexivity|].
      apply List.Forall_forall. intros hft Hin. apply in_map_iff in Hin.
      destruct Hin as (k & <- & _).
      apply (frameOfChunk_ok K p _ _ HK Hdft (length_chunkAt _ _ _)).
    + destruct (hftnnForwardTemporal_short K signal p HK Hdft Hshort)
        as (hft & _ & L & E).
      rewrite E. cbn [snd]. exists [hft]. split; [reflexivity|].
      constructor; [exact L|constructor].
Qed.

Lemma frame_length_invariant_witness :
  (forall (sig : array) (fw : option CosineWindow),
      isPowerOfTwo (Z.of_nat (length sig)) = true ->
      exists hft,
        snd (hftnnForward dftKernel (Some sig) (Some propsSkip) fw) = Ok hft /\
        length hft = 3) /\
  (forall signal : array,
      exists hftnns,
        snd (hftnnForwardTemporal dftKernel signal propsSkip) = Ok hftnns /\
        Forall (fun hft : list (number * number) => length hft = 3) hftnns).
Proof.
  apply (frame_length_invariant dftKernel propsSkip).
  - exact dftKernel_contract.
  - exact validDftSize_propsSkip.
Defined.

Lemma filter_length_le {A : Type} (f : A -> bool) (l : list A) :
  length (List.filter f l) <= length l.
Proof.
  induction l as [|x l IH]; cbn [List.filter length]; [lia|].
  destruct (f x); cbn [length]; lia.
Qed.

Lemma filter_length_lt {A : Type} (f : A -> bool) (l : list A) (x : A) :
  In x l -> f x = false -> length (List.filter f l) < length l.
Proof.
  induction l as [|y l IH]; cbn [In List.filter length]; [tauto|].
  intros [->|Hin] Hx.
  - rewrite Hx. assert (H := filter_length_le f l). lia.
  - specialize (IH Hin Hx). destruct (f y); cbn [length]; lia.
Qed.

Lemma keptHops_fewer (signal : array) (p : HFTNNProperties) :
  validDftSize p -> dftSize p <= length signal ->
  0 < interpolatedChunks p ->
  length (keptHops signal p) < hopCount signal p.
Proof.
  intros Hdft Hlen Hic.
  destruct (validDftSize_even p Hdft) as [Heven Hhop].
  assert (H1 : 1 < hopCount signal p).
  { unfold hopCount. apply (hop_lt_iff (length signal) (dftSize p / 2) 1); lia. }
  unfold keptHops.
  assert (H := filter_length_lt (fun k => k mod S (interpolatedChunks p) =? 0)
                 (seq 0 (hopCount signal p)) 1).
  rewrite length_seq in H. apply H.
  - apply in_seq. lia.
  - rewrite Nat.mod_small by lia. reflexivity.
Qed.

(** C5. On a signal of at least [dftSize] samples the second disjunct of the
    processing test is false at every iteration, so a chunk is processed
    exactly when the skip counter is 0: the loop visits the offsets
    [k * dftSize / 2] for [k] below the hop count, and the frames returned
    are those of the hops [k] that are multiples of
    [interpolatedChunks + 1], in order; when [interpolatedChunks > 0] they
    are strictly fewer than the hops. *)
Theorem hftnnForwardTemporal_kept_hops (K : FFTKernel) (signal : array)
    (p : HFTNNProperties) :
  FFTContract K -> validDftSize p -> dftSize p <= length signal ->
  (forall i j,
      i < length signal ->
      (length signal + dftSize p / 2 <=? i) = false /\
      processCondition signal p i j = (j =? 0)) /\
  (forall k, k * (dftSize p / 2) < length signal <-> k < hopCount signal p) /\
  exists hftnns,
    snd (hftnnForwardTemporal K signal p) = Ok hftnns /\
    hftnns =
      map (fun k => frameOfChunk K p (newCosineWindow (dftSize p))
                      (chunkAt signal p (k * (dftSize p / 2))))
          (List.filter (fun k => k mod S (interpolatedChunks p) =? 0)
                       (seq 0 (hopCount signal p))) /\
    (0 < interpolatedChunks p -> length hftnns < hopCount signal p).
Proof.
  intros HK Hdft Hlen.
  destruct (validDftSize_even p Hdft) as [_ Hhop].
  split; [|split].
  - intros i j Hi. split.
    + apply Nat.leb_gt. lia.
    + apply processCondition_in_loop. exact Hi.
  - intros k. apply hop_lt_iff. lia.
  - rewrite (hftnnForwardTemporal_long K signal p HK Hdft Hlen). cbn [snd].
    eexists. split; [reflexivity|]. split; [reflexivity|].
    intros Hic. rewrite length_map.
    apply keptHops_fewer; assumption.
Qed.

Lemma hftnnForwardTemporal_kept_hops_witness :
  (forall i j,
      i < length (ones 11) ->
      (length (ones 11) + dftSize propsSkip / 2 <=? i) = false /\
      processCondition (ones 11) propsSkip i j = (j =? 0)) /\
  (forall k, k * (dftSize propsSkip / 2) < length (ones 11)
             <-> k < hopCount (ones 11) propsSkip) /\
  exists hftnns,
    snd (hftnnForwardTemporal dftKernel (ones 11) propsSkip) = Ok hftnns /\
    hftnns =
      map (fun k => frameOfChunk dftKernel propsSkip
                      (newCosineWindow (dftSize propsSkip))
                      (chunkAt (ones 11) propsSkip (k * (dftSize propsSkip / 2))))
          (List.filter (fun k => k mod S (interpolatedChunks propsSkip) =? 0)
                       (seq 0 (hopCount (ones 11) propsSkip))) /\
    (0 < interpolatedChunks propsSkip ->
     length hftnns < hopCount (ones 11) propsSkip).
Proof.
  apply (hftnnForwardTemporal_kept_hops dftKernel (ones 11) propsSkip).
  - exact dftKernel_contract.
  - exact validDftSize_propsSkip.
  - cbn. lia.
Defined.

(** The hops of an 11-sample signal with [dftSize = 8]: offsets 0, 4 and 8,
    of which hops 0 and 2 are kept when one chunk in two is skipped. *)
Example keptHops_ones11 :
  hopCount (ones 11) propsSkip = 3 /\ keptHops (ones 11) propsSkip = [0; 2].
Proof. split; reflexivity. Qed.

Lemma lookup_chunkAt_pad (signal : array) (p : HFTNNProperties) (i : nat) :
  length signal <= i < dftSize p ->
  chunkAt signal p 0 !! i = Some (Some (Fin 0)).
Proof.
  intros Hi. unfold chunkAt, fill.
  rewrite length_resized, length_slice.
  rewrite lookup_app_r by (rewrite length_take, length_resized; lia).
  rewrite length_take, length_resized.
  apply lookup_replicate_2. lia.
Qed.

(** The caller's array after the short branch, slot by slot. *)
Lemma lookup_short_branch (signal : array) (p : HFTNNProperties) (i : nat) :
  i < dftSize p ->
  apply (newCosineWindow (dftSize p)) (resized signal (dftSize p)) !! i =
  Some (Some (nmul (toNumber (mjoin (resized signal (dftSize p) !! i)))
                   (Math_sin (ndiv (Fin (PI * INR i))
                                   (Fin (IZR (Z.of_nat (dftSize p) - 1))))))).
Proof.
  intros Hi. rewrite lookup_apply, length_resized. cbn [newCosineWindow cw_length].
  destruct (decide (i < Nat.min (dftSize p) (dftSize p))) as [_|H]; [|lia].
  unfold windowedSlot. rewrite multipliers_newCosineWindow by exact Hi.
  reflexivity.
Qed.

(** C9. [hftnnForwardTemporal] leaves the caller's array as it was exactly
    when the signal has at least [dftSize] samples.  On a shorter signal the
    array itself has [dftSize] slots afterwards, and each of its original
    samples is multiplied by the window coefficient of its position. *)
Theorem hftnnForwardTemporal_caller_signal (K : FFTKernel) (signal : array)
    (p : HFTNNProperties) :
  FFTContract K -> validDftSize p ->
  let after := fst (hftnnForwardTemporal K signal p) in
  (after = signal <-> dftSize p <= length signal) /\
  (length signal < dftSize p ->
   length after = dftSize p /\
   forall i,
     i < Nat.min (length signal) (dftSize p) ->
     after !! i =
     Some (Some (nmul (toNumber (mjoin (signal !! i)))
                      (Math_sin (ndiv (Fin (PI * INR i))
                                      (Fin (IZR (Z.of_nat (dftSize p) - 1)))))))).
Proof.
  intros HK Hdft after.
  assert (Hshort : length signal < dftSize p ->
                   after = apply (newCosineWindow (dftSize p))
                                 (resized signal (dftSize p))).
  { intros H. unfold after.
    destruct (hftnnForwardTemporal_short K signal p HK Hdft H) as (hft & _ & _ & E).
    rewrite E. reflexivity. }
  split; [split|].
  - intros E. destruct (le_lt_dec (dftSize p) (length signal)) as [H|H]; [exact H|].
    exfalso. rewrite (Hshort H) in E.
    apply (f_equal (@length _)) in E.
    rewrite length_apply, length_resized in E. lia.
  - intros H. unfold after.
    rewrite (hftnnForwardTemporal_long K signal p HK Hdft H). reflexivity.
  - intros H. rewrite (Hshort H). split.
    + rewrite length_apply. apply length_resized.
    + intros i Hi. rewrite lookup_short_branch by lia.
      rewrite lookup_resized_keep by lia. reflexivity.
Qed.

Lemma hftnnForwardTemporal_caller_signal_witness :
  let after := fst (hftnnForwardTemporal dftKernel (ones 3) props8) in
  (after = ones 3 <-> dftSize props8 <= length (ones 3)) /\
  (length (ones 3) < dftSize props8 ->
   length after = dftSize props8 /\
   forall i,
     i < Nat.min (length (ones 3)) (dftSize props8) ->
     after !! i =
     Some (Some (nmul (toNumber (mjoin (ones 3 !! i)))
                      (Math_sin (ndiv (Fin (PI * INR i))
                                      (Fin (IZR (Z.of_nat (dftSize props8) - 1)))))))).
Proof.
  apply (hftnnForwardTemporal_caller_signal dftKernel (ones 3) props8).
  - exact dftKernel_contract.
  - exact validDftSize_props8.
Defined.

(** C3, on the code.  On a signal shorter than [dftSize] the forward frame
    transform runs once and one frame is returned, but the signal is not
    padded with zeros: [signal.length = dftSize] leaves the new slots empty,
    and windowing turns each of them into [NaN] before the kernel reads
    them.  The loop of the other branch pads its chunks with [0]. *)
Theorem hftnnForwardTemporal_short_padding (K : FFTKernel) (signal : array)
    (p : HFTNNProperties) :
  FFTContract K -> validDftSize p -> length signal < dftSize p ->
  exists hft,
    hftnnForward K (Some (resized signal (dftSize p))) (Some p) None
    = (Some (fst (hftnnForwardTemporal K signal p)), Ok hft) /\
    snd (hftnnForwardTemporal K signal p) = Ok [hft] /\
    forall i,
      length signal <= i < dftSize p ->
      resized signal (dftSize p) !! i = Some None /\
      fst (hftnnForwardTemporal K signal p) !! i = Some (Some NaN) /\
      chunkAt signal p 0 !! i = Some (Some (Fin 0)).
Proof.
  intros HK Hdft Hlen.
  destruct (hftnnForwardTemporal_short K signal p HK Hdft Hlen) as (hft & E1 & _ & E).
  exists hft. rewrite E. cbn [fst snd]. split; [|split; [reflexivity|]].
  - destruct (hftnnForward_ok K (resized signal (dftSize p)) p None HK)
      as (hft' & E' & _);
      [rewrite length_resized; exact (proj1 Hdft)|exact Hdft|].
    rewrite E' in E1 |- *. cbn [snd] in E1. injection E1 as ->.
    cbn [chooseWindow]. rewrite length_resized. reflexivity.
  - intros i Hi. split; [apply lookup_resized_pad; exact Hi|].
    split; [|apply lookup_chunkAt_pad; exact Hi].
    rewrite lookup_short_branch by lia.
    rewrite lookup_resized_pad by exact Hi. reflexivity.
Qed.

Lemma hftnnForwardTemporal_short_padding_witness :
  exists hft,
    hftnnForward dftKernel (Some (resized (ones 3) (dftSize props8)))
                 (Some props8) None
    = (Some (fst (hftnnForwardTemporal dftKernel (ones 3) props8)), Ok hft) /\
    snd (hftnnForwardTemporal dftKernel (ones 3) props8) = Ok [hft] /\
    forall i,
      length (ones 3) <= i < dftSize props8 ->
      resized (ones 3) (dftSize props8) !! i = Some None /\
      fst (hftnnForwardTemporal dftKernel (ones 3) props8) !! i = Some (Some NaN) /\
      chunkAt (ones 3) props8 0 !! i = Some (Some (Fin 0)).
Proof.
  apply (hftnnForwardTemporal_short_padding dftKernel (ones 3) props8).
  - exact dftKernel_contract.
  - exact validDftSize_props8.
  - cbn. lia.
Defined.

(** ** [hftnnInverse] *)

Lemma length_arraySet_ge (a : array) (k : Z) (v : number) :
  length a <= length (arraySet a k v).
Proof.
  unfold arraySet. destruct (negb (isArrayIndex k)); [lia|].
  destruct (Z.to_nat k <? length a).
  - rewrite length_insert. lia.
  - rewrite length_app. lia.
Qed.

Lemma lookup_arraySet_zero (a : array) (k : Z) (n : nat) :
  n <= length a ->
  (forall i, i < n -> a !! i = Some (Some (Fin 0))) ->
  forall i, i < n -> arraySet a k (Fin 0) !! i = Some (Some (Fin 0)).
Proof.
  intros Hn Ha i Hi. unfold arraySet.
  destruct (negb (isArrayIndex k)); [apply Ha; exact Hi|].
  destruct (Z.to_nat k <? length a) eqn:E.
  - apply Nat.ltb_lt in E.
    destruct (decide (Z.to_nat k = i)) as [<-|Hne].
    + apply list_lookup_insert_eq. exact E.
    + rewrite list_lookup_insert_ne by exact Hne. apply Ha. exact Hi.
  - rewrite lookup_app_l by lia. apply Ha. exact Hi.
Qed.

Lemma scatter_ok (hft : list (number * number)) (bin : Z)
    (st : list (option number) * nat) :
  snd st < length hft ->
  exists bins', scatter hft bin st = Ok (bins', S (snd st)).
Proof.
  intros H. unfold scatter.
  destruct (lookup_lt_is_Some_2 hft (snd st) H) as [e E]. rewrite E.
  eexists. reflexivity.
Qed.

Lemma invLowLoop_ok (hft : list (number * number)) (b : Z) (j : nat) :
  forall st : list (option number) * nat,
    snd st + j <= length hft ->
    exists bins', invLowLoop hft b j st = Ok (bins', snd st + j).
Proof.
  induction j as [|j IH]; intros st H.
  - exists (fst st). cbn [invLowLoop]. rewrite Nat.add_0_r.
    destruct st; reflexivity.
  - cbn [invLowLoop].
    destruct (scatter_ok hft (b - Z.of_nat (S j)) st ltac:(lia)) as (b1 & E1).
    rewrite E1, bind_Ok.
    destruct (IH (b1, S (snd st)) ltac:(cbn [snd]; lia)) as (b2 & E2).
    exists b2. rewrite E2. cbn [snd]. do 2 f_equal. lia.
Qed.

Lemma invHighLoop_ok (hft : list (number * number)) (b : Z) (n : nat) :
  forall (j : Z) (st : list (option number) * nat),
    snd st + n <= length hft ->
    exists bins', invHighLoop hft b n j st = Ok (bins', snd st + n).
Proof.
  induction n as [|n IH]; intros j st H.
  - exists (fst st). cbn [invHighLoop]. rewrite Nat.add_0_r.
    destruct st; reflexivity.
  - cbn [invHighLoop].
    destruct (scatter_ok hft (b + j) st ltac:(lia)) as (b1 & E1).
    rewrite E1, bind_Ok.
    destruct (IH (j + 1)%Z (b1, S (snd st)) ltac:(cbn [snd]; lia)) as (b2 & E2).
    exists b2. rewrite E2. cbn [snd]. do 2 f_equal. lia.
Qed.

Lemma inverseBody_ok (hft : list (number * number)) (p : HFTNNProperties)
    (interval : nat) (st : list (option number) * nat) :
  snd st + (2 * extraBins p + 1) <= length hft ->
  exists bins',
    inverseBody hft p interval st = Ok (bins', snd st + (2 * extraBins p + 1)).
Proof.
  intros H. unfold inverseBody.
  set (b := intervalBin p (dftSize p) interval).
  destruct (invLowLoop_ok hft b (extraBins p) st ltac:(lia)) as (b1 & E1).
  rewrite E1, bind_Ok.
  destruct (scatter_ok hft b (b1, snd st + extraBins p) ltac:(cbn [snd]; lia))
    as (b2 & E2).
  rewrite E2, bind_Ok. cbn [snd].
  destruct (invHighLoop_ok hft b (extraBins p) 1 (b2, S (snd st + extraBins p))
              ltac:(cbn [snd]; lia)) as (b3 & E3).
  exists b3. rewrite E3. cbn [snd]. do 2 f_equal. lia.
Qed.

(** On a frame of [m] whole intervals the scatter loop runs [m] times and
    ends without reading past the frame. *)
Lemma inverseLoop_ok (hft : list (number * number)) (p : HFTNNProperties) :
  forall m fuel interval (st : list (option number) * nat),
    length hft = snd st + m * (2 * extraBins p + 1) ->
    m <= fuel ->
    exists bins, inverseLoop hft p fuel interval st = Ok bins.
Proof.
  induction m as [|m IH]; intros fuel interval st Hlen Hfuel.
  - exists (fst st).
    destruct fuel; cbn [inverseLoop];
      (destruct (snd st <? length hft) eqn:E;
       [apply Nat.ltb_lt in E; lia|reflexivity]).
  - destruct fuel as [|fuel]; [lia|]. cbn [inverseLoop].
    destruct (snd st <? length hft) eqn:E; [|apply Nat.ltb_ge in E; lia].
    destruct (inverseBody_ok hft p interval st ltac:(lia)) as (b1 & E1).
    rewrite E1, bind_Ok.
    apply IH; [cbn [snd]; lia|lia].
Qed.

(** [hftnnInverse] past its validation and its allocations. *)
Lemma hftnnInverse_valid (K : FFTKernel) (hft : list (number * number))
    (p : HFTNNProperties) :
  FFTContract K -> validDftSize p ->
  hftnnInverse K (Some hft) (Some p) =
    let* bins := inverseLoop hft p (length hft) 0 (complexZeros (dftSize p), 0) in
    step (fft_inverseTransform K (dftSize p) (complexZeros (dftSize p)) bins) 1.
Proof.
  intros HK Hdft. unfold hftnnInverse.
  rewrite (construct_valid K p HK Hdft). cbn [negb].
  rewrite (createComplexArray_ok p Hdft). rewrite bind_Ok.
  destruct (inverseLoop hft p (length hft) 0 (complexZeros (dftSize p), 0));
    reflexivity.
Qed.

(** On a frame of the valid length [hftnnInverse] returns the kernel's whole
    interleaved output buffer, [2 * dftSize] slots. *)
Lemma hftnnInverse_ok (K : FFTKernel) (hft : list (number * number))
    (p : HFTNNProperties) :
  FFTContract K -> validDftSize p -> length hft = frameLength p ->
  exists bins,
    inverseLoop hft p (length hft) 0 (complexZeros (dftSize p), 0) = Ok bins /\
    hftnnInverse K (Some hft) (Some p) =
      Ok (fft_inverseTransform K (dftSize p) (complexZeros (dftSize p)) bins) /\
    length (fft_inverseTransform K (dftSize p) (complexZeros (dftSize p)) bins)
    = 2 * dftSize p.
Proof.
  intros HK Hdft Hlen. unfold frameLength in Hlen.
  destruct (inverseLoop_ok hft p (octaveRange p * frequenciesInOctave p)
              (length hft) 0 (complexZeros (dftSize p), 0))
    as (bins & E); [cbn [snd]; lia|nia|].
  exists bins. split; [exact E|]. split.
  - rewrite (hftnnInverse_valid K hft p HK Hdft).
    rewrite E, bind_Ok. reflexivity.
  - rewrite (inverseTransform_length K HK), length_complexZeros. lia.
Qed.

(** The frame [[0, 0]] with [dftSize = 8], one interval and no extra bins:
    the spectrum stays zero wherever the interval's bin falls, and the
    result is the 16 interleaved zeros of the kernel's output. *)
Lemma hftnnInverse_zero_frame (K : FFTKernel) (p : HFTNNProperties) :
  FFTContract K ->
  dftSize p = 8 -> octaveRange p = 1 -> frequenciesInOctave p = 1 ->
  extraBins p = 0 ->
  hftnnInverse K (Some [(Fin 0, Fin 0)]) (Some p) = Ok (replicate 16 (Some (Fin 0))).
Proof.
  intros HK Hd Ho Hf He.
  assert (Hdft : validDftSize p)
    by (split; rewrite Hd; [reflexivity|cbn; lia]).
  rewrite (hftnnInverse_valid K _ p HK Hdft).
  cbn [length inverseLoop snd Nat.ltb Nat.leb]. unfold inverseBody.
  rewrite He. cbn [invLowLoop invHighLoop]. rewrite !bind_Ok.
  unfold scatter. cbn [snd fst lookup list_lookup].
  rewrite magnitudePhaseToComplex_zero. cbn [fst snd]. rewrite !bind_Ok.
  cbn [snd fst Nat.ltb Nat.leb]. rewrite bind_Ok.
  rewrite (inverseTransform_zero K HK).
  - rewrite Hd. reflexivity.
  - rewrite Hd. intros i Hi.
    apply lookup_arraySet_zero with (n := 16); [| |exact Hi].
    + etransitivity; [|apply length_arraySet_ge].
      rewrite length_complexZeros. lia.
    + apply lookup_arraySet_zero; [rewrite length_complexZeros; lia|].
      intros i' Hi'. unfold complexZeros. apply lookup_replicate_2. lia.
Qed.

(** C1, as the code has it.  On a frame of the valid length [hftnnInverse]
    returns [step(inverse, 1)], a copy of the whole output buffer of the
    inverse kernel: [2 * dftSize] interleaved slots, real and imaginary
    components alike.  With [dftSize = 8], one octave of one frequency and
    no extra bins, the frame [[0, 0]] gives 16 zeros. *)
Theorem hftnnInverse_interleaved_output (K : FFTKernel)
    (hft : list (number * number)) (p : HFTNNProperties) :
  FFTContract K -> validDftSize p ->
  length hft = octaveRange p * frequenciesInOctave p * (2 * extraBins p + 1) ->
  (exists bins out,
      inverseLoop hft p (length hft) 0 (complexZeros (dftSize p), 0) = Ok bins /\
      out = fft_inverseTransform K (dftSize p) (complexZeros (dftSize p)) bins /\
      step out 1 = Ok out /\
      hftnnInverse K (Some hft) (Some p) = Ok out /\
      length out = 2 * dftSize p) /\
  (dftSize p = 8 -> octaveRange p = 1 -> frequenciesInOctave p = 1 ->
   extraBins p = 0 -> hft = [(Fin 0, Fin 0)] ->
   hftnnInverse K (Some hft) (Some p) = Ok (replicate 16 (Some (Fin 0)))).
Proof.
  intros HK Hdft Hlen. split.
  - destruct (hftnnInverse_ok K hft p HK Hdft Hlen) as (bins & E1 & E2 & L).
    exists bins. eexists. split; [exact E1|]. split; [reflexivity|].
    split; [reflexivity|]. split; [exact E2|exact L].
  - intros Hd Ho Hf He ->. apply hftnnInverse_zero_frame; assumption.
Qed.

Lemma hftnnInverse_interleaved_output_witness :
  (exists bins out,
      inverseLoop [(Fin 0, Fin 0)] props8 1 0 (complexZeros 8, 0) = Ok bins /\
      out = fft_inverseTransform dftKernel 8 (complexZeros 8) bins /\
      step out 1 = Ok out /\
      hftnnInverse dftKernel (Some [(Fin 0, Fin 0)]) (Some props8) = Ok out /\
      length out = 16) /\
  (dftSize props8 = 8 -> octaveRange props8 = 1 ->
   frequenciesInOctave props8 = 1 -> extraBins props8 = 0 ->
   [(Fin 0, Fin 0)] = [(Fin 0, Fin 0)] ->
   hftnnInverse dftKernel (Some [(Fin 0, Fin 0)]) (Some props8)
   = Ok (replicate 16 (Some (Fin 0)))).
Proof.
  apply (hftnnInverse_interleaved_output dftKernel [(Fin 0, Fin 0)] props8).
  - exact dftKernel_contract.
  - exact validDftSize_props8.
  - reflexivity.
Defined.

(** C1, as stated, fails: [inverseTransform([[0, 0]], p)] with [dftSize = 8]
    returns 16 slots, the interleaved real and imaginary components, not an
    8-sample signal. *)
Lemma hftnnInverse_silence_16_slots :
  exists out,
    hftnnInverse dftKernel (Some [(Fin 0, Fin 0)]) (Some props8) = Ok out /\
    length out = 16 /\ length out <> dftSize props8.
Proof.
  exists (replicate 16 (Some (Fin 0))). split.
  - apply hftnnInverse_zero_frame; [exact dftKernel_contract|reflexivity..].
  - split; [reflexivity|]. cbn. lia.
Qed.

(** ** The window argument *)

(** A window of the constructor is fixed by its length, so the window
    [hftnnForward] applies depends on the signal alone. *)
Lemma chooseWindow_constructed (w : option CosineWindow) (len : nat) :
  constructed w -> chooseWindow w len = newCosineWindow len.
Proof.
  destruct w as [w|]; [|reflexivity]. intros (n & ->). cbn [chooseWindow].
  cbn [newCosineWindow cw_length].
  destruct (n =? len) eqn:E; [|reflexivity].
  apply Nat.eqb_eq in E. subst n. reflexivity.
Qed.

(** X24. The optional window does not show in the result: on the same
    signal and properties [hftnnForward] returns the same frame, and leaves
    the caller's array in the same state, whether no window is passed or
    any window built by the constructor, of the signal's length or not. *)
Theorem hftnnForward_window_irrelevant (K : FFTKernel) (signal : option (list (option number)))
    (properties : option HFTNNProperties) (w w' : option CosineWindow) :
  constructed w -> constructed w' ->
  hftnnForward K signal properties w = hftnnForward K signal properties w'.
Proof.
  intros Hw Hw'. unfold hftnnForward.
  destruct signal as [sig|]; [|reflexivity].
  rewrite (chooseWindow_constructed w _ Hw), (chooseWindow_constructed w' _ Hw').
  reflexivity.
Qed.

Lemma hftnnForward_window_irrelevant_witness :
  hftnnForward dftKernel (Some (ones 8)) (Some props8) None
  = hftnnForward dftKernel (Some (ones 8)) (Some props8) (Some (newCosineWindow 4)).
Proof.
  apply (hftnnForward_window_irrelevant dftKernel (Some (ones 8)) (Some props8)
           None (Some (newCosineWindow 4))).
  - exact I.
  - exists 4. reflexivity.
Defined.

(** * Further properties of the code *)

(** ** [math.ts] *)

(** X5. For a positive sampling rate and a signal length that is not
    negative, [freqToFftBin] never decreases with the frequency. *)
Theorem freqToFftBin_monotone (freq1 freq2 sampleRate signalLength : R) :
  (0 < sampleRate)%R -> (0 <= signalLength)%R -> (freq1 <= freq2)%R ->
  (freqToFftBin freq1 sampleRate signalLength
   <= freqToFftBin freq2 sampleRate signalLength)%Z.
Proof.
  intros Hsr Hlen Hf. unfold freqToFftBin.
  apply Math_round_mono. unfold Rdiv. apply Rmult_le_compat_r.
  - apply Rlt_le, Rinv_0_lt_compat. exact Hsr.
  - apply Rmult_le_compat_r; assumption.
Qed.

Lemma freqToFftBin_monotone_witness :
  (freqToFftBin 440 44100 2048 <= freqToFftBin 880 44100 2048)%Z.
Proof. apply (freqToFftBin_monotone 440 880 44100 2048); lra. Defined.

(** X7. Below [2^32], [isPowerOfTwo] holds exactly of [2^1 .. 2^31]; its
    operands being taken as 32-bit integers, it then repeats itself:
    [v + 2^32] passes whenever [v > 1] does. *)
Lemma toInt32_periodic (v : Z) : toInt32 (v + 2 ^ 32) = toInt32 v.
Proof.
  unfold toInt32.
  replace (v + 2 ^ 32 + 2 ^ 31)%Z with (v + 2 ^ 31 + 1 * 2 ^ 32)%Z by ring.
  rewrite Z.mod_add by lia. reflexivity.
Qed.

Theorem isPowerOfTwo_exact_then_wraps (v : Z) :
  (0 <= v < 2 ^ 32)%Z ->
  (isPowerOfTwo v = true <-> exists k : Z, (1 <= k <= 31)%Z /\ v = (2 ^ k)%Z) /\
  ((1 < v)%Z -> isPowerOfTwo (v + 2 ^ 32) = isPowerOfTwo v).
Proof.
  intros Hv. split.
  - rewrite isPowerOfTwo_spec by exact Hv. unfold powerOfTwoAbove1. split.
    + intros (k & Hk & E). exists k. split; [|exact E]. split; [exact Hk|].
      destruct (Z_le_gt_dec k 31) as [H|H]; [exact H|]. exfalso.
      assert (2 ^ 32 <= 2 ^ k)%Z by (apply Z.pow_le_mono_r; lia). lia.
    + intros (k & Hk & E). exists k. split; [lia|exact E].
  - intros H1. unfold isPowerOfTwo.
    replace (v + 2 ^ 32 - 1)%Z with (v - 1 + 2 ^ 32)%Z by ring.
    rewrite !toInt32_periodic.
    destruct (1 <? v)%Z eqn:E1; [|apply Z.ltb_ge in E1; lia].
    destruct (1 <? v + 2 ^ 32)%Z eqn:E2; [reflexivity|apply Z.ltb_ge in E2; lia].
Qed.

Lemma isPowerOfTwo_exact_then_wraps_witness :
  (isPowerOfTwo 2048 = true <-> exists k : Z, (1 <= k <= 31)%Z /\ 2048%Z = (2 ^ k)%Z) /\
  ((1 < 2048)%Z -> isPowerOfTwo (2048 + 2 ^ 32) = isPowerOfTwo 2048).
Proof. apply (isPowerOfTwo_exact_then_wraps 2048). lia. Defined.

(** ** [CosineWindow] *)

Lemma multiplier_finite (n i : nat) :
  2 <= n -> i < n ->
  multipliers (newCosineWindow n) !! i
  = Some (Fin (sin (PI * INR i / INR (n - 1)))).
Proof.
  intros Hn Hi. rewrite multipliers_newCosineWindow by exact Hi.
  replace (IZR (Z.of_nat n - 1)) with (INR (n - 1))
    by (rewrite INR_IZR_INZ; f_equal; lia).
  unfold ndiv, Math_sin. cbn [nlift1].
  destruct (Req_dec_T (INR (n - 1)) 0) as [E|_]; [|reflexivity].
  assert (0 < INR (n - 1))%R by (apply lt_0_INR; lia). lra.
Qed.

Lemma window_angle_range (n i : nat) :
  2 <= n -> i < n -> (0 <= PI * INR i / INR (n - 1) <= PI)%R.
Proof.
  intros Hn Hi. assert (HPI := PI_RGT_0).
  assert (HN : (0 < INR (n - 1))%R) by (apply lt_0_INR; lia).
  assert (Hi0 : (0 <= INR i)%R) by apply pos_INR.
  assert (HiN : (INR i <= INR (n - 1))%R) by (apply le_INR; lia).
  split.
  - apply Rmult_le_pos; [nra|]. apply Rlt_le, Rinv_0_lt_compat. exact HN.
  - apply (Rmult_le_reg_r (INR (n - 1))); [exact HN|].
    unfold Rdiv. rewrite Rmult_assoc, Rinv_l by lra. nra.
Qed.

Lemma multiplier_bounds (n i : nat) :
  2 <= n -> i < n ->
  exists m : R,
    multipliers (newCosineWindow n) !! i = Some (Fin m) /\
    (-1 <= m <= 1)%R /\
    (i < n - 1 -> (0 <= m)%R) /\
    (i = 0 -> m = 0%R).
Proof.
  intros Hn Hi. exists (sin (PI * INR i / INR (n - 1))).
  assert (HN : (0 < INR (n - 1))%R) by (apply lt_0_INR; lia).
  split; [apply multiplier_finite; assumption|]. split; [|split].
  - apply SIN_bound.
  - intros _. destruct (window_angle_range n i Hn Hi) as [H0 H1].
    apply sin_ge_0; assumption.
  - intros ->.
    replace (PI * INR 0 / INR (n - 1))%R with 0%R by (simpl; field; lra).
    apply sin_0.
Qed.

(** X8. A [CosineWindow] built for a length [n] has [n] multipliers.  For
    [n = 1] the only one is [NaN], from [0 / 0].  For [n >= 2] each is a
    number between -1 and 1, none but the last is negative, and the first
    is 0. *)
Theorem newCosineWindow_shape (n : nat) :
  (Z.of_nat n < 2 ^ 32)%Z ->
  cw_length (newCosineWindow n) = n /\
  length (multipliers (newCosineWindow n)) = n /\
  multipliers (newCosineWindow 1) = [NaN] /\
  forall i, 2 <= n -> i < n ->
    exists m : R,
      multipliers (newCosineWindow n) !! i = Some (Fin m) /\
      (-1 <= m <= 1)%R /\
      (i < n - 1 -> (0 <= m)%R) /\
      (i = 0 -> m = 0%R).
Proof.
  intros _. split; [reflexivity|]. split; [|split].
  - unfold newCosineWindow. cbn [multipliers]. rewrite length_map, length_seq.
    reflexivity.
  - unfold newCosineWindow. cbn [multipliers seq map]. unfold ndiv.
    change (Z.of_nat 1 - 1)%Z with 0%Z.
    destruct (Req_dec_T (IZR 0) 0) as [_|H]; [reflexivity|].
    exfalso. apply H. reflexivity.
  - intros i Hn Hi. exact (multiplier_bounds n i Hn Hi).
Qed.

Lemma newCosineWindow_shape_witness :
  cw_length (newCosineWindow 8) = 8 /\
  length (multipliers (newCosineWindow 8)) = 8 /\
  multipliers (newCosineWindow 1) = [NaN] /\
  forall i, 2 <= 8 -> i < 8 ->
    exists m : R,
      multipliers (newCosineWindow 8) !! i = Some (Fin m) /\
      (-1 <= m <= 1)%R /\
      (i < 8 - 1 -> (0 <= m)%R) /\
      (i = 0 -> m = 0%R).
Proof. apply (newCosineWindow_shape 8). simpl. lia. Defined.

(** X9. [apply] keeps the length of the signal and leaves every slot at or
    past the shorter of the two lengths alone; a window of the signal's own
    length never amplifies a sample and zeroes the first. *)
Theorem apply_tapers (w : CosineWindow) (signal : list (option number))
    (xs : list R) :
  2 <= length xs ->
  length (apply w signal) = length signal /\
  (forall i, Nat.min (length signal) (cw_length w) <= i ->
             apply w signal !! i = signal !! i) /\
  (forall i x, xs !! i = Some x ->
     exists y : R,
       apply (newCosineWindow (length xs)) (map (fun x => Some (Fin x)) xs) !! i
       = Some (Some (Fin y)) /\
       (Rabs y <= Rabs x)%R /\
       (i = 0 -> y = 0%R)).
Proof.
  intros Hn. split; [apply length_apply|]. split.
  - intros i Hi. rewrite lookup_apply.
    destruct (decide (i < Nat.min (length signal) (cw_length w))); [lia|reflexivity].
  - intros i x Hx.
    assert (Hi : i < length xs) by (apply lookup_lt_Some in Hx; exact Hx).
    destruct (multiplier_bounds (length xs) i Hn Hi) as (m & Hm & Hr & _ & Hz).
    exists (x * m)%R. split.
    + rewrite lookup_apply, length_map. cbn [newCosineWindow cw_length].
      destruct (decide (i < Nat.min (length xs) (length xs))); [|lia].
      unfold windowedSlot. rewrite list_lookup_fmap, Hx, Hm. reflexivity.
    + split.
      * rewrite Rabs_mult.
        assert (Rabs m <= 1)%R by (apply Rabs_le; exact Hr).
        assert (0 <= Rabs x)%R by apply Rabs_pos.
        assert (0 <= Rabs m)%R by apply Rabs_pos. nra.
      * intros H. rewrite (Hz H). ring.
Qed.

Lemma apply_tapers_witness :
  length (apply (newCosineWindow 1) [Some (Fin 3); Some (Fin 4)]) = 2 /\
  (forall i, Nat.min (length [Some (Fin 3); Some (Fin 4)]) (cw_length (newCosineWindow 1)) <= i ->
             apply (newCosineWindow 1) [Some (Fin 3); Some (Fin 4)] !! i
             = [Some (Fin 3); Some (Fin 4)] !! i) /\
  (forall i x, [3%R; 4%R] !! i = Some x ->
     exists y : R,
       apply (newCosineWindow (length [3%R; 4%R]))
             (map (fun x => Some (Fin x)) [3%R; 4%R]) !! i
       = Some (Some (Fin y)) /\
       (Rabs y <= Rabs x)%R /\
       (i = 0 -> y = 0%R)).
Proof.
  apply (apply_tapers (newCosineWindow 1) [Some (Fin 3); Some (Fin 4)] [3%R; 4%R]).
  simpl. lia.
Defined.

(** ** [step] and [pick] *)

Lemma lookup_everyNth (s : nat) (a : list (option number)) :
  1 <= s ->
  forall k j, everyNth s k a !! j = a !! (k + j * s).
Proof.
  intros Hs. induction a as [|x a IH]; intros k j; [reflexivity|].
  cbn [everyNth]. destruct k as [|k].
  - destruct j as [|j]; [reflexivity|].
    rewrite lookup_cons_ne_0 by lia. cbn [Nat.pred]. rewrite IH.
    replace (0 + S j * s) with (S (s - 1 + j * s)) by lia. reflexivity.
  - rewrite IH. reflexivity.
Qed.

Lemma length_from_lookup {A : Type} (l : list A) (n : nat) :
  (forall j, is_Some (l !! j) <-> j < n) -> length l = n.
Proof.
  intros H.
  destruct (lt_eq_lt_dec (length l) n) as [[Hlt|Heq]|Hgt]; [|exact Heq|].
  - assert (Hs : is_Some (l !! length l)) by (apply H; exact Hlt).
    apply lookup_lt_is_Some in Hs. lia.
  - assert (Hs : is_Some (l !! n)) by (apply lookup_lt_is_Some; exact Hgt).
    apply H in Hs. lia.
Qed.

Lemma length_everyNth (s : nat) (a : list (option number)) :
  1 <= s -> length (everyNth s 0 a) = (length a + s - 1) / s.
Proof.
  intros Hs. apply length_from_lookup. intros j.
  rewrite lookup_everyNth by exact Hs. rewrite lookup_lt_is_Some.
  cbn [Nat.add]. apply hop_lt_iff. lia.
Qed.

Lemma div_up_exact (n s : nat) : 1 <= s -> n mod s = 0 -> (n + s - 1) / s = n / s.
Proof.
  intros Hs Hm.
  assert (E := Nat.div_mod_eq n s). rewrite Hm, Nat.add_0_r in E.
  symmetry. apply (Nat.div_unique (n + s - 1) s (n / s) (s - 1)); [lia|].
  lia.
Qed.

(** X10. For a stride of 2 or more that divides the length, [step] returns
    every [s]-th slot, [length / s] of them; when the stride does not divide
    the length, or is 0, allocating the output raises a [RangeError]; a
    stride of 1 copies. *)
Theorem step_stride (a : list (option number)) (s : nat) :
  2 <= s ->
  (length a mod s = 0 ->
   exists out,
     step a s = Ok out /\
     length out = length a / s /\
     forall j, j < length a / s -> out !! j = a !! (j * s)) /\
  (length a mod s <> 0 -> step a s = Throw RangeError) /\
  step a 0 = Throw RangeError /\
  step a 1 = Ok a.
Proof.
  intros Hs. unfold step.
  destruct (s =? 1) eqn:E1; [apply Nat.eqb_eq in E1; lia|].
  destruct (s =? 0) eqn:E0; [apply Nat.eqb_eq in E0; lia|].
  split; [|split; [|split; reflexivity]].
  - intros Hm. rewrite Hm. cbn [Nat.eqb].
    exists (everyNth s 0 a). split; [reflexivity|]. split.
    + rewrite length_everyNth by lia. apply div_up_exact; [lia|exact Hm].
    + intros j _. rewrite lookup_everyNth by lia. reflexivity.
  - intros Hm. destruct (length a mod s =? 0) eqn:E; [|reflexivity].
    apply Nat.eqb_eq in E. contradiction.
Qed.

Lemma step_stride_witness :
  (length (silence 16) mod 2 = 0 ->
   exists out,
     step (silence 16) 2 = Ok out /\
     length out = length (silence 16) / 2 /\
     forall j, j < length (silence 16) / 2 -> out !! j = silence 16 !! (j * 2)) /\
  (length (silence 16) mod 2 <> 0 -> step (silence 16) 2 = Throw RangeError) /\
  step (silence 16) 0 = Throw RangeError /\
  step (silence 16) 1 = Ok (silence 16).
Proof. apply (step_stride (silence 16) 2). lia. Defined.

Lemma everyNth_skip (s : nat) :
  forall (a : list (option number)) k, everyNth s k a = everyNth s 0 (drop k a).
Proof.
  induction a as [|x a IH]; intros k.
  - rewrite drop_nil. reflexivity.
  - destruct k as [|k]; [reflexivity|]. cbn [everyNth drop]. apply IH.
Qed.

Lemma pickLoop_spec (a : list (option number)) (s : nat) :
  1 <= s ->
  forall fuel i o,
    length a <= fuel + i ->
    pickLoop a s fuel i o = Ok (o ++ everyNth s 0 (drop i a)).
Proof.
  intros Hs. induction fuel as [|fuel IH]; intros i o Hfuel.
  - cbn [pickLoop]. destruct (i <? length a) eqn:E; [apply Nat.ltb_lt in E; lia|].
    rewrite drop_ge by lia. rewrite app_nil_r. reflexivity.
  - cbn [pickLoop]. destruct (i <? length a) eqn:E.
    + apply Nat.ltb_lt in E.
      destruct (lookup_lt_is_Some_2 a i E) as [x Hx].
      rewrite IH by lia. rewrite Hx. cbn [mjoin option_join].
      rewrite (drop_S a x i Hx). cbn [everyNth].
      rewrite (everyNth_skip s (drop (S i) a) (s - 1)), drop_drop, <- app_assoc.
      replace (S i + (s - 1)) with (i + s) by lia. reflexivity.
    + apply Nat.ltb_ge in E. rewrite drop_ge by lia.
      rewrite app_nil_r. reflexivity.
Qed.

Lemma pickLoop_step_zero (a : list (option number)) :
  forall fuel i o, i < length a -> pickLoop a 0 fuel i o = OutOfFuel.
Proof.
  induction fuel as [|fuel IH]; intros i o Hi; cbn [pickLoop];
    (destruct (i <? length a) eqn:E; [|apply Nat.ltb_ge in E; lia]);
    [reflexivity|].
  rewrite Nat.add_0_r. apply IH. exact Hi.
Qed.

(** X11. For a stride of 1 or more the demo's [pick] returns every [s]-th
    slot, the length divided by the stride and rounded up; it agrees with
    [step] wherever [step] does not throw; with a stride of 0 it never
    leaves its loop on a non-empty array. *)
Theorem pick_stride (a : list (option number)) (s : nat) :
  1 <= s ->
  (exists out,
      pick a s = Ok out /\
      length out = (length a + s - 1) / s /\
      (forall j, out !! j = a !! (j * s))) /\
  (2 <= s -> length a mod s = 0 -> pick a s = step a s) /\
  (a <> [] -> forall fuel, pickLoop a 0 fuel 0 [] = OutOfFuel).
Proof.
  intros Hs.
  assert (E : pick a s = Ok (everyNth s 0 a)).
  { unfold pick. rewrite pickLoop_spec by lia. reflexivity. }
  split; [|split].
  - exists (everyNth s 0 a). split; [exact E|]. split.
    + apply length_everyNth. exact Hs.
    + intros j. rewrite lookup_everyNth by exact Hs. reflexivity.
  - intros Hs2 Hm. rewrite E. unfold step.
    destruct (s =? 1) eqn:E1; [apply Nat.eqb_eq in E1; lia|].
    destruct (s =? 0) eqn:E0; [apply Nat.eqb_eq in E0; lia|].
    rewrite Hm. reflexivity.
  - intros Hne fuel. apply pickLoop_step_zero.
    destruct a; [contradiction|cbn; lia].
Qed.

Lemma pick_stride_witness :
  (exists out,
      pick (ones 11) 2 = Ok out /\
      length out = (length (ones 11) + 2 - 1) / 2 /\
      (forall j, out !! j = ones 11 !! (j * 2))) /\
  (2 <= 2 -> length (ones 11) mod 2 = 0 -> pick (ones 11) 2 = step (ones 11) 2) /\
  (ones 11 <> [] -> forall fuel, pickLoop (ones 11) 0 fuel 0 [] = OutOfFuel).
Proof. apply (pick_stride (ones 11) 2). lia. Defined.

(** ** [hftnnForward]: outcomes and the caller's array *)

(** X12. A call of [hftnnForward] on a signal either fails before touching
    it (bad length, missing properties, no kernel plan, or a [dftSize] whose
    [2 * dftSize] slots no array can have), leaving the caller's array as it
    was, or windows the array in place and then returns a frame; the loops
    over the bins never throw. *)
Theorem hftnnForward_outcomes (K : FFTKernel) (sig : list (option number))
    (properties : option HFTNNProperties) (fw : option CosineWindow) :
  let r := hftnnForward K (Some sig) properties fw in
  let windowed := apply (chooseWindow fw (length sig)) sig in
  ((exists hft, snd r = Ok hft) \/ snd r = Throw RangeError) /\ fst r = Some windowed
  \/
  (snd r = Throw (InvalidInput BadLength) \/
   snd r = Throw (InvalidInput NoProperties) \/
   snd r = Throw KernelError \/
   snd r = Throw RangeError) /\ fst r = Some sig.
Proof.
  cbn zeta. unfold hftnnForward.
  destruct (isPowerOfTwo (Z.of_nat (length sig))); cbn [negb];
    [|right; split; [left; reflexivity|reflexivity]].
  destruct properties as [p|];
    [|right; split; [right; left; reflexivity|reflexivity]].
  destruct (fft_construct K (dftSize p)); cbn [negb];
    [|right; split; [right; right; left; reflexivity|reflexivity]].
  unfold createComplexArray.
  destruct (isArrayLength _);
    [|right; split; [right; right; right; reflexivity|reflexivity]].
  left. cbn [fst snd]. split; [|reflexivity].
  destruct (Nat.odd _); [right; reflexivity|]. left.
  match goal with
  | |- context [octLoop ?T p ?len ?n 0 ?st0] =>
      destruct (octLoop_ok T p len n 0 st0) as (st' & E & _); rewrite E
  end.
  rewrite bind_Ok. eexists. reflexivity.
Qed.

Lemma createComplexArray_oversized (size : nat) :
  (2 ^ 31 <= Z.of_nat size)%Z -> createComplexArray size = Throw RangeError.
Proof.
  intros H. unfold createComplexArray, isArrayLength.
  replace (Z.of_nat (size * 2) <? 2 ^ 32)%Z with false
    by (symmetry; apply Z.ltb_ge; lia).
  rewrite andb_false_r. reflexivity.
Qed.

(** X26. A [dftSize] of [2^31] or more, whose [2 * dftSize] interleaved
    slots no array can hold, never gives a result: past its validation
    [hftnnForward] raises the kernel's error or the [RangeError] of
    [createComplexArray], before the window is applied, so that the
    caller's array is left as it was; [hftnnInverse] raises one of the two
    as well. *)
Theorem oversized_dftSize_rejected (K : FFTKernel) (sig : list (option number))
    (hft : list (number * number)) (p : HFTNNProperties)
    (fw : option CosineWindow) :
  isPowerOfTwo (Z.of_nat (length sig)) = true ->
  (2 ^ 31 <= Z.of_nat (dftSize p))%Z ->
  fst (hftnnForward K (Some sig) (Some p) fw) = Some sig /\
  (snd (hftnnForward K (Some sig) (Some p) fw) = Throw KernelError \/
   snd (hftnnForward K (Some sig) (Some p) fw) = Throw RangeError) /\
  (hftnnInverse K (Some hft) (Some p) = Throw KernelError \/
   hftnnInverse K (Some hft) (Some p) = Throw RangeError).
Proof.
  intros Hsig Hbig. unfold hftnnForward, hftnnInverse.
  rewrite Hsig, (createComplexArray_oversized _ Hbig). cbn [negb].
  destruct (fft_construct K (dftSize p)); cbn [negb fst snd bind].
  - split; [reflexivity|]. split; right; reflexivity.
  - split; [reflexivity|]. split; left; reflexivity.
Qed.

Lemma oversized_dftSize_rejected_witness :
  let p := {| sampleRate := 44100; fundamental := 16.351597831287414;
              frequenciesInOctave := 12; octaveRange := 11; extraBins := 2;
              interpolatedChunks := 0; dftSize := Z.to_nat (2 ^ 31) |} in
  fst (hftnnForward dftKernel (Some (ones 8)) (Some p) None) = Some (ones 8) /\
  (snd (hftnnForward dftKernel (Some (ones 8)) (Some p) None) = Throw KernelError \/
   snd (hftnnForward dftKernel (Some (ones 8)) (Some p) None) = Throw RangeError) /\
  (hftnnInverse dftKernel (Some [(Fin 1, Fin 0)]) (Some p) = Throw KernelError \/
   hftnnInverse dftKernel (Some [(Fin 1, Fin 0)]) (Some p) = Throw RangeError).
Proof.
  intros p.
  apply (oversized_dftSize_rejected dftKernel (ones 8) [(Fin 1, Fin 0)] p None).
  - reflexivity.
  - unfold p. cbn [dftSize]. lia.
Defined.

(** X13. The centre bin of an interval is never range-checked, and a low
    neighbour only against 0: the centre entry is the polar form of the
    spectrum at its bin, and an entry of either kind whose bin is at or past
    [dftSize] reads past the spectrum and is [(NaN, NaN)]. *)
Theorem hftnnForward_unchecked_bins (K : FFTKernel) (sig : list (option number))
    (p : HFTNNProperties) (fw : option CosineWindow) :
  FFTContract K ->
  isPowerOfTwo (Z.of_nat (length sig)) = true ->
  validDftSize p ->
  validFrequencies p ->
  exists hft,
    snd (hftnnForward K (Some sig) (Some p) fw) = Ok hft /\
    forall j k,
      j < octaveRange p * frequenciesInOctave p ->
      k <= extraBins p ->
      let idx := (intervalBin p (length sig) j
                  + Z.of_nat k - Z.of_nat (extraBins p))%Z in
      let pos := j * (2 * extraBins p + 1) + k in
      (k = extraBins p ->
       hft !! pos =
       Some (polarAt (spectrumOf K p (apply (chooseWindow fw (length sig)) sig))
                     idx)) /\
      ((Z.of_nat (dftSize p) <= idx)%Z -> hft !! pos = Some (NaN, NaN)).
Proof.
  intros HK Hsig Hdft Hvalid.
  destruct (hftnnForward_lookup K sig p fw HK Hsig Hdft Hvalid) as (hft & E & Hpos).
  exists hft. split; [exact E|]. intros j k Hj Hk idx pos.
  specialize (Hpos j k Hj ltac:(lia)). cbn zeta in Hpos. fold idx pos in Hpos.
  rewrite Hpos. split.
  - intros ->. rewrite Nat.ltb_irrefl, Nat.eqb_refl. reflexivity.
  - intros Hidx.
    assert (HT : polarAt (spectrumOf K p (apply (chooseWindow fw (length sig)) sig)) idx
                 = (NaN, NaN)).
    { apply polarAt_past_end. rewrite spectrumOf_length by exact HK. lia. }
    destruct (k <? extraBins p) eqn:E1.
    + unfold lowEntry.
      destruct (idx <? 0)%Z eqn:E2; [apply Z.ltb_lt in E2; lia|].
      rewrite HT. reflexivity.
    + apply Nat.ltb_ge in E1. assert (k = extraBins p) by lia. subst k.
      rewrite Nat.eqb_refl, HT. reflexivity.
Qed.

Lemma hftnnForward_unchecked_bins_witness :
  exists hft,
    snd (hftnnForward dftKernel (Some (silence 8)) (Some propsHigh) None) = Ok hft /\
    forall j k,
      j < octaveRange propsHigh * frequenciesInOctave propsHigh ->
      k <= extraBins propsHigh ->
      let idx := (intervalBin propsHigh (length (silence 8)) j
                  + Z.of_nat k - Z.of_nat (extraBins propsHigh))%Z in
      let pos := j * (2 * extraBins propsHigh + 1) + k in
      (k = extraBins propsHigh ->
       hft !! pos =
       Some (polarAt (spectrumOf dftKernel propsHigh
                        (apply (chooseWindow None (length (silence 8))) (silence 8)))
                     idx)) /\
      ((Z.of_nat (dftSize propsHigh) <= idx)%Z -> hft !! pos = Some (NaN, NaN)).
Proof.
  apply (hftnnForward_unchecked_bins dftKernel (silence 8) propsHigh None).
  - exact dftKernel_contract.
  - reflexivity.
  - exact validDftSize_propsHigh.
  - exact validFrequencies_propsHigh.
Defined.

(** ** Silence *)

Lemma apply_silence (n : nat) :
  2 <= n -> apply (newCosineWindow n) (silence n) = silence n.
Proof.
  intros Hn. apply list_eq. intros i. rewrite lookup_apply.
  unfold silence. rewrite length_replicate. cbn [newCosineWindow cw_length].
  destruct (decide (i < Nat.min n n)) as [Hi|Hi]; [|reflexivity].
  unfold windowedSlot.
  rewrite lookup_replicate_2 by lia.
  rewrite multipliers_newCosineWindow by lia.
  cbn [mjoin option_join toNumber default].
  unfold ndiv.
  destruct (Req_dec_T (IZR (Z.of_nat n - 1)) 0) as [E|_].
  - apply eq_IZR in E. lia.
  - cbn [Math_sin nlift1]. unfold nmul, Datatypes.id. cbn [nlift2].
    rewrite Rmult_0_l. reflexivity.
Qed.

Lemma fftBinToMagnitudePhase_zero :
  fftBinToMagnitudePhase (Fin 0) (Fin 0) = (Fin 0, Fin 0).
Proof.
  unfold fftBinToMagnitudePhase. cbn [nmul nadd nlift2 Math_atan2].
  replace (0 * 0 + 0 * 0)%R with 0%R by ring.
  unfold Math_sqrt. destruct (Rlt_dec 0 0) as [H|_]; [lra|].
  rewrite sqrt_0. unfold Ratan2.
  destruct (Rlt_dec 0 0) as [H|_]; [lra|]. reflexivity.
Qed.

Lemma polarAt_zero (T : list (option number)) (idx : Z) :
  (0 <= idx)%Z ->
  T !! Z.to_nat (idx * 2) = Some (Some (Fin 0)) ->
  T !! Z.to_nat (idx * 2 + 1) = Some (Some (Fin 0)) ->
  polarAt T idx = (Fin 0, Fin 0).
Proof.
  intros H0 H1 H2. unfold polarAt.
  rewrite <- (Z2Nat.id (idx * 2)) at 1 by lia.
  rewrite <- (Z2Nat.id (idx * 2 + 1)) by lia.
  rewrite (arrayGet_of_nat T _ (Fin 0) H1), (arrayGet_of_nat T _ (Fin 0) H2).
  apply fftBinToMagnitudePhase_zero.
Qed.

Lemma intervalBin_nonneg (p : HFTNNProperties) (len j : nat) :
  validFrequencies p -> (0 <= intervalBin p len j)%Z.
Proof.
  intros (Hsr & Hf & Hn). unfold intervalBin, freqToFftBin.
  rewrite <- (Math_round_IZR 0). apply Math_round_mono.
  unfold intervalToFreq.
  assert (0 < Rpower 2 (INR j / INR (frequenciesInOctave p)))%R
    by (unfold Rpower; apply exp_pos).
  assert (0 <= INR len)%R by apply pos_INR.
  assert (0 < / sampleRate p)%R by (apply Rinv_0_lt_compat; exact Hsr).
  unfold Rdiv. apply Rmult_le_pos; [|lra]. apply Rmult_le_pos; [|lra]. nra.
Qed.

Lemma length_concat_blocks {A : Type} (f : nat -> list A) (w : nat) :
  (forall x, length (f x) = w) ->
  forall n a, length (concat (map f (seq a n))) = n * w.
Proof.
  intros Hw. induction n as [|n IH]; intros a; [reflexivity|].
  cbn [seq map concat]. rewrite length_app, Hw, IH. lia.
Qed.

(** X14. Silence gives a zero frame: when the kernel maps a zero signal to
    a zero spectrum and every centre bin lies below [dftSize], the frame of
    [dftSize] zero samples is all [(0, 0)], and the signal is still zero
    after windowing. *)
Theorem hftnnForward_silence (K : FFTKernel) (p : HFTNNProperties)
    (fw : option CosineWindow) :
  FFTContract K ->
  (forall size data,
      (forall i, i < size -> data !! i = Some (Some (Fin 0))) ->
      fft_realTransform K size (complexZeros size) data
      = complexZeros size) ->
  validDftSize p -> validFrequencies p -> constructed fw ->
  (forall j, j < octaveRange p * frequenciesInOctave p ->
             (intervalBin p (dftSize p) j < Z.of_nat (dftSize p))%Z) ->
  hftnnForward K (Some (silence (dftSize p))) (Some p) fw
  = (Some (silence (dftSize p)),
     Ok (replicate (octaveRange p * frequenciesInOctave p * (2 * extraBins p + 1))
                   (Fin 0, Fin 0))).
Proof.
  intros HK Hzero Hdft Hvalid Hfw Hbins.
  assert (Hd2 : 2 <= dftSize p).
  { destruct (validDftSize_even p Hdft). lia. }
  assert (Hlen : length (silence (dftSize p)) = dftSize p)
    by (unfold silence; apply length_replicate).
  rewrite (hftnnForward_spec K _ p fw HK); [|rewrite Hlen; exact (proj1 Hdft)|exact Hdft|exact Hvalid].
  cbn zeta. rewrite Hlen, (chooseWindow_constructed fw _ Hfw), apply_silence by exact Hd2.
  f_equal. f_equal.
  assert (HT : spectrumOf K p (silence (dftSize p)) = complexZeros (dftSize p)).
  { unfold spectrumOf. apply Hzero. intros i Hi. unfold silence.
    apply lookup_replicate_2. exact Hi. }
  rewrite HT.
  apply list_eq. intros pos.
  destruct (decide (pos < octaveRange p * frequenciesInOctave p * (2 * extraBins p + 1)))
    as [Hpos|Hpos].
  - rewrite lookup_replicate_2 by exact Hpos.
    set (w := 2 * extraBins p + 1) in *.
    assert (Hw : pos = pos / w * w + pos mod w).
    { rewrite (Nat.div_mod_eq pos w) at 1. lia. }
    assert (Hk : pos mod w < w) by (apply Nat.mod_upper_bound; lia).
    assert (Hj : pos / w < octaveRange p * frequenciesInOctave p).
    { apply Nat.Div0.div_lt_upper_bound. lia. }
    rewrite Hw.
    rewrite (lookup_concat_blocks _ w
               (fun x => length_intervalEntries _ _ _ _ x)) by assumption.
    cbn [Nat.add]. rewrite lookup_intervalEntries by exact Hk. f_equal.
    set (idx := (intervalBin p (dftSize p) (pos / w) + Z.of_nat (pos mod w)
                 - Z.of_nat (extraBins p))%Z).
    assert (Hb0 := intervalBin_nonneg p (dftSize p) (pos / w) Hvalid).
    assert (Hb1 := Hbins (pos / w) Hj).
    assert (Hpolar : (0 <= idx < Z.of_nat (dftSize p))%Z ->
                     polarAt (complexZeros (dftSize p)) idx = (Fin 0, Fin 0)).
    { intros Hidx. unfold complexZeros.
      apply polarAt_zero; [lia| |]; apply lookup_replicate_2; lia. }
    destruct (pos mod w <? extraBins p) eqn:E1.
    + apply Nat.ltb_lt in E1. unfold lowEntry.
      destruct (idx <? 0)%Z eqn:E2; [reflexivity|].
      apply Z.ltb_ge in E2. apply Hpolar. unfold idx. lia.
    + apply Nat.ltb_ge in E1. destruct (pos mod w =? extraBins p) eqn:E2.
      * apply Nat.eqb_eq in E2. apply Hpolar. unfold idx. lia.
      * unfold highEntry.
        destruct (Z.of_nat (dftSize p) <=? idx)%Z eqn:E3; [reflexivity|].
        apply Z.leb_gt in E3. apply Nat.eqb_neq in E2.
        apply Hpolar. unfold idx in *. lia.
  - rewrite (proj1 (lookup_replicate_None _ (Fin 0%R, Fin 0%R) pos)) by lia.
    apply lookup_ge_None_2.
    rewrite (length_concat_blocks _ (2 * extraBins p + 1)
               (fun x => length_intervalEntries _ _ _ _ x)). lia.
Qed.

Lemma dftBin_zero (size : nat) (data : list (option number)) (k : nat) :
  (forall i, i < size -> data !! i = Some (Some (Fin 0))) ->
  dftBin size data k = (Fin 0, Fin 0).
Proof.
  intros Hdata. unfold dftBin.
  rewrite !sumN_zero; [reflexivity| |]; intros t Ht;
    rewrite (arrayGet_of_nat data t (Fin 0)) by (apply Hdata; exact Ht);
    simpl; f_equal; ring.
Qed.

Lemma dftKernel_realTransform_zero (size : nat) (data : list (option number)) :
  (forall i, i < size -> data !! i = Some (Some (Fin 0))) ->
  fft_realTransform dftKernel size (complexZeros size) data
  = complexZeros size.
Proof.
  intros Hdata. cbn [dftKernel fft_realTransform].
  apply list_eq. intros i. unfold writeInterleaved, complexZeros.
  rewrite list_lookup_imap.
  destruct (decide (i < size * 2)) as [Hi|Hi].
  - rewrite lookup_replicate_2 by exact Hi. cbn [fmap option_fmap option_map].
    destruct (i <? 2 * size) eqn:E; [|apply Nat.ltb_ge in E; lia].
    rewrite dftBin_zero by exact Hdata.
    destruct (Nat.even i); reflexivity.
  - rewrite (proj1 (lookup_replicate_None (size * 2) (Some (Fin 0%R)) i)) by lia.
    reflexivity.
Qed.

Lemma intervalBin_props8 : intervalBin props8 8 0 = 0%Z.
Proof.
  unfold intervalBin, freqToFftBin, intervalToFreq, props8.
  cbn [fundamental sampleRate frequenciesInOctave].
  replace (INR 0 / INR 1)%R with 0%R by (simpl; field).
  rewrite Rpower_O by lra. rewrite INR_IZR_INZ. change (Z.of_nat 8) with 8%Z.
  unfold Math_round. apply Int_part_IZR; lra.
Qed.

Lemma validFrequencies_props8 : validFrequencies props8.
Proof. unfold validFrequencies, props8. cbn. repeat split; try lra; lia. Qed.

Lemma hftnnForward_silence_witness :
  hftnnForward dftKernel (Some (silence (dftSize props8))) (Some props8) None
  = (Some (silence (dftSize props8)),
     Ok (replicate (octaveRange props8 * frequenciesInOctave props8
                    * (2 * extraBins props8 + 1))
                   (Fin 0, Fin 0))).
Proof.
  apply (hftnnForward_silence dftKernel props8 None).
  - exact dftKernel_contract.
  - exact dftKernel_realTransform_zero.
  - exact validDftSize_props8.
  - exact validFrequencies_props8.
  - exact I.
  - intros j Hj. change (octaveRange props8 * frequenciesInOctave props8) with 1 in Hj.
    assert (j = 0) by lia. subst j. change (dftSize props8) with 8.
    rewrite intervalBin_props8. lia.
Defined.

(** X15. With valid properties the bins of the harmonic intervals are
    never negative and never decrease from one interval to the next. *)
Theorem intervalBin_ordered (p : HFTNNProperties) (len i j : nat) :
  validFrequencies p -> i <= j ->
  (0 <= intervalBin p len i <= intervalBin p len j)%Z.
Proof.
  intros Hvalid Hij. split; [apply intervalBin_nonneg; exact Hvalid|].
  apply intervalBin_mono; assumption.
Qed.

Lemma intervalBin_ordered_witness :
  (0 <= intervalBin propsSkip 8 0 <= intervalBin propsSkip 8 1)%Z.
Proof.
  apply (intervalBin_ordered propsSkip 8 0 1).
  - exact validFrequencies_propsSkip.
  - lia.
Defined.

(** ** An invalid [dftSize] *)

Lemma temporalLoop_first_chunk_rejected (K : FFTKernel)
    (signal : list (option number)) (p : HFTNNProperties) (w : CosineWindow)
    (fuel : nat) :
  isPowerOfTwo (Z.of_nat (dftSize p)) = false ->
  0 < length signal ->
  temporalLoop K signal p w (S fuel) 0 0 [] = Throw (InvalidInput BadLength).
Proof.
  intros Hpow Hlen. cbn [temporalLoop].
  destruct (0 <? length signal) eqn:E; [|apply Nat.ltb_ge in E; lia].
  unfold processCondition. cbn [Nat.eqb orb].
  unfold hftnnForward. rewrite length_chunkAt, Hpow. reflexivity.
Qed.

(** X16. With a [dftSize] that is not a power of two above 1,
    [hftnnForwardTemporal] raises the length error of [hftnnForward] on its
    first chunk; on a signal shorter than [dftSize] the caller's array has
    already been resized by then, unless [dftSize] is [2^32] or more: then
    the resizing itself raises a [RangeError] and the array is left as it
    was.  Only the empty signal with [dftSize = 0] returns, with no
    frame. *)
Theorem hftnnForwardTemporal_invalid_dftSize (K : FFTKernel)
    (signal : list (option number)) (p : HFTNNProperties) :
  isPowerOfTwo (Z.of_nat (dftSize p)) = false ->
  (length signal < dftSize p -> (Z.of_nat (dftSize p) < 2 ^ 32)%Z ->
   hftnnForwardTemporal K signal p
   = (resized signal (dftSize p), Throw (InvalidInput BadLength))) /\
  (length signal < dftSize p -> (2 ^ 32 <= Z.of_nat (dftSize p))%Z ->
   hftnnForwardTemporal K signal p = (signal, Throw RangeError)) /\
  (dftSize p <= length signal -> signal <> [] ->
   hftnnForwardTemporal K signal p = (signal, Throw (InvalidInput BadLength))) /\
  (signal = [] -> dftSize p = 0 -> hftnnForwardTemporal K signal p = ([], Ok [])).
Proof.
  intros Hpow. unfold hftnnForwardTemporal. split; [|split; [|split]].
  - intros Hshort Hlt.
    destruct (length signal <? dftSize p) eqn:E; [|apply Nat.ltb_ge in E; lia].
    unfold setLength, isArrayLength.
    replace (0 <=? Z.of_nat (dftSize p))%Z with true
      by (symmetry; apply Z.leb_le; lia).
    replace (Z.of_nat (dftSize p) <? 2 ^ 32)%Z with true
      by (symmetry; apply Z.ltb_lt; lia).
    cbn [andb]. unfold hftnnForward. rewrite length_resized, Hpow. reflexivity.
  - intros Hshort Hge.
    destruct (length signal <? dftSize p) eqn:E; [|apply Nat.ltb_ge in E; lia].
    unfold setLength, isArrayLength.
    replace (Z.of_nat (dftSize p) <? 2 ^ 32)%Z with false
      by (symmetry; apply Z.ltb_ge; lia).
    rewrite andb_false_r. reflexivity.
  - intros Hlong Hne.
    destruct (length signal <? dftSize p) eqn:E; [apply Nat.ltb_lt in E; lia|].
    destruct signal as [|x signal]; [contradiction|].
    cbn [length]. rewrite temporalLoop_first_chunk_rejected;
      [reflexivity|exact Hpow|cbn [length]; lia].
  - intros -> Hd. rewrite Hd. reflexivity.
Qed.

Lemma hftnnForwardTemporal_invalid_dftSize_witness :
  let p := {| sampleRate := 44100; fundamental := 16.351597831287414;
              frequenciesInOctave := 12; octaveRange := 11; extraBins := 2;
              interpolatedChunks := 0; dftSize := 6 |} in
  (length (ones 3) < dftSize p -> (Z.of_nat (dftSize p) < 2 ^ 32)%Z ->
   hftnnForwardTemporal dftKernel (ones 3) p
   = (resized (ones 3) (dftSize p), Throw (InvalidInput BadLength))) /\
  (length (ones 3) < dftSize p -> (2 ^ 32 <= Z.of_nat (dftSize p))%Z ->
   hftnnForwardTemporal dftKernel (ones 3) p = (ones 3, Throw RangeError)) /\
  (dftSize p <= length (ones 3) -> ones 3 <> [] ->
   hftnnForwardTemporal dftKernel (ones 3) p = (ones 3, Throw (InvalidInput BadLength))) /\
  (ones 3 = [] -> dftSize p = 0 -> hftnnForwardTemporal dftKernel (ones 3) p = ([], Ok [])).
Proof.
  intros p. apply (hftnnForwardTemporal_invalid_dftSize dftKernel (ones 3) p).
  reflexivity.
Defined.

(** ** Chunks *)

(** X17. Slot [t] of the chunk at offset [i] is sample [i + t] of the
    signal, or 0 past its end; so a chunk [h] samples further on is the same
    chunk shifted by [h]. *)
Theorem chunkAt_contents (signal : list (option number)) (p : HFTNNProperties)
    (i t : nat) :
  t < dftSize p ->
  chunkAt signal p i !! t =
    (if i + t <? length signal then signal !! (i + t) else Some (Some (Fin 0))) /\
  (forall h, t + h < dftSize p ->
             chunkAt signal p (i + h) !! t = chunkAt signal p i !! (t + h)).
Proof.
  assert (H : forall i t, t < dftSize p ->
            chunkAt signal p i !! t =
            if i + t <? length signal then signal !! (i + t)
            else Some (Some (Fin 0))).
  { clear i t. intros i t Ht. unfold chunkAt, fill.
    rewrite length_resized, length_slice.
    replace (i + dftSize p - i) with (dftSize p) by lia.
    destruct (i + t <? length signal) eqn:E.
    - apply Nat.ltb_lt in E.
      rewrite lookup_app_l by (rewrite length_take, length_resized; lia).
      rewrite lookup_take_lt by lia.
      rewrite lookup_resized_keep by (first [rewrite length_slice; lia | lia]).
      unfold slice. rewrite lookup_take_lt by lia. apply lookup_drop.
    - apply Nat.ltb_ge in E.
      rewrite lookup_app_r by (rewrite length_take, length_resized; lia).
      rewrite length_take, length_resized.
      apply lookup_replicate_2. lia. }
  intros Ht. split; [apply H; exact Ht|].
  intros h Hh. rewrite !H by lia.
  replace (i + h + t) with (i + (t + h)) by lia. reflexivity.
Qed.

Lemma chunkAt_contents_witness :
  chunkAt (ones 11) props8 8 !! 5 =
    (if 8 + 5 <? length (ones 11) then ones 11 !! (8 + 5) else Some (Some (Fin 0))) /\
  (forall h, 5 + h < dftSize props8 ->
             chunkAt (ones 11) props8 (8 + h) !! 5 = chunkAt (ones 11) props8 8 !! (5 + h)).
Proof. apply (chunkAt_contents (ones 11) props8 8 5). cbn. lia. Defined.

(** ** The number of frames *)

Lemma div_up_succ (n m : nat) :
  1 <= m ->
  (S n + m - 1) / m = (n + m - 1) / m + (if n mod m =? 0 then 1 else 0).
Proof.
  intros Hm. assert (E := Nat.div_mod_eq n m).
  assert (Hr : n mod m < m) by (apply Nat.mod_upper_bound; lia).
  destruct (n mod m =? 0) eqn:E0.
  - apply Nat.eqb_eq in E0.
    rewrite <- (Nat.div_unique (n + m - 1) m (n / m) (m - 1)) by lia.
    symmetry. apply (Nat.div_unique (S n + m - 1) m (n / m + 1) 0); lia.
  - apply Nat.eqb_neq in E0.
    rewrite <- (Nat.div_unique (n + m - 1) m (n / m + 1) (n mod m - 1)) by lia.
    symmetry. apply (Nat.div_unique (S n + m - 1) m (n / m + 1 + 0) (n mod m)); lia.
Qed.

Lemma count_multiples (m n : nat) :
  1 <= m ->
  length (List.filter (fun k => k mod m =? 0) (seq 0 n)) = (n + m - 1) / m.
Proof.
  intros Hm. induction n as [|n IH].
  - cbn [seq List.filter length]. symmetry. apply Nat.div_small. lia.
  - rewrite seq_S, List.filter_app, length_app, IH, div_up_succ by exact Hm.
    cbn [Nat.add List.filter]. destruct (n mod m =? 0); reflexivity.
Qed.

(** X18. [hftnnForwardTemporal] returns one frame for a signal shorter
    than [dftSize], and otherwise the hop count divided by
    [interpolatedChunks + 1], rounded up; with no interpolation, one frame
    per hop of [dftSize / 2] samples. *)
Theorem hftnnForwardTemporal_frame_count (K : FFTKernel)
    (signal : list (option number)) (p : HFTNNProperties) :
  FFTContract K -> validDftSize p ->
  exists hftnns,
    snd (hftnnForwardTemporal K signal p) = Ok hftnns /\
    (length signal < dftSize p -> length hftnns = 1) /\
    (dftSize p <= length signal ->
     length hftnns
     = (hopCount signal p + interpolatedChunks p) / (interpolatedChunks p + 1) /\
     (interpolatedChunks p = 0 ->
      length hftnns = (length signal + dftSize p / 2 - 1) / (dftSize p / 2))).
Proof.
  intros HK Hdft.
  destruct (le_lt_dec (dftSize p) (length signal)) as [Hlong|Hshort].
  - rewrite (hftnnForwardTemporal_long K signal p HK Hdft Hlong). cbn [snd].
    eexists. split; [reflexivity|]. split; [lia|]. intros _.
    rewrite length_map. unfold keptHops.
    rewrite count_multiples by lia.
    replace (hopCount signal p + S (interpolatedChunks p) - 1)
      with (hopCount signal p + interpolatedChunks p) by lia.
    replace (S (interpolatedChunks p)) with (interpolatedChunks p + 1) by lia.
    split; [reflexivity|]. intros ->. cbn [Nat.add].
    rewrite Nat.add_0_r, Nat.div_1_r. reflexivity.
  - destruct (hftnnForwardTemporal_short K signal p HK Hdft Hshort)
      as (hft & _ & _ & E).
    rewrite E. cbn [snd]. exists [hft]. split; [reflexivity|].
    split; [reflexivity|lia].
Qed.

Lemma hftnnForwardTemporal_frame_count_witness :
  exists hftnns,
    snd (hftnnForwardTemporal dftKernel (ones 11) propsSkip) = Ok hftnns /\
    (length (ones 11) < dftSize propsSkip -> length hftnns = 1) /\
    (dftSize propsSkip <= length (ones 11) ->
     length hftnns
     = (hopCount (ones 11) propsSkip + interpolatedChunks propsSkip)
       / (interpolatedChunks propsSkip + 1) /\
     (interpolatedChunks propsSkip = 0 ->
      length hftnns
      = (length (ones 11) + dftSize propsSkip / 2 - 1) / (dftSize propsSkip / 2))).
Proof.
  apply (hftnnForwardTemporal_frame_count dftKernel (ones 11) propsSkip).
  - exact dftKernel_contract.
  - exact validDftSize_propsSkip.
Defined.

(** ** [hftnnInverse]: which frames it accepts *)

Lemma scatter_fail (hft : list (number * number)) (bin : Z)
    (st : list (option number) * nat) :
  length hft <= snd st -> scatter hft bin st = Throw TypeError.
Proof.
  intros H. unfold scatter. rewrite lookup_ge_None_2 by exact H. reflexivity.
Qed.

Lemma invLowLoop_fail (hft : list (number * number)) (b : Z) (j : nat) :
  forall st : list (option number) * nat,
    snd st <= length hft -> length hft < snd st + j ->
    invLowLoop hft b j st = Throw TypeError.
Proof.
  induction j as [|j IH]; intros st H1 H2; [lia|].
  cbn [invLowLoop].
  destruct (le_lt_dec (length hft) (snd st)) as [Hge|Hlt].
  - rewrite scatter_fail by exact Hge. reflexivity.
  - destruct (scatter_ok hft (b - Z.of_nat (S j)) st Hlt) as (b1 & E1).
    rewrite E1, bind_Ok. apply IH; cbn [snd]; lia.
Qed.

Lemma invHighLoop_fail (hft : list (number * number)) (b : Z) (n : nat) :
  forall (j : Z) (st : list (option number) * nat),
    snd st <= length hft -> length hft < snd st + n ->
    invHighLoop hft b n j st = Throw TypeError.
Proof.
  induction n as [|n IH]; intros j st H1 H2; [lia|].
  cbn [invHighLoop].
  destruct (le_lt_dec (length hft) (snd st)) as [Hge|Hlt].
  - rewrite scatter_fail by exact Hge. reflexivity.
  - destruct (scatter_ok hft (b + j) st Hlt) as (b1 & E1).
    rewrite E1, bind_Ok. apply IH; cbn [snd]; lia.
Qed.

Lemma inverseBody_fail (hft : list (number * number)) (p : HFTNNProperties)
    (interval : nat) (st : list (option number) * nat) :
  snd st <= length hft -> length hft < snd st + (2 * extraBins p + 1) ->
  inverseBody hft p interval st = Throw TypeError.
Proof.
  intros H1 H2. unfold inverseBody.
  set (b := intervalBin p (dftSize p) interval).
  destruct (le_lt_dec (snd st + extraBins p) (length hft)) as [Hlow|Hlow].
  2:{ rewrite invLowLoop_fail by lia. reflexivity. }
  destruct (invLowLoop_ok hft b (extraBins p) st Hlow) as (b1 & E1).
  rewrite E1, bind_Ok.
  destruct (le_lt_dec (length hft) (snd st + extraBins p)) as [Hc|Hc].
  { rewrite scatter_fail by (cbn [snd]; lia). reflexivity. }
  destruct (scatter_ok hft b (b1, snd st + extraBins p) ltac:(cbn [snd]; lia))
    as (b2 & E2).
  rewrite E2, bind_Ok. cbn [snd].
  apply invHighLoop_fail; cbn [snd]; lia.
Qed.

Lemma inverseLoop_fail (hft : list (number * number)) (p : HFTNNProperties)
    (r : nat) :
  0 < r < 2 * extraBins p + 1 ->
  forall m fuel interval (st : list (option number) * nat),
    length hft = snd st + m * (2 * extraBins p + 1) + r ->
    m < fuel ->
    inverseLoop hft p fuel interval st = Throw TypeError.
Proof.
  intros Hr. induction m as [|m IH]; intros fuel interval st Hlen Hfuel;
    (destruct fuel as [|fuel]; [lia|]); cbn [inverseLoop];
    (destruct (snd st <? length hft) eqn:E; [|apply Nat.ltb_ge in E; lia]).
  - rewrite inverseBody_fail by lia. reflexivity.
  - destruct (inverseBody_ok hft p interval st ltac:(lia)) as (b1 & E1).
    rewrite E1, bind_Ok. apply IH; [cbn [snd]; lia|lia].
Qed.

(** X19. [hftnnInverse] checks the length of the frame only by running out
    of entries: a frame of whole intervals, [2 * extraBins + 1] entries
    each, is transformed whatever [octaveRange] says, and any other frame
    raises a [TypeError]. *)
Theorem hftnnInverse_accepts_whole_intervals (K : FFTKernel)
    (hft : list (number * number)) (p : HFTNNProperties) :
  FFTContract K -> validDftSize p ->
  (length hft mod (2 * extraBins p + 1) = 0 ->
   exists out, hftnnInverse K (Some hft) (Some p) = Ok out /\
               length out = 2 * dftSize p) /\
  (length hft mod (2 * extraBins p + 1) <> 0 ->
   hftnnInverse K (Some hft) (Some p) = Throw TypeError).
Proof.
  intros HK Hdft. set (w := 2 * extraBins p + 1).
  assert (Hdm := Nat.div_mod_eq (length hft) w).
  assert (Hr : length hft mod w < w) by (apply Nat.mod_upper_bound; lia).
  rewrite (hftnnInverse_valid K hft p HK Hdft). split.
  - intros Hm.
    destruct (inverseLoop_ok hft p (length hft / w) (length hft) 0
                (complexZeros (dftSize p), 0)) as (bins & E);
      [cbn [snd]; fold w; lia|nia|].
    rewrite E, bind_Ok. eexists. split; [reflexivity|].
    rewrite (inverseTransform_length K HK), length_complexZeros. lia.
  - intros Hm.
    rewrite (inverseLoop_fail hft p (length hft mod w) ltac:(fold w; lia)
               (length hft / w) (length hft) 0); [reflexivity| |].
    + cbn [snd]. fold w. lia.
    + assert (length hft / w * 1 <= length hft / w * w)
        by (apply Nat.mul_le_mono_l; lia). lia.
Qed.

Lemma hftnnInverse_accepts_whole_intervals_witness :
  (length [(Fin 1, Fin 0); (Fin 1, Fin 0)] mod (2 * extraBins propsSkip + 1) = 0 ->
   exists out,
     hftnnInverse dftKernel (Some [(Fin 1, Fin 0); (Fin 1, Fin 0)]) (Some propsSkip)
     = Ok out /\ length out = 2 * dftSize propsSkip) /\
  (length [(Fin 1, Fin 0); (Fin 1, Fin 0)] mod (2 * extraBins propsSkip + 1) <> 0 ->
   hftnnInverse dftKernel (Some [(Fin 1, Fin 0); (Fin 1, Fin 0)]) (Some propsSkip)
   = Throw TypeError).
Proof.
  apply (hftnnInverse_accepts_whole_intervals dftKernel
           [(Fin 1, Fin 0); (Fin 1, Fin 0)] propsSkip).
  - exact dftKernel_contract.
  - exact validDftSize_propsSkip.
Defined.

(** ** Silence, backwards *)

Lemma magnitudePhaseToComplex_zero_magnitude (phase : R) :
  magnitudePhaseToComplex (Fin 0) (Fin phase) = (Fin 0, Fin 0).
Proof.
  unfold magnitudePhaseToComplex, Math_cos, Math_sin. cbn [nlift1 nmul nlift2].
  rewrite !Rmult_0_r. reflexivity.
Qed.

Lemma scatter_zero (hft : list (number * number)) (n : nat) (bin : Z)
    (st : list (option number) * nat) :
  Forall (fun e => exists phase : R, e = (Fin 0, Fin phase)) hft ->
  snd st < length hft ->
  n <= length (fst st) ->
  (forall i, i < n -> fst st !! i = Some (Some (Fin 0))) ->
  exists bins',
    scatter hft bin st = Ok (bins', S (snd st)) /\
    n <= length bins' /\
    (forall i, i < n -> bins' !! i = Some (Some (Fin 0))).
Proof.
  intros Hz Hi Hn Hb. unfold scatter.
  destruct (lookup_lt_is_Some_2 hft (snd st) Hi) as [e E]. rewrite E.
  rewrite Forall_lookup in Hz. destruct (Hz _ _ E) as (ph & ->).
  cbn [fst snd]. rewrite magnitudePhaseToComplex_zero_magnitude. cbn [fst snd].
  eexists. split; [reflexivity|]. split.
  - etransitivity; [|apply length_arraySet_ge].
    etransitivity; [exact Hn|apply length_arraySet_ge].
  - apply lookup_arraySet_zero.
    + etransitivity; [exact Hn|apply length_arraySet_ge].
    + apply lookup_arraySet_zero; assumption.
Qed.

Lemma invLowLoop_zero (hft : list (number * number)) (n : nat) (b : Z) (j : nat) :
  Forall (fun e => exists phase : R, e = (Fin 0, Fin phase)) hft ->
  forall st : list (option number) * nat,
    snd st + j <= length hft ->
    n <= length (fst st) ->
    (forall i, i < n -> fst st !! i = Some (Some (Fin 0))) ->
    exists bins',
      invLowLoop hft b j st = Ok (bins', snd st + j) /\
      n <= length bins' /\
      (forall i, i < n -> bins' !! i = Some (Some (Fin 0))).
Proof.
  intros Hz. induction j as [|j IH]; intros st H Hn Hb.
  - exists (fst st). cbn [invLowLoop]. rewrite Nat.add_0_r.
    destruct st; cbn [fst snd] in *. auto.
  - cbn [invLowLoop].
    destruct (scatter_zero hft n (b - Z.of_nat (S j)) st Hz ltac:(lia) Hn Hb)
      as (b1 & E1 & Hn1 & Hb1).
    rewrite E1, bind_Ok.
    destruct (IH (b1, S (snd st)) ltac:(cbn [snd]; lia) Hn1 Hb1)
      as (b2 & E2 & Hn2 & Hb2).
    exists b2. rewrite E2. cbn [snd].
    split; [do 2 f_equal; lia|]. auto.
Qed.

Lemma invHighLoop_zero (hft : list (number * number)) (n : nat) (b : Z) (k : nat) :
  Forall (fun e => exists phase : R, e = (Fin 0, Fin phase)) hft ->
  forall (j : Z) (st : list (option number) * nat),
    snd st + k <= length hft ->
    n <= length (fst st) ->
    (forall i, i < n -> fst st !! i = Some (Some (Fin 0))) ->
    exists bins',
      invHighLoop hft b k j st = Ok (bins', snd st + k) /\
      n <= length bins' /\
      (forall i, i < n -> bins' !! i = Some (Some (Fin 0))).
Proof.
  intros Hz. induction k as [|k IH]; intros j st H Hn Hb.
  - exists (fst st). cbn [invHighLoop]. rewrite Nat.add_0_r.
    destruct st; cbn [fst snd] in *. auto.
  - cbn [invHighLoop].
    destruct (scatter_zero hft n (b + j) st Hz ltac:(lia) Hn Hb)
      as (b1 & E1 & Hn1 & Hb1).
    rewrite E1, bind_Ok.
    destruct (IH (j + 1)%Z (b1, S (snd st)) ltac:(cbn [snd]; lia) Hn1 Hb1)
      as (b2 & E2 & Hn2 & Hb2).
    exists b2. rewrite E2. cbn [snd].
    split; [do 2 f_equal; lia|]. auto.
Qed.

Lemma inverseBody_zero (hft : list (number * number)) (p : HFTNNProperties)
    (n interval : nat) (st : list (option number) * nat) :
  Forall (fun e => exists phase : R, e = (Fin 0, Fin phase)) hft ->
  snd st + (2 * extraBins p + 1) <= length hft ->
  n <= length (fst st) ->
  (forall i, i < n -> fst st !! i = Some (Some (Fin 0))) ->
  exists bins',
    inverseBody hft p interval st = Ok (bins', snd st + (2 * extraBins p + 1)) /\
    n <= length bins' /\
    (forall i, i < n -> bins' !! i = Some (Some (Fin 0))).
Proof.
  intros Hz H Hn Hb. unfold inverseBody.
  set (b := intervalBin p (dftSize p) interval).
  destruct (invLowLoop_zero hft n b (extraBins p) Hz st ltac:(lia) Hn Hb)
    as (b1 & E1 & Hn1 & Hb1).
  rewrite E1, bind_Ok.
  destruct (scatter_zero hft n b (b1, snd st + extraBins p) Hz
              ltac:(cbn [snd]; lia) Hn1 Hb1) as (b2 & E2 & Hn2 & Hb2).
  rewrite E2, bind_Ok. cbn [snd].
  destruct (invHighLoop_zero hft n b (extraBins p) Hz 1
              (b2, S (snd st + extraBins p)) ltac:(cbn [snd]; lia) Hn2 Hb2)
    as (b3 & E3 & Hn3 & Hb3).
  exists b3. rewrite E3. cbn [snd]. split; [do 2 f_equal; lia|]. auto.
Qed.

Lemma inverseLoop_zero (hft : list (number * number)) (p : HFTNNProperties)
    (n : nat) :
  Forall (fun e => exists phase : R, e = (Fin 0, Fin phase)) hft ->
  forall m fuel interval (st : list (option number) * nat),
    length hft = snd st + m * (2 * extraBins p + 1) ->
    m <= fuel ->
    n <= length (fst st) ->
    (forall i, i < n -> fst st !! i = Some (Some (Fin 0))) ->
    exists bins,
      inverseLoop hft p fuel interval st = Ok bins /\
      (forall i, i < n -> bins !! i = Some (Some (Fin 0))).
Proof.
  intros Hz. induction m as [|m IH]; intros fuel interval st Hlen Hfuel Hn Hb.
  - exists (fst st). split; [|exact Hb].
    destruct fuel; cbn [inverseLoop];
      (destruct (snd st <? length hft) eqn:E;
       [apply Nat.ltb_lt in E; lia|reflexivity]).
  - destruct fuel as [|fuel]; [lia|]. cbn [inverseLoop].
    destruct (snd st <? length hft) eqn:E; [|apply Nat.ltb_ge in E; lia].
    destruct (inverseBody_zero hft p n interval st Hz ltac:(lia) Hn Hb)
      as (b1 & E1 & Hn1 & Hb1).
    rewrite E1, bind_Ok.
    apply IH; [cbn [snd]; lia|lia|exact Hn1|exact Hb1].
Qed.

(** X20. A frame whose magnitudes are all zero, the empty frame included,
    comes back from [hftnnInverse] as [2 * dftSize] zeros, whatever the
    phases and wherever the bins fall. *)
Theorem hftnnInverse_zero_magnitudes (K : FFTKernel)
    (hft : list (number * number)) (p : HFTNNProperties) :
  FFTContract K -> validDftSize p ->
  length hft mod (2 * extraBins p + 1) = 0 ->
  Forall (fun e => exists phase : R, e = (Fin 0, Fin phase)) hft ->
  hftnnInverse K (Some hft) (Some p) = Ok (silence (2 * dftSize p)).
Proof.
  intros HK Hdft Hm Hz. set (w := 2 * extraBins p + 1) in *.
  assert (Hdm := Nat.div_mod_eq (length hft) w).
  rewrite (hftnnInverse_valid K hft p HK Hdft).
  destruct (inverseLoop_zero hft p (2 * dftSize p) Hz (length hft / w) (length hft) 0
              (complexZeros (dftSize p), 0)) as (bins & E & Hb).
  - cbn [snd]. fold w. lia.
  - nia.
  - cbn [fst]. rewrite length_complexZeros. lia.
  - intros i Hi. cbn [fst]. unfold complexZeros.
    apply lookup_replicate_2. lia.
  - rewrite E, bind_Ok. rewrite (inverseTransform_zero K HK) by exact Hb.
    unfold step, complexZeros, silence. cbn [Nat.eqb].
    do 2 f_equal. lia.
Qed.

Lemma hftnnInverse_zero_magnitudes_witness :
  hftnnInverse dftKernel (Some [(Fin 0, Fin 1); (Fin 0, Fin 2); (Fin 0, Fin 3)])
               (Some propsSkip)
  = Ok (silence (2 * dftSize propsSkip)).
Proof.
  apply (hftnnInverse_zero_magnitudes dftKernel
           [(Fin 0, Fin 1); (Fin 0, Fin 2); (Fin 0, Fin 3)] propsSkip).
  - exact dftKernel_contract.
  - exact validDftSize_propsSkip.
  - reflexivity.
  - repeat constructor; eexists; reflexivity.
Defined.

(** ** Forward, then inverse *)

(** X21. Every frame [hftnnForward] returns is accepted by [hftnnInverse],
    which gives [2 * dftSize] interleaved slots; the demo's [pick] with
    stride 2 then keeps the [dftSize] real components. *)
Theorem hftnnInverse_of_hftnnForward (K : FFTKernel) (sig : list (option number))
    (p : HFTNNProperties) (fw : option CosineWindow) :
  FFTContract K -> validDftSize p ->
  isPowerOfTwo (Z.of_nat (length sig)) = true ->
  exists hft out samples,
    snd (hftnnForward K (Some sig) (Some p) fw) = Ok hft /\
    hftnnInverse K (Some hft) (Some p) = Ok out /\
    length out = 2 * dftSize p /\
    pick out 2 = Ok samples /\
    length samples = dftSize p /\
    forall j, samples !! j = out !! (j * 2).
Proof.
  intros HK Hdft Hsig.
  destruct (hftnnForward_ok K sig p fw HK Hsig Hdft) as (hft & E & L).
  destruct (hftnnInverse_ok K hft p HK Hdft L) as (bins & _ & Einv & Lout).
  exists hft. eexists. exists (everyNth 2 0 (fft_inverseTransform K (dftSize p)
                                (complexZeros (dftSize p)) bins)).
  rewrite E. cbn [snd]. split; [reflexivity|]. split; [exact Einv|].
  split; [exact Lout|]. split.
  - unfold pick. rewrite pickLoop_spec by lia. reflexivity.
  - split.
    + rewrite length_everyNth by lia. rewrite Lout.
      replace (2 * dftSize p + 2 - 1) with (1 + dftSize p * 2) by lia.
      rewrite Nat.div_add by lia. reflexivity.
    + intros j. rewrite lookup_everyNth by lia. reflexivity.
Qed.

Lemma hftnnInverse_of_hftnnForward_witness :
  exists hft out samples,
    snd (hftnnForward dftKernel (Some (ones 8)) (Some propsSkip) None) = Ok hft /\
    hftnnInverse dftKernel (Some hft) (Some propsSkip) = Ok out /\
    length out = 2 * dftSize propsSkip /\
    pick out 2 = Ok samples /\
    length samples = dftSize propsSkip /\
    forall j, samples !! j = out !! (j * 2).
Proof.
  apply (hftnnInverse_of_hftnnForward dftKernel (ones 8) propsSkip None).
  - exact dftKernel_contract.
  - exact validDftSize_propsSkip.
  - reflexivity.
Defined.

(** ** [hftnnInverseTemporal] *)

Lemma interpolateLoop_ok (hft nextHft : list (number * number)) (t : number) :
  forall n k interpolated,
    k + n <= length hft -> k + n <= length nextHft ->
    exists more,
      interpolateLoop hft nextHft t n k interpolated = Ok (interpolated ++ more) /\
      length more = n.
Proof.
  induction n as [|n IH]; intros k acc H1 H2.
  - exists []. rewrite app_nil_r. split; reflexivity.
  - cbn [interpolateLoop].
    destruct (lookup_lt_is_Some_2 hft k ltac:(lia)) as [a Ea].
    destruct (lookup_lt_is_Some_2 nextHft k ltac:(lia)) as [b Eb].
    rewrite Ea, Eb.
    destruct (IH (S k) (acc ++ [(lerp (fst a) (fst b) t, lerp (snd a) (snd b) t)])
                ltac:(lia) ltac:(lia)) as (more & E & L).
    eexists. rewrite E, <- app_assoc. split; [reflexivity|].
    cbn [app length]. lia.
Qed.

Lemma hftnnInverse_windowed_length (K : FFTKernel) (hft : list (number * number))
    (p : HFTNNProperties) (w : CosineWindow) :
  FFTContract K -> validDftSize p -> length hft = frameLength p ->
  exists signal,
    hftnnInverse K (Some hft) (Some p) = Ok signal /\
    length signal = 2 * dftSize p /\
    length (apply w signal) = 2 * dftSize p.
Proof.
  intros HK Hdft L.
  destruct (hftnnInverse_ok K hft p HK Hdft L) as (bins & _ & E & Lout).
  eexists. split; [exact E|]. split; [exact Lout|].
  rewrite length_apply. exact Lout.
Qed.

Lemma interpLoop_ok (K : FFTKernel) (p : HFTNNProperties)
    (hft nextHft : list (number * number)) (w : CosineWindow) :
  FFTContract K -> validDftSize p ->
  length hft = frameLength p -> length nextHft = frameLength p ->
  forall n j signals,
    exists more,
      interpLoop K p hft nextHft w n j signals = Ok (signals ++ more) /\
      length more = n /\
      Forall (fun s : list (option number) => length s = 2 * dftSize p) more.
Proof.
  intros HK Hdft L1 L2. induction n as [|n IH]; intros j signals.
  - exists []. rewrite app_nil_r. repeat split. constructor.
  - cbn [interpLoop].
    destruct (interpolateLoop_ok hft nextHft
                (Fin (INR (j + 1) / INR (interpolatedChunks p * 2 + 1)))
                (length hft) 0 []) as (frame_j & E1 & Lf); [lia|lia|].
    rewrite E1, bind_Ok. cbn [app].
    destruct (hftnnInverse_windowed_length K frame_j p w HK Hdft ltac:(lia))
      as (signal & E2 & _ & La).
    rewrite E2, bind_Ok.
    destruct (IH (S j) (signals ++ [apply w signal])) as (more & E & Lm & Hm).
    exists (apply w signal :: more). rewrite E, <- app_assoc.
    split; [reflexivity|]. split; [cbn [length]; lia|].
    constructor; assumption.
Qed.

Lemma windowedFrameCount_steps (p : HFTNNProperties) (r : nat) :
  windowedFrameCount p 0 = 0 /\
  (interpolatedChunks p = 0 -> windowedFrameCount p (S r) = S (windowedFrameCount p r)) /\
  (0 < interpolatedChunks p -> windowedFrameCount p 1 = 1) /\
  (0 < interpolatedChunks p ->
   windowedFrameCount p (S (S r))
   = 1 + interpolatedChunks p * 2 + 1 + windowedFrameCount p r).
Proof.
  unfold windowedFrameCount.
  destruct (interpolatedChunks p =? 0) eqn:E.
  - apply Nat.eqb_eq in E. repeat split; intros; try reflexivity; lia.
  - apply Nat.eqb_neq in E. split; [reflexivity|]. split; [lia|].
    split; [reflexivity|]. intros _.
    replace (S (S r)) with (r + 1 * 2) by lia.
    rewrite Nat.div_add, Nat.Div0.mod_add by lia. lia.
Qed.

Lemma inverseTemporalLoop_ok (K : FFTKernel) (p : HFTNNProperties)
    (hftt : list (list (number * number))) :
  FFTContract K -> validDftSize p ->
  Forall (fun hft : list (number * number) => length hft = frameLength p) hftt ->
  forall fuel i windowFunc signals,
    i <= length hftt -> length hftt - i <= fuel ->
    exists more,
      inverseTemporalLoop K p hftt fuel i windowFunc signals = Ok (signals ++ more) /\
      length more = windowedFrameCount p (length hftt - i) /\
      Forall (fun s : list (option number) => length s = 2 * dftSize p) more.
Proof.
  intros HK Hdft Hall.
  assert (Hframe : forall i hft, hftt !! i = Some hft -> length hft = frameLength p).
  { intros i hft E. rewrite Forall_lookup in Hall. exact (Hall _ _ E). }
  induction fuel as [|fuel IH]; intros i wf signals Hi Hfuel.
  - exists []. rewrite app_nil_r. cbn [inverseTemporalLoop].
    destruct (i <? length hftt) eqn:E; [apply Nat.ltb_lt in E; lia|].
    replace (length hftt - i) with 0 by lia.
    split; [reflexivity|].
    split; [symmetry; apply (proj1 (windowedFrameCount_steps p 0))|constructor].
  - cbn [inverseTemporalLoop].
    destruct (i <? length hftt) eqn:E.
    2:{ apply Nat.ltb_ge in E. exists []. rewrite app_nil_r.
        replace (length hftt - i) with 0 by lia.
        split; [reflexivity|].
        split; [symmetry; apply (proj1 (windowedFrameCount_steps p 0))|constructor]. }
    apply Nat.ltb_lt in E.
    destruct (lookup_lt_is_Some_2 hftt i E) as [hft Ehft]. rewrite Ehft.
    set (w := fun signal : list (option number) =>
                match wf with
                | Some w => w
                | None => newCosineWindow (length signal)
                end).
    destruct (hftnnInverse_ok K hft p HK Hdft (Hframe _ _ Ehft))
      as (bins & _ & E1 & L1).
    rewrite E1, bind_Ok.
    set (signal := fft_inverseTransform K (dftSize p)
                     (complexZeros (dftSize p)) bins) in *.
    fold (w signal).
    assert (La : length (apply (w signal) signal) = 2 * dftSize p)
      by (rewrite length_apply; exact L1).
    destruct (windowedFrameCount_steps p (length hftt - i - 1)) as (_ & F1 & F2 & _).
    destruct (windowedFrameCount_steps p (length hftt - i - 2)) as (_ & _ & _ & F3).
    destruct ((0 <? interpolatedChunks p) && (i + 1 <? length hftt)) eqn:Epair.
    + apply andb_true_iff in Epair. destruct Epair as [Hic Hnext].
      apply Nat.ltb_lt in Hic. apply Nat.ltb_lt in Hnext.
      destruct (lookup_lt_is_Some_2 hftt (i + 1) Hnext) as [nextHft Enext].
      rewrite Enext.
      destruct (interpLoop_ok K p hft nextHft (w signal) HK Hdft
                  (Hframe _ _ Ehft) (Hframe _ _ Enext)
                  (interpolatedChunks p * 2) 0 (signals ++ [apply (w signal) signal]))
        as (mid & E2 & Lmid & Hmid).
      rewrite E2, bind_Ok.
      destruct (hftnnInverse_ok K nextHft p HK Hdft (Hframe _ _ Enext))
        as (bins' & _ & E3 & L3).
      rewrite E3, bind_Ok.
      destruct (IH (i + 1 + 1) (Some (w signal))
                  (((signals ++ [apply (w signal) signal]) ++ mid)
                   ++ [apply (w signal)
                         (fft_inverseTransform K (dftSize p)
                            (complexZeros (dftSize p)) bins')]))
        as (more & E4 & Lmore & Hmore); [lia|lia|].
      eexists. rewrite E4, <- !app_assoc. split; [reflexivity|]. split.
      * rewrite !length_app, Lmid, Lmore. cbn [length].
        replace (windowedFrameCount p (length hftt - i))
          with (windowedFrameCount p (S (S (length hftt - i - 2))))
          by (f_equal; lia).
        replace (length hftt - (i + 1 + 1)) with (length hftt - i - 2) by lia.
        rewrite (F3 Hic). lia.
      * constructor; [exact La|]. apply Forall_app. split; [exact Hmid|].
        constructor; [rewrite length_apply; exact L3|exact Hmore].
    + destruct (IH (i + 1) (Some (w signal)) (signals ++ [apply (w signal) signal]))
        as (more & E4 & Lmore & Hmore); [lia|lia|].
      eexists. rewrite E4, <- app_assoc. split; [reflexivity|]. split.
      * cbn [app length]. rewrite Lmore.
        replace (windowedFrameCount p (length hftt - i))
          with (windowedFrameCount p (S (length hftt - i - 1)))
          by (f_equal; lia).
        replace (length hftt - (i + 1)) with (length hftt - i - 1) by lia.
        apply andb_false_iff in Epair. destruct Epair as [Hic|Hnext].
        -- apply Nat.ltb_ge in Hic. rewrite F1 by lia. reflexivity.
        -- apply Nat.ltb_ge in Hnext.
           assert (H0 : length hftt - i - 1 = 0) by lia.
           rewrite H0 in *.
           destruct (Nat.eq_dec (interpolatedChunks p) 0) as [Hz|Hz].
           ++ rewrite F1 by exact Hz. reflexivity.
           ++ rewrite F2 by lia.
              rewrite (proj1 (windowedFrameCount_steps p 0)). reflexivity.
      * constructor; assumption.
Qed.

Lemma overlapLoop_length (frame_i : list (option number)) (rs : Z) :
  forall n j (signal : list (option number)),
    (rs + Z.of_nat j <= Z.of_nat (length signal))%Z ->
    Z.of_nat (length (overlapLoop frame_i rs n j signal))
    = Z.max (Z.of_nat (length signal)) (rs + Z.of_nat j + Z.of_nat n).
Proof.
  induction n as [|n IH]; intros j signal H.
  - cbn [overlapLoop]. lia.
  - cbn [overlapLoop].
    destruct (Z.of_nat (length signal) <=? rs + Z.of_nat j)%Z eqn:E.
    + apply Z.leb_le in E. rewrite IH by (rewrite length_app; cbn [length]; lia).
      rewrite length_app. cbn [length]. lia.
    + apply Z.leb_gt in E.
      assert (L : length (arraySet signal (rs + Z.of_nat j)
                    (nmul (nadd (arrayGet signal (rs + Z.of_nat j))
                                (toNumber (mjoin (frame_i !! j)))) (Fin 2)))
                  = length signal).
      { unfold arraySet. destruct (negb (isArrayIndex (rs + Z.of_nat j))) eqn:Ei;
          [reflexivity|].
        apply negb_false_iff in Ei. unfold isArrayIndex in Ei.
        apply andb_true_iff in Ei. destruct Ei as [E0 _]. apply Z.leb_le in E0.
        destruct (Z.to_nat (rs + Z.of_nat j) <? length signal) eqn:E1.
        - apply length_insert.
        - apply Nat.ltb_ge in E1. lia. }
      rewrite IH by (rewrite L; lia). rewrite L. lia.
Qed.

Lemma overlapAdd_length (p : HFTNNProperties) (signal frame_i : list (option number)) :
  length (overlapAdd p signal frame_i) = length signal + dftSize p.
Proof.
  unfold overlapAdd.
  assert (H := overlapLoop_length frame_i
                 (Z.of_nat (length signal) - Z.of_nat (dftSize p * 2)
                  + Z.of_nat (dftSize p))%Z
                 (dftSize p * 2) 0 signal ltac:(lia)).
  lia.
Qed.

Lemma fold_overlapAdd_length (p : HFTNNProperties) (rest : list (list (option number))) :
  forall first,
    length (fold_left (overlapAdd p) rest first)
    = length first + length rest * dftSize p.
Proof.
  induction rest as [|f rest IH]; intros first; cbn [fold_left length]; [lia|].
  rewrite IH, overlapAdd_length. lia.
Qed.

Lemma hftnnInverseTemporal_ok (K : FFTKernel) (hftt : list (list (number * number)))
    (p : HFTNNProperties) :
  FFTContract K -> validDftSize p ->
  Forall (fun hft : list (number * number) => length hft = frameLength p) hftt ->
  hftt <> [] ->
  exists out,
    hftnnInverseTemporal K hftt p = Ok out /\
    length out = (windowedFrameCount p (length hftt) + 1) * dftSize p.
Proof.
  intros HK Hdft Hall Hne. unfold hftnnInverseTemporal.
  destruct (length hftt =? 0) eqn:E0.
  { apply Nat.eqb_eq in E0. destruct hftt; [contradiction|discriminate]. }
  apply Nat.eqb_neq in E0.
  destruct (inverseTemporalLoop_ok K p hftt HK Hdft Hall (length hftt) 0 None [])
    as (signals & E & L & Hs); [lia|lia|].
  rewrite E, bind_Ok. cbn [app]. rewrite Nat.sub_0_r in L.
  destruct signals as [|first rest].
  { exfalso. cbn [length] in L. unfold windowedFrameCount in L.
    destruct (interpolatedChunks p =? 0); [lia|].
    assert (Hdm := Nat.div_mod_eq (length hftt) 2). lia. }
  eexists. split; [reflexivity|].
  rewrite fold_overlapAdd_length.
  inversion Hs as [|? ? Hfirst _]; subst. rewrite Hfirst.
  cbn [length] in L. lia.
Qed.

(** X22. [hftnnInverseTemporal] returns the empty signal for no frame; for
    [n] frames of the valid length it stitches [windowedFrameCount p n]
    windowed frames, each overlapping the previous one by half, into
    [(windowedFrameCount p n + 1) * dftSize] slots: [(n + 1) * dftSize]
    when nothing is interpolated. *)
Theorem hftnnInverseTemporal_length (K : FFTKernel)
    (hftt : list (list (number * number))) (p : HFTNNProperties) :
  FFTContract K -> validDftSize p ->
  Forall (fun hft : list (number * number) =>
            length hft
            = octaveRange p * frequenciesInOctave p * (2 * extraBins p + 1)) hftt ->
  exists out,
    hftnnInverseTemporal K hftt p = Ok out /\
    (hftt = [] -> out = []) /\
    (hftt <> [] ->
     length out = (windowedFrameCount p (length hftt) + 1) * dftSize p) /\
    (hftt <> [] -> interpolatedChunks p = 0 ->
     length out = (length hftt + 1) * dftSize p).
Proof.
  intros HK Hdft Hall. destruct hftt as [|hft hftt].
  - exists []. split; [reflexivity|]. split; [reflexivity|].
    split; intros H; contradiction.
  - destruct (hftnnInverseTemporal_ok K (hft :: hftt) p HK Hdft Hall ltac:(discriminate))
      as (out & E & L).
    exists out. split; [exact E|]. split; [discriminate|]. split; [intros _; exact L|].
    intros _ Hic. rewrite L. unfold windowedFrameCount. rewrite Hic. reflexivity.
Qed.

Lemma hftnnInverseTemporal_length_witness :
  exists out,
    hftnnInverseTemporal dftKernel
      [[(Fin 0, Fin 0); (Fin 0, Fin 0); (Fin 0, Fin 0)];
       [(Fin 1, Fin 0); (Fin 1, Fin 0); (Fin 1, Fin 0)]] propsSkip = Ok out /\
    ([[(Fin 0, Fin 0); (Fin 0, Fin 0); (Fin 0, Fin 0)];
      [(Fin 1, Fin 0); (Fin 1, Fin 0); (Fin 1, Fin 0)]] = [] -> out = []) /\
    ([[(Fin 0, Fin 0); (Fin 0, Fin 0); (Fin 0, Fin 0)];
      [(Fin 1, Fin 0); (Fin 1, Fin 0); (Fin 1, Fin 0)]] <> [] ->
     length out = (windowedFrameCount propsSkip 2 + 1) * dftSize propsSkip) /\
    ([[(Fin 0, Fin 0); (Fin 0, Fin 0); (Fin 0, Fin 0)];
      [(Fin 1, Fin 0); (Fin 1, Fin 0); (Fin 1, Fin 0)]] <> [] ->
     interpolatedChunks propsSkip = 0 ->
     length out = (2 + 1) * dftSize propsSkip).
Proof.
  apply (hftnnInverseTemporal_length dftKernel
           [[(Fin 0, Fin 0); (Fin 0, Fin 0); (Fin 0, Fin 0)];
            [(Fin 1, Fin 0); (Fin 1, Fin 0); (Fin 1, Fin 0)]] propsSkip).
  - exact dftKernel_contract.
  - exact validDftSize_propsSkip.
  - repeat constructor.
Defined.

(** X23. With no interpolation, what [hftnnForwardTemporal] returns on any
    signal is accepted by [hftnnInverseTemporal], and the real components
    [pick] keeps of the result are at least as many as the samples of the
    signal. *)
Theorem temporal_round_trip_length (K : FFTKernel) (signal : list (option number))
    (p : HFTNNProperties) :
  FFTContract K -> validDftSize p -> interpolatedChunks p = 0 ->
  exists hftnns out samples,
    snd (hftnnForwardTemporal K signal p) = Ok hftnns /\
    hftnnInverseTemporal K hftnns p = Ok out /\
    length out = (length hftnns + 1) * dftSize p /\
    pick out 2 = Ok samples /\
    length samples = (length hftnns + 1) * (dftSize p / 2) /\
    length signal <= length samples.
Proof.
  intros HK Hdft Hic.
  destruct (validDftSize_even p Hdft) as [Heven Hhop].
  assert (Hframes : exists hftnns,
             snd (hftnnForwardTemporal K signal p) = Ok hftnns /\
             Forall (fun hft : list (number * number) => length hft = frameLength p) hftnns /\
             hftnns <> [] /\
             length signal <= (length hftnns + 1) * (dftSize p / 2)).
  { destruct (le_lt_dec (dftSize p) (length signal)) as [Hlong|Hshort].
    - rewrite (hftnnForwardTemporal_long K signal p HK Hdft Hlong). cbn [snd].
      eexists. split; [reflexivity|].
      assert (Hcount : length (keptHops signal p) = hopCount signal p).
      { unfold keptHops. rewrite count_multiples by lia. rewrite Hic.
        replace (hopCount signal p + 1 - 1) with (hopCount signal p) by lia.
        apply Nat.div_1_r. }
      assert (Hcover : length signal <= hopCount signal p * (dftSize p / 2)).
      { destruct (le_lt_dec (length signal) (hopCount signal p * (dftSize p / 2)))
          as [H|H]; [exact H|].
        apply (hop_lt_iff (length signal) (dftSize p / 2) (hopCount signal p)) in H;
          [|lia]. unfold hopCount in H. lia. }
      split; [|split].
      + apply List.Forall_forall. intros hft Hin. apply in_map_iff in Hin.
        destruct Hin as (k & <- & _).
        apply (frameOfChunk_ok K p _ _ HK Hdft (length_chunkAt _ _ _)).
      + intros Hnil. apply (f_equal (@length _)) in Hnil.
        rewrite length_map, Hcount in Hnil. cbn [length] in Hnil.
        assert (1 < hopCount signal p)
          by (unfold hopCount; apply (hop_lt_iff (length signal) (dftSize p / 2) 1); lia).
        lia.
      + rewrite length_map, Hcount. lia.
    - destruct (hftnnForwardTemporal_short K signal p HK Hdft Hshort)
        as (hft & _ & L & E).
      rewrite E. cbn [snd]. exists [hft]. split; [reflexivity|].
      split; [constructor; [exact L|constructor]|]. split; [discriminate|].
      cbn [length]. lia. }
  destruct Hframes as (hftnns & E1 & Hall & Hne & Hcover).
  destruct (hftnnInverseTemporal_ok K hftnns p HK Hdft Hall Hne) as (out & E2 & L2).
  unfold windowedFrameCount in L2. rewrite Hic in L2. cbn [Nat.eqb] in L2.
  exists hftnns, out, (everyNth 2 0 out).
  split; [exact E1|]. split; [exact E2|]. split; [exact L2|].
  assert (Ls : length (everyNth 2 0 out) = (length hftnns + 1) * (dftSize p / 2)).
  { rewrite length_everyNth by lia. rewrite L2.
    symmetry. apply (Nat.div_unique _ 2 _ 1); [lia|]. nia. }
  split; [unfold pick; rewrite pickLoop_spec by lia; reflexivity|].
  split; [exact Ls|]. rewrite Ls. exact Hcover.
Qed.

Lemma temporal_round_trip_length_witness :
  exists hftnns out samples,
    snd (hftnnForwardTemporal dftKernel (ones 11) props8) = Ok hftnns /\
    hftnnInverseTemporal dftKernel hftnns props8 = Ok out /\
    length out = (length hftnns + 1) * dftSize props8 /\
    pick out 2 = Ok samples /\
    length samples = (length hftnns + 1) * (dftSize props8 / 2) /\
    length (ones 11) <= length samples.
Proof.
  apply (temporal_round_trip_length dftKernel (ones 11) props8).
  - exact dftKernel_contract.
  - exact validDftSize_props8.
  - reflexivity.
Defined.
